(** * tinyvdom: virtual nodes, reconciliation and reactive state

    A shallow embedding of [src/main.ts]: the tree-construction function [h],
    the renderer, [mount], the reconciler [patch] with [updateProps], and the
    reactivity engine ([effect], [track], [trigger], [reactive]).

    The host document is kept as an explicit state (a tree of live nodes and
    the trace of the mutating host calls issued so far); the reactivity
    engine's two module-level variables are kept as an explicit store.

    What is taken from JavaScript and the DOM rather than from the source:
    - values are [undefined], [null], booleans, strings of ASCII characters,
      functions (an identity and a source text), the members of
      [Object.prototype], and the numbers that are NaN, an infinity or a
      double without a fraction; conversions between strings and numbers
      round to the nearest double and print the shortest digits, as the
      language does;
    - a property mapping is an ordinary object: its own enumerable
      properties in enumeration order, on top of [Object.prototype], so
      [key in props] and [props[key]] find the inherited members too, while
      [for ... in] and [Object.entries] list the own properties only;
    - the children of a virtual node are typed as in [types.ts], nodes or
      strings; an index out of range reads [undefined];
    - a live node is referred to by its position in the document, which
      stays the same for as long as [patch] holds the reference;
    - the host is an HTML document. It keeps attribute names in lower case
      and attribute values in string form, takes every tag and attribute
      name it is handed as a valid one, and refuses as a listener a value
      that is neither an object nor [null] or [undefined]; a child-list
      call throws when the node it is handed is [undefined] or not a child,
      and [appendChild] throws on a text node; every call on [undefined]
      throws;
    - a target object of the reactivity engine is an ordinary object too:
      a read finds its own properties and then the inherited ones, a write
      makes or updates an own data property (the setter behind
      [__proto__] is not modelled) unless the object is frozen. *)

From Stdlib Require Import ZArith Lia Ascii String.
From stdpp Require Import base option list gmap strings pretty.

Set Warnings "-register-all".
Local Open Scope string_scope.
Local Open Scope list_scope.

(** ** JavaScript values *)

Module JS.

(** Numbers are NaN and the doubles that are integers or infinite: [Int z]
    is the Number value of the integer [z], that is the double nearest to
    it, and an infinity when [z] is out of range. Doubles with a fraction
    are not among the values kept here. Strings are sequences of ASCII
    characters. *)
Inductive number : Type :=
| NaN
| Int (z : Z).

(** The values a property mapping ([PropType], typed [any]) holds here:
    primitives, functions, and what every object inherits from
    [Object.prototype]. A function has an identity and a source text, which
    is its string form; [VNative name] is the built-in function of that
    name, and [VObjectPrototype] is [Object.prototype] itself. *)
Inductive value : Type :=
| VUndefined
| VNull
| VBool (b : bool)
| VNum (n : number)
| VStr (s : string)
| VFun (id : nat) (src : string)
| VNative (name : string)
| VObjectPrototype.

#[global] Instance number_eq_dec : EqDecision number.
Proof. solve_decision. Defined.

#[global] Instance value_eq_dec : EqDecision value.
Proof. solve_decision. Defined.

(** [typeof v === 'function'] and [typeof v === 'string']. *)
Definition is_function (v : value) : bool :=
  match v with VFun _ _ | VNative _ => true | _ => false end.

Definition is_string (v : value) : bool :=
  match v with VStr _ => true | _ => false end.

(** The values that are objects, functions included. *)
Definition is_object (v : value) : bool :=
  match v with VFun _ _ | VNative _ | VObjectPrototype => true | _ => false end.

(** [v == null] *)
Definition nullish (v : value) : bool :=
  match v with
  | VUndefined | VNull => true
  | _ => false
  end.

(** ToBoolean, as used by [if (v)]. *)
Definition truthy (v : value) : bool :=
  match v with
  | VUndefined | VNull => false
  | VBool b => b
  | VNum NaN => false
  | VNum (Int z) => negb (z =? 0)%Z
  | VStr s => negb (String.eqb s "")
  | VFun _ _ | VNative _ | VObjectPrototype => true
  end.

(** *** Doubles *)

(** [n / d >= 2 ^ e], for positive [n] and [d]. *)
Definition reaches (n d e : Z) : bool :=
  if (0 <=? e)%Z then (d * 2 ^ e <=? n)%Z else (d <=? n * 2 ^ (- e))%Z.

(** The binary exponent of [n / d]: the [e] with
    [2 ^ e <= n / d < 2 ^ (e + 1)]. *)
Definition binary_exponent (n d : Z) : Z :=
  let e := (Z.log2 n - Z.log2 d)%Z in
  if reaches n d e then e else (e - 1)%Z.

(** What a positive real rounds to as a double. *)
Inductive rounded : Type :=
| Whole (z : Z)
| Fraction
| Overflow.

(** Round [n / d] to the nearest double, ties to the even significand: the
    doubles around it are the multiples of [2 ^ q], [q] being 52 below its
    binary exponent, and 2^-1074 at the bottom of the range. *)
Definition round_ratio (n d : Z) : rounded :=
  let q := (Z.max (binary_exponent n d) (-1022) - 52)%Z in
  let num := if (q <=? 0)%Z then (n * 2 ^ (- q))%Z else n in
  let den := if (q <=? 0)%Z then d else (d * 2 ^ q)%Z in
  let fl := (num / den)%Z in
  let rem := (num mod den)%Z in
  let k := if (2 * rem <? den)%Z then fl
           else if (den <? 2 * rem)%Z then (fl + 1)%Z
           else if Z.even fl then fl else (fl + 1)%Z in
  if (0 <=? q)%Z then
    if (2 ^ 1024 <=? k * 2 ^ q)%Z then Overflow else Whole (k * 2 ^ q)
  else if (k mod 2 ^ (- q) =? 0)%Z then Whole (k / 2 ^ (- q))
  else Fraction.

Definition infinity : Z := (2 ^ 1024)%Z.

(** The double the integer [z] stands for; [infinity] and its negative
    stand for the two infinities. *)
Definition nearest (z : Z) : Z :=
  match z with
  | Z0 => 0%Z
  | Zpos _ =>
      match round_ratio z 1 with Whole w => w | _ => infinity end
  | Zneg _ =>
      match round_ratio (- z) 1 with Whole w => (- w)%Z | _ => (- infinity)%Z end
  end.

(** *** Number::toString *)

Definition decimal_length (z : Z) : Z := Z.of_nat (String.length (pretty z)).

(** The decimal with [k] significant digits that denotes the double [d],
    the one nearest to [d] if there are two, and of these the even one. *)
Definition short_decimal (d : Z) (k : Z) : option Z :=
  let p := (10 ^ (decimal_length d - k))%Z in
  let lo := (d / p * p)%Z in
  let hi := (lo + p)%Z in
  match (nearest lo =? d)%Z, (nearest hi =? d)%Z with
  | true, true =>
      if (d - lo <? hi - d)%Z then Some lo
      else if (hi - d <? d - lo)%Z then Some hi
      else if Z.even (d / p) then Some lo else Some hi
  | true, false => Some lo
  | false, true => Some hi
  | false, false => None
  end.

(** The decimal with the fewest significant digits, [k] or more, that
    denotes the double [d], a positive integer; 17 digits always do. *)
Fixpoint shortest_from (fuel : nat) (d k : Z) : Z :=
  match fuel with
  | O => d
  | S fuel' =>
      if (decimal_length d <=? k)%Z then d
      else match short_decimal d k with
           | Some v => v
           | None => shortest_from fuel' d (k + 1)
           end
  end.

Definition shortest (d : Z) : Z := shortest_from 17 d 1.

Fixpoint strip_zeros (fuel : nat) (z : Z) : Z :=
  match fuel with
  | O => z
  | S fuel' => if (z mod 10 =? 0)%Z then strip_zeros fuel' (z / 10) else z
  end.

(** The string of a positive finite double that is an integer: all its
    digits up to 21 of them, and the exponent form beyond. *)
Definition positive_to_string (d : Z) : string :=
  let v := shortest d in
  let n := decimal_length v in
  if (n <=? 21)%Z then pretty v
  else
    match pretty (strip_zeros 400 v) with
    | String c "" => String c "" +:+ "e+" +:+ pretty (n - 1)%Z
    | String c r => String c "" +:+ "." +:+ r +:+ "e+" +:+ pretty (n - 1)%Z
    | "" => ""
    end.

Definition NumberToString (n : number) : string :=
  match n with
  | NaN => "NaN"
  | Int z =>
      let d := nearest z in
      if (d =? 0)%Z then "0"
      else if (Z.abs d =? infinity)%Z then
        (if (d <? 0)%Z then "-Infinity" else "Infinity")
      else if (d <? 0)%Z then "-" +:+ positive_to_string (- d)
      else positive_to_string d
  end.

(** *** StringToNumber *)

Definition is_space (c : ascii) : bool :=
  let n := nat_of_ascii c in
  ((n =? 32) || (n =? 9) || (n =? 10) || (n =? 11) || (n =? 12) || (n =? 13))%nat.

Fixpoint drop_spaces (s : list ascii) : list ascii :=
  match s with
  | c :: r => if is_space c then drop_spaces r else s
  | [] => []
  end.

Definition trim (s : list ascii) : list ascii :=
  reverse (drop_spaces (reverse (drop_spaces s))).

(** The value of [c] as a digit in the given radix (2, 8, 10 or 16). *)
Definition radix_digit (radix : Z) (c : ascii) : option Z :=
  let n := Z.of_nat (nat_of_ascii c) in
  let d := if ((48 <=? n) && (n <=? 57))%Z then Some (n - 48)%Z
           else if ((97 <=? n) && (n <=? 102))%Z then Some (n - 87)%Z
           else if ((65 <=? n) && (n <=? 70))%Z then Some (n - 55)%Z
           else None in
  match d with
  | Some d => if (d <? radix)%Z then Some d else None
  | None => None
  end.

Fixpoint radix_value (radix : Z) (acc : Z) (s : list ascii) : option Z :=
  match s with
  | [] => Some acc
  | c :: r =>
      match radix_digit radix c with
      | Some d => radix_value radix (radix * acc + d)%Z r
      | None => None
      end
  end.

(** The longest prefix of decimal digits, and what follows it. *)
Fixpoint span_digits (s : list ascii) : list ascii * list ascii :=
  match s with
  | c :: r =>
      match radix_digit 10 c with
      | Some _ => let (d, rest) := span_digits r in (c :: d, rest)
      | None => ([], s)
      end
  | [] => ([], [])
  end.

Definition decimal_value (ds : list ascii) : Z :=
  default 0%Z (radix_value 10 0 ds).

(** A radix prefix: [0x], [0o], [0b] in either case. *)
Definition radix_of (c : ascii) : option Z :=
  if Ascii.eqb c "x"%char || Ascii.eqb c "X"%char then Some 16%Z
  else if Ascii.eqb c "o"%char || Ascii.eqb c "O"%char then Some 8%Z
  else if Ascii.eqb c "b"%char || Ascii.eqb c "B"%char then Some 2%Z
  else None.

(** An optional sign. *)
Definition signed (s : list ascii) : Z * list ascii :=
  match s with
  | c :: r =>
      if Ascii.eqb c "-"%char then ((-1)%Z, r)
      else if Ascii.eqb c "+"%char then (1%Z, r)
      else (1%Z, s)
  | [] => (1%Z, [])
  end.

(** The exponent part that ends a decimal literal: nothing, or [e] or [E],
    an optional sign and at least one digit. *)
Definition exponent (s : list ascii) : option Z :=
  match s with
  | [] => Some 0%Z
  | c :: r =>
      if Ascii.eqb c "e"%char || Ascii.eqb c "E"%char then
        let (sgn, r') := signed r in
        match span_digits r' with
        | ((_ :: _) as ds, []) => Some (sgn * decimal_value ds)%Z
        | _ => None
        end
      else None
  end.

(** The Number value of [m * 10 ^ k] for [m >= 0]: an integer, an infinity,
    or a double with a fraction; the last equals no number kept here and is
    given as NaN. *)
Definition scaled (m k : Z) : number :=
  if (m =? 0)%Z then Int 0
  else
    match (if (0 <=? k)%Z then round_ratio (m * 10 ^ k) 1
           else round_ratio m (10 ^ (- k))) with
    | Whole z => Int z
    | Overflow => Int infinity
    | Fraction => NaN
    end.

(** An unsigned decimal literal: [Infinity], or digits, an optional point
    with digits on at least one side, an optional exponent. *)
Definition unsigned_decimal (s : list ascii) : number :=
  if String.eqb (string_of_list_ascii s) "Infinity" then Int infinity
  else
    let (ip, r1) := span_digits s in
    let (fp, r2) :=
      match r1 with
      | c :: r => if Ascii.eqb c "."%char then span_digits r else ([], r1)
      | [] => ([], [])
      end in
    match ip ++ fp with
    | [] => NaN
    | ds =>
        match exponent r2 with
        | Some e => scaled (decimal_value ds) (e - Z.of_nat (length fp))
        | None => NaN
        end
    end.

(** StringToNumber: surrounding white space is ignored, the empty string
    is 0; a literal with a radix prefix is read in that radix; anything else
    is an optionally signed decimal literal; the value is rounded to the
    nearest double. A string that denotes no number is NaN, and so is here
    one whose double has a fraction. *)
Definition StringToNumber (s : string) : number :=
  match trim (list_ascii_of_string s) with
  | [] => Int 0
  | ("0"%char :: p :: r) as t =>
      match radix_of p with
      | Some radix =>
          match r with
          | [] => NaN
          | _ => match radix_value radix 0 r with
                 | Some z => Int (nearest z)
                 | None => NaN
                 end
          end
      | None => unsigned_decimal t
      end
  | t =>
      let (sgn, r) := signed t in
      match unsigned_decimal r with
      | Int z => Int (sgn * z)
      | NaN => NaN
      end
  end.

(** *** Conversions and equality *)

(** The string form of a built-in function, as V8 prints it. *)
Definition native_source (name : string) : string :=
  "function " +:+ name +:+ "() { [native code] }".

(** ToPrimitive: a function's primitive is its source text, that of
    [Object.prototype] is ["[object Object]"]. *)
Definition ToPrimitive (v : value) : value :=
  match v with
  | VFun _ src => VStr src
  | VNative name => VStr (native_source name)
  | VObjectPrototype => VStr "[object Object]"
  | _ => v
  end.

(** ToNumber. *)
Definition ToNumber (v : value) : number :=
  match ToPrimitive v with
  | VUndefined => NaN
  | VNull => Int 0
  | VBool b => Int (if b then 1 else 0)
  | VNum n => n
  | VStr s => StringToNumber s
  | _ => NaN
  end.

(** ToString, the form [setAttribute] stores. *)
Definition ToString (v : value) : string :=
  match ToPrimitive v with
  | VUndefined => "undefined"
  | VNull => "null"
  | VBool b => if b then "true" else "false"
  | VNum n => NumberToString n
  | VStr s => s
  | _ => ""
  end.

Definition number_eq (a b : number) : bool :=
  match a, b with
  | Int x, Int y => (nearest x =? nearest y)%Z
  | _, _ => false
  end.

(** Two objects are equal when they are the same object. *)
Definition same_object (x y : value) : bool :=
  match x, y with
  | VFun f _, VFun g _ => (f =? g)%nat
  | VNative a, VNative b => String.eqb a b
  | VObjectPrototype, VObjectPrototype => true
  | _, _ => false
  end.

(** [x == y] (IsLooselyEqual). Values of one type compare strictly
    (objects by identity, NaN unequal to itself); [null] and [undefined]
    equal each other and nothing else; otherwise an object is replaced by
    its primitive, and unless both sides are then strings the two sides
    are compared as numbers. *)
Definition loose_eq (x y : value) : bool :=
  if is_object x && is_object y then same_object x y
  else
    match x, y with
    | (VUndefined | VNull), (VUndefined | VNull) => true
    | (VUndefined | VNull), _ | _, (VUndefined | VNull) => false
    | VBool a, VBool b => Bool.eqb a b
    | VNum a, VNum b => number_eq a b
    | VStr a, VStr b => String.eqb a b
    | _, _ =>
        match ToPrimitive x, ToPrimitive y with
        | VStr a, VStr b => String.eqb a b
        | px, py => number_eq (ToNumber px) (ToNumber py)
        end
    end.

(** [x != y] *)
Definition loose_ne (x y : value) : bool := negb (loose_eq x y).

Definition is_upper (c : ascii) : bool :=
  let n := nat_of_ascii c in ((65 <=? n) && (n <=? 90))%nat.

(** [toLowerCase] on the ASCII letters. *)
Fixpoint toLowerCase (s : string) : string :=
  match s with
  | EmptyString => EmptyString
  | String c r =>
      String (if is_upper c then ascii_of_nat (nat_of_ascii c + 32) else c)
             (toLowerCase r)
  end.

(** [s.slice(n)] for a non-negative [n]. *)
Definition slice (n : nat) (s : string) : string :=
  String.substring n (String.length s - n) s.

(** [s.startsWith(p)] *)
Definition startsWith (p s : string) : bool := String.prefix p s.

End JS.

Import JS.

(** ** Virtual nodes ([types.ts]) *)

(** [PropType]: the entries of the object in enumeration order. *)
Definition PropType : Type := list (string * value).

(** The own property [key] of a mapping, if it has one. *)
Fixpoint own_get (props : PropType) (key : string) : option value :=
  match props with
  | [] => None
  | (k, v) :: rest => if String.eqb k key then Some v else own_get rest key
  end.

(** The mappings are ordinary objects, so they inherit the members of
    [Object.prototype]: its functions, [constructor], which is [Object],
    and the accessor [__proto__], which reads as [Object.prototype]. None
    of them is enumerable. *)
Definition Object_prototype : PropType :=
  [("constructor", VNative "Object");
   ("__defineGetter__", VNative "__defineGetter__");
   ("__defineSetter__", VNative "__defineSetter__");
   ("hasOwnProperty", VNative "hasOwnProperty");
   ("__lookupGetter__", VNative "__lookupGetter__");
   ("__lookupSetter__", VNative "__lookupSetter__");
   ("isPrototypeOf", VNative "isPrototypeOf");
   ("propertyIsEnumerable", VNative "propertyIsEnumerable");
   ("toString", VNative "toString");
   ("valueOf", VNative "valueOf");
   ("__proto__", VObjectPrototype);
   ("toLocaleString", VNative "toLocaleString")].

(** What an object without the own property [key] gives for it. *)
Definition inherited (key : string) : option value :=
  own_get Object_prototype key.

(** [newProps[key]]: the own property, else the inherited one, else
    [undefined]. *)
Definition prop_get (props : PropType) (key : string) : value :=
  match own_get props key with
  | Some v => v
  | None => default VUndefined (inherited key)
  end.

(** [key in props]: an own or an inherited property. *)
Definition prop_has (props : PropType) (key : string) : bool :=
  match own_get props key with
  | Some _ => true
  | None => match inherited key with Some _ => true | None => false end
  end.

Inductive VNode : Type :=
| mkVNode (type : string) (props : option PropType) (children : list child)
with child : Type :=
| CText (s : string)
| CNode (v : VNode).

Definition type (v : VNode) : string :=
  match v with mkVNode t _ _ => t end.

Definition props (v : VNode) : option PropType :=
  match v with mkVNode _ p _ => p end.

Definition children (v : VNode) : list child :=
  match v with mkVNode _ _ c => c end.

(** ** [h] *)

(** What the rest parameter of [h] may hold at run time: nodes, strings,
    [null], [undefined], and arrays of these. *)
Inductive harg : Type :=
| HNode (v : VNode)
| HText (s : string)
| HNull
| HUndefined
| HArr (items : list harg).

(** Induction over arguments, through the nested arrays. *)
Section HargInduction.
Variable P : harg → Prop.
Hypothesis node_case : ∀ v, P (HNode v).
Hypothesis text_case : ∀ s, P (HText s).
Hypothesis null_case : P HNull.
Hypothesis undefined_case : P HUndefined.
Hypothesis array_case : ∀ items, Forall P items → P (HArr items).

Fixpoint harg_nested_ind (a : harg) : P a :=
  match a with
  | HNode v => node_case v
  | HText s => text_case s
  | HNull => null_case
  | HUndefined => undefined_case
  | HArr items =>
      array_case items
        ((fix all (l : list harg) : Forall P l :=
            match l with
            | [] => @List.Forall_nil _ P
            | x :: r => @List.Forall_cons _ P x r (harg_nested_ind x) (all r)
            end) items)
  end.
End HargInduction.

(** [children.flat(Infinity)] *)
Fixpoint flat_item (a : harg) : list harg :=
  match a with
  | HArr items => flat_map flat_item items
  | _ => [a]
  end.

Definition flat_infinity (args : list harg) : list harg :=
  flat_map flat_item args.

(** [child != null] *)
Definition not_nullish (a : harg) : bool :=
  match a with
  | HNull | HUndefined => false
  | _ => true
  end.

(** The typed view of a flattened, filtered entry. *)
Definition as_child (a : harg) : option child :=
  match a with
  | HNode v => Some (CNode v)
  | HText s => Some (CText s)
  | _ => None
  end.

Definition of_child (c : child) : harg :=
  match c with
  | CText s => HText s
  | CNode v => HNode v
  end.

Definition h (type : string) (props : option PropType) (children : list harg)
  : VNode :=
  let flatChildren := filter (fun c => not_nullish c = true) (flat_infinity children) in
  mkVNode type props (omap as_child flatChildren).

(** ** The host tree *)

(** A live node. An element carries its attributes in string form and its
    registered listeners; a text node carries its data. *)
Inductive Node : Type :=
| TextNode (data : string)
| Element (tagName : string) (attributes : list (string * string))
          (listeners : list (string * value)) (childNodes : list Node).

(** A live node is referred to by its position under the document root. *)
Definition path : Type := list nat.

(** A JavaScript reference to a live node: [None] is [undefined]. *)
Definition ref : Type := option path.

Fixpoint node_at (n : Node) (p : path) : option Node :=
  match p with
  | [] => Some n
  | i :: p' =>
      match n with
      | Element _ _ _ cs =>
          match cs !! i with Some c => node_at c p' | None => None end
      | TextNode _ => None
      end
  end.

Fixpoint alter_at (f : Node → Node) (p : path) (n : Node) : Node :=
  match p with
  | [] => f n
  | i :: p' =>
      match n with
      | Element t a l cs => Element t a l (alter (alter_at f p') i cs)
      | TextNode _ => n
      end
  end.

Fixpoint set_assoc (k v : string) (l : list (string * string))
  : list (string * string) :=
  match l with
  | [] => [(k, v)]
  | (k', v') :: r =>
      if String.eqb k' k then (k, v) :: r else (k', v') :: set_assoc k v r
  end.

(** The effect of each mutating host call on the node it is called on.
    The elements are HTML elements of an HTML document, which keeps the
    names of their attributes in lower case; a listener that is [null] or
    [undefined] is not registered. *)
Definition set_attribute (name : string) (v : value) (n : Node) : Node :=
  match n with
  | Element t a l cs => Element t (set_assoc (toLowerCase name) (ToString v) a) l cs
  | TextNode _ => n
  end.

Definition remove_attribute (name : string) (n : Node) : Node :=
  match n with
  | Element t a l cs =>
      Element t (filter (fun kv => negb (String.eqb (fst kv) (toLowerCase name)) = true)
                        a) l cs
  | TextNode _ => n
  end.

Definition add_listener (type : string) (f : value) (n : Node) : Node :=
  match n with
  | Element t a l cs =>
      Element t a (if decide ((type, f) ∈ l) then l
                   else if is_object f then l ++ [(type, f)] else l) cs
  | TextNode _ => n
  end.

Definition remove_listener (type : string) (f : value) (n : Node) : Node :=
  match n with
  | Element t a l cs => Element t a (filter (fun e => e ≠ (type, f)) l) cs
  | TextNode _ => n
  end.

Definition append_child (c : Node) (n : Node) : Node :=
  match n with
  | Element t a l cs => Element t a l (cs ++ [c])
  | TextNode _ => n
  end.

Definition remove_child (i : nat) (n : Node) : Node :=
  match n with
  | Element t a l cs => Element t a l (delete i cs)
  | TextNode _ => n
  end.

Definition replace_child (i : nat) (c : Node) (n : Node) : Node :=
  match n with
  | Element t a l cs => Element t a l (<[i := c]> cs)
  | TextNode _ => n
  end.

Definition is_element (n : Node) : bool :=
  match n with Element _ _ _ _ => true | TextNode _ => false end.

Definition child_nodes (n : Node) : list Node :=
  match n with Element _ _ _ cs => cs | TextNode _ => [] end.

(** Induction over live nodes, through the child lists. *)
Section NodeInduction.
Variable P : Node → Prop.
Hypothesis text_case : ∀ data, P (TextNode data).
Hypothesis element_case : ∀ t a l cs, Forall P cs → P (Element t a l cs).

Fixpoint Node_nested_ind (n : Node) : P n :=
  match n with
  | TextNode data => text_case data
  | Element t a l cs =>
      element_case t a l cs
        ((fix all (k : list Node) : Forall P k :=
            match k with
            | [] => @List.Forall_nil _ P
            | x :: r => @List.Forall_cons _ P x r (Node_nested_ind x) (all r)
            end) cs)
  end.
End NodeInduction.

(** The mutating host calls, as recorded in the trace. *)
Inductive hostop : Type :=
| SetAttribute (el : path) (name : string) (v : value)
| RemoveAttribute (el : path) (name : string)
| AddEventListener (el : path) (type : string) (f : value)
| RemoveEventListener (el : path) (type : string) (f : value)
| AppendChild (parent : path) (c : Node)
| RemoveChild (parent : path) (index : nat)
| ReplaceChild (parent : path) (index : nat) (c : Node).

Record host : Type := mkHost {
  tree : Node;
  trace : list hostop
}.

(** [Error msg] is the library's own [throw new Error(msg)]; [HostError]
    stands for an exception raised by the runtime or the host (a TypeError
    on [undefined], a DOMException). *)
Inductive error : Type :=
| Error (message : string)
| HostError.

Inductive result (A : Type) : Type :=
| Ok (a : A) (s : host)
| Throw (e : error) (s : host)
| OutOfFuel.

Arguments Ok {A} a s.
Arguments Throw {A} e s.
Arguments OutOfFuel {A}.

(** Host computations: state passing with exceptions. *)
Definition M (A : Type) : Type := host → result A.

#[global] Instance M_ret : MRet M := λ A a s, Ok a s.

#[global] Instance M_bind : MBind M := λ A B f m s,
  match m s with
  | Ok a s' => f a s'
  | Throw e s' => Throw e s'
  | OutOfFuel => OutOfFuel
  end.

Definition throw {A} (e : error) : M A := λ s, Throw e s.

Definition out_of_fuel {A} : M A := λ _, OutOfFuel.

(** The effect of a mutating call on the tree. *)
Definition apply_op (op : hostop) : Node → Node :=
  match op with
  | SetAttribute el name v => alter_at (set_attribute name v) el
  | RemoveAttribute el name => alter_at (remove_attribute name) el
  | AddEventListener el type f => alter_at (add_listener type f) el
  | RemoveEventListener el type f => alter_at (remove_listener type f) el
  | AppendChild parent c => alter_at (append_child c) parent
  | RemoveChild parent i => alter_at (remove_child i) parent
  | ReplaceChild parent i c => alter_at (replace_child i c) parent
  end.

Definition perform (s : host) (op : hostop) : host :=
  mkHost (apply_op op (tree s)) (trace s ++ [op]).

(** Carry out a mutating call and record it. *)
Definition mutate (op : hostop) : M unit := λ s, Ok () (perform s op).

Definition get_node (r : ref) : M Node := λ s,
  match r with
  | None => Throw HostError s
  | Some p =>
      match node_at (tree s) p with
      | Some n => Ok n s
      | None => Throw HostError s
      end
  end.

Definition the_path (r : ref) : M path :=
  match r with
  | None => throw HostError
  | Some p => mret p
  end.

(** [parent.childNodes[index]] *)
Definition childNodes (parent : ref) (index : nat) : M ref :=
  n ← get_node parent;
  p ← the_path parent;
  mret (match child_nodes n !! index with
        | Some _ => Some (p ++ [index])
        | None => None
        end).

(** The index of [c] among the children of [p], when it is one. *)
Fixpoint child_index (p c : path) : option nat :=
  match p, c with
  | [], [i] => Some i
  | x :: p', y :: c' => if decide (x = y) then child_index p' c' else None
  | _, _ => None
  end.

(** [el.setAttribute(name, v)]: only elements have the method. *)
Definition setAttribute (el : ref) (name : string) (v : value) : M unit :=
  n ← get_node el;
  p ← the_path el;
  if is_element n then mutate (SetAttribute p name v)
  else throw HostError.

Definition removeAttribute (el : ref) (name : string) : M unit :=
  n ← get_node el;
  p ← the_path el;
  if is_element n then mutate (RemoveAttribute p name)
  else throw HostError.

(** What the host takes as an event listener: an object, or [null] or
    [undefined]; any other value is a TypeError. *)
Definition is_listener_argument (f : value) : bool := is_object f || nullish f.

(** Listener calls are accepted on every node (an event target); the tree
    keeps the listeners of elements only. *)
Definition addEventListener (el : ref) (type : string) (f : value) : M unit :=
  _ ← get_node el;
  p ← the_path el;
  if is_listener_argument f then mutate (AddEventListener p type f)
  else throw HostError.

Definition removeEventListener (el : ref) (type : string) (f : value) : M unit :=
  _ ← get_node el;
  p ← the_path el;
  if is_listener_argument f then mutate (RemoveEventListener p type f)
  else throw HostError.

Definition appendChild (parent : ref) (c : Node) : M unit :=
  n ← get_node parent;
  p ← the_path parent;
  if is_element n then mutate (AppendChild p c)
  else throw HostError.

(** [parent.removeChild(c)]: [c] must be a live child of [parent]. *)
Definition removeChild (parent : ref) (c : ref) : M unit :=
  _ ← get_node parent;
  _ ← get_node c;
  p ← the_path parent;
  cp ← the_path c;
  match child_index p cp with
  | Some i => mutate (RemoveChild p i)
  | None => throw HostError
  end.

Definition replaceChild (parent : ref) (new : Node) (c : ref) : M unit :=
  _ ← get_node parent;
  _ ← get_node c;
  p ← the_path parent;
  cp ← the_path c;
  match child_index p cp with
  | Some i => mutate (ReplaceChild p i new)
  | None => throw HostError
  end.

Definition has_id (id : string) (attrs : list (string * string)) : bool :=
  existsb (fun kv => String.eqb (fst kv) "id" && String.eqb (snd kv) id) attrs.

(** The first hit of [f] among the nodes [cs], which sit at positions [i],
    [i + 1], ... of their parent. *)
Fixpoint find_first (f : Node → option path) (cs : list Node) (i : nat)
  : option path :=
  match cs with
  | [] => None
  | c :: cs' =>
      match f c with
      | Some p => Some (i :: p)
      | None => find_first f cs' (S i)
      end
  end.

(** The first element in tree order whose [id] attribute is [id]. *)
Fixpoint find_id (id : string) (n : Node) : option path :=
  match n with
  | TextNode _ => None
  | Element _ attrs _ cs =>
      if has_id id attrs then Some [] else find_first (find_id id) cs 0
  end.

(** [document.getElementById(id)]; the empty string names no element. *)
Definition getElementById (id : string) : M ref := λ s,
  Ok (if String.eqb id "" then None else find_id id (tree s)) s.

(** ** [render] *)

(** The event name of an [on...] key: [key.slice(2).toLowerCase()]. *)
Definition event_name (key : string) : string := toLowerCase (slice 2 key).

(** [render] builds a detached subtree; nothing live is touched until the
    caller inserts the result. *)
Fixpoint render (vnode : VNode) : Node :=
  match vnode with
  | mkVNode type props children =>
      let el := Element type [] [] [] in
      let el :=
        foldl (fun el kv =>
                 if startsWith "on" (fst kv) && is_function (snd kv)
                 then add_listener (event_name (fst kv)) (snd kv) el
                 else set_attribute (fst kv) (snd kv) el)
              el (default [] props) in
      foldl (fun el c =>
               append_child (match c with
                             | CText s => TextNode s
                             | CNode v => render v
                             end) el)
            el children
  end.

(** The live node [render] makes for one child. *)
Definition render_child (c : child) : Node :=
  match c with
  | CText s => TextNode s
  | CNode v => render v
  end.

(** [render(v)] where [v] may be [undefined]: reading [vnode.type] throws. *)
Definition render_ref (v : option VNode) : M Node :=
  match v with
  | Some v => mret (render v)
  | None => throw HostError
  end.

(** ** [mount] *)

Definition not_found_message (container : string) : string :=
  "cannot find ID: " +:+ container.

Definition mount (vnode : VNode) (container : string) : M unit :=
  root ← getElementById container;
  match root with
  | None => throw (Error (not_found_message container))
  | Some _ => appendChild root (render vnode)
  end.

(** ** [updateProps] *)

(** [for (const x of l) body(x)] *)
Fixpoint for_each {A} (l : list A) (body : A → M unit) : M unit :=
  match l with
  | [] => mret ()
  | x :: r => body x;; for_each r body
  end.

(** [for (let i = start; i < start + n; i++) body(i)] *)
Fixpoint for_range (n : nat) (start : nat) (body : nat → M unit) : M unit :=
  match n with
  | 0 => mret ()
  | S n' => body start;; for_range n' (S start) body
  end.

(** The first loop's body, for one key of the new mapping. *)
Definition set_prop (el : ref) (newProps oldProps : PropType) (key : string)
  : M unit :=
  if loose_ne (prop_get newProps key) (prop_get oldProps key) then
    if startsWith "on" key && is_function (prop_get newProps key) then
      (if truthy (prop_get oldProps key)
       then removeEventListener el (event_name key) (prop_get oldProps key)
       else mret ());;
      addEventListener el (event_name key) (prop_get newProps key)
    else setAttribute el key (prop_get newProps key)
  else mret ().

(** The second loop's body, for one key of the old mapping. *)
Definition drop_prop (el : ref) (newProps oldProps : PropType) (key : string)
  : M unit :=
  if negb (prop_has newProps key) then
    if startsWith "on" key && is_function (prop_get oldProps key) then
      removeEventListener el (event_name key) (prop_get oldProps key)
    else removeAttribute el key
  else mret ().

Definition updateProps (el : ref) (newProps oldProps : option PropType)
  : M unit :=
  let newProps := default [] newProps in
  let oldProps := default [] oldProps in
  for_each newProps (fun kv => set_prop el newProps oldProps (fst kv));;
  for_each oldProps (fun kv => drop_prop el newProps oldProps (fst kv)).

(** ** [patch] *)

(** [typeof c === 'string'] for an array entry that may be out of range. *)
Definition is_text (c : option child) : bool :=
  match c with Some (CText _) => true | _ => false end.

(** The string form of a plain object such as a virtual node. *)
Definition object_string : string := "[object Object]".

(** [a == b] where at least one side is a string: [undefined] equals no
    string, and a node is compared through its string form. Two nodes
    would compare by identity, which the model does not track; [patch]
    never compares two nodes. *)
Definition child_loose_eq (a b : option child) : bool :=
  match a, b with
  | None, None => true
  | Some (CText s), Some (CText t) => String.eqb s t
  | Some (CText s), Some (CNode _) | Some (CNode _), Some (CText s) =>
      String.eqb s object_string
  | _, _ => false
  end.

(** [c as VNode] for an entry that is not a string. *)
Definition as_vnode (c : option child) : option VNode :=
  match c with Some (CNode v) => Some v | _ => None end.

Fixpoint height (v : VNode) : nat :=
  match v with
  | mkVNode _ _ cs =>
      foldr (fun c acc =>
               match c with
               | CText _ => acc
               | CNode v' => Nat.max (S (height v')) acc
               end) 0 cs
  end.

(** One round of the loop over the child positions; [patch] is the
    recursive call. *)
Definition patch_child (patch : ref → option VNode → option VNode → nat → M unit)
  (currentEl : ref) (newChildren oldChildren : list child) (i : nat) : M unit :=
  if is_text (newChildren !! i) || is_text (oldChildren !! i) then
    if negb (child_loose_eq (newChildren !! i) (oldChildren !! i)) then
      _ ← get_node currentEl;
      n ← match newChildren !! i with
          | Some (CText s) => mret (TextNode s)
          | c => render_ref (as_vnode c)
          end;
      c ← childNodes currentEl i;
      replaceChild currentEl n c
    else mret ()
  else
    patch currentEl (as_vnode (newChildren !! i)) (as_vnode (oldChildren !! i)) i.

(** The body of [patch]; [fuel] bounds the depth of the recursion. *)
Fixpoint patch_rec (fuel : nat) (parent : ref) (newNode oldNode : option VNode)
  (index : nat) : M unit :=
  match fuel with
  | 0 => out_of_fuel
  | S fuel =>
      currentEl ← childNodes parent index;
      match oldNode with
      | None => n ← render_ref newNode; appendChild parent n
      | Some old =>
          match newNode with
          | None => removeChild parent currentEl
          | Some new =>
              if negb (String.eqb (type new) (type old)) then
                replaceChild parent (render new) currentEl
              else
                updateProps currentEl (props new) (props old);;
                let newChildren := children new in
                let oldChildren := children old in
                let max := Nat.max (length newChildren) (length oldChildren) in
                for_range max 0
                  (patch_child (patch_rec fuel) currentEl newChildren oldChildren)
          end
      end
  end.

(** The recursion descends one level of [newNode] per call, and one more
    call handles an absent new child. *)
Definition patch_fuel (newNode : option VNode) : nat :=
  match newNode with
  | Some v => 2 + height v
  | None => 1
  end.

Definition patch (parent : ref) (newNode oldNode : option VNode) (index : nat)
  : M unit :=
  patch_rec (patch_fuel newNode) parent newNode oldNode index.

(** ** The reactivity engine *)

(** Target objects and effect closures are referred to by identity. *)
Definition objid : Type := nat.
Definition fnid : Type := nat.

(** A plain target object: its own properties, and whether it is frozen
    (the case in which [Reflect.set] reports failure). *)
Record object : Type := mkObject {
  fields : gmap string value;
  frozen : bool
}.

(** What a callback passed to [effect] may do with the library: read or
    write a property of a reactive proxy, register a nested effect, call the
    exported [track] and [trigger], or throw. *)
Inductive action : Type :=
| Read (target : objid) (key : string)
| Write (target : objid) (key : string) (v : value)
| CallEffect (fn : list action)
| CallTrack (target : objid) (key : string)
| CallTrigger (target : objid) (key : string)
| ThrowStmt.

(** The module-level state: [activeEffect] and [typeDependencyMap] (a
    [Set] is its elements in insertion order), the target objects, the
    closures [effectFn] created so far with the callback each one wraps, and
    the history of [effectFn] invocations. *)
Record store : Type := mkStore {
  activeEffect : option fnid;
  typeDependencyMap : gmap objid (gmap string (list fnid));
  heap : gmap objid object;
  closures : list (list action);
  calls : list fnid
}.

Definition init_store : store := mkStore None ∅ ∅ [] [].

Definition with_activeEffect (a : option fnid) (s : store) : store :=
  mkStore a (typeDependencyMap s) (heap s) (closures s) (calls s).

Definition with_typeDependencyMap
  (m : gmap objid (gmap string (list fnid))) (s : store) : store :=
  mkStore (activeEffect s) m (heap s) (closures s) (calls s).

Definition with_heap (hp : gmap objid object) (s : store) : store :=
  mkStore (activeEffect s) (typeDependencyMap s) hp (closures s) (calls s).

Definition with_closures (c : list (list action)) (s : store) : store :=
  mkStore (activeEffect s) (typeDependencyMap s) (heap s) c (calls s).

Definition with_calls (c : list fnid) (s : store) : store :=
  mkStore (activeEffect s) (typeDependencyMap s) (heap s) (closures s) c.

Inductive outcome (A : Type) : Type :=
| Returns (a : A) (s : store)
| Throws (s : store)
| Timeout.

Arguments Returns {A} a s.
Arguments Throws {A} s.
Arguments Timeout {A}.

(** Engine computations: the store is threaded, an exception aborts. *)
Definition R (A : Type) : Type := store → outcome A.

#[global] Instance R_ret : MRet R := λ A a s, Returns a s.

#[global] Instance R_bind : MBind R := λ A B f m s,
  match m s with
  | Returns a s' => f a s'
  | Throws s' => Throws s'
  | Timeout => Timeout
  end.

Definition throw_exn {A} : R A := λ s, Throws s.

Definition timeout {A} : R A := λ _, Timeout.

Definition modify (f : store → store) : R unit := λ s, Returns () (f s).

(** [Set.prototype.add] *)
Definition set_add (e : fnid) (l : list fnid) : list fnid :=
  if decide (e ∈ l) then l else l ++ [e].

(** The subscriber set of [(target, key)], empty when there is none. *)
Definition subscribers (s : store) (target : objid) (key : string) : list fnid :=
  match typeDependencyMap s !! target with
  | Some depMap => default [] (depMap !! key)
  | None => []
  end.

Definition track (target : objid) (key : string) : R unit := λ s,
  match activeEffect s with
  | None => Returns () s
  | Some e =>
      let depMap := default ∅ (typeDependencyMap s !! target) in
      let depSet := default [] (depMap !! key) in
      Returns ()
        (with_typeDependencyMap
           (<[target := <[key := set_add e depSet]> depMap]> (typeDependencyMap s)) s)
  end.

(** [effect.forEach(effectFn => effectFn())] from position [i] on: the set
    is read afresh at every step, so an entry added during the iteration is
    visited too. [n] bounds the number of steps. *)
Fixpoint forEach_with (effectFn : fnid → R unit) (n : nat)
  (target : objid) (key : string) (i : nat) : R unit :=
  match n with
  | 0 => timeout
  | S n' => λ s,
      match subscribers s target key !! i with
      | None => Returns () s
      | Some e => (effectFn e;; forEach_with effectFn n' target key (S i)) s
      end
  end.

Definition trigger_with (effectFn : fnid → R unit) (n : nat)
  (target : objid) (key : string) : R unit := λ s,
  match typeDependencyMap s !! target with
  | None => Returns () s
  | Some depMap =>
      match depMap !! key with
      | None => Returns () s
      | Some _ => forEach_with effectFn n target key 0 s
      end
  end.

Definition the_object (s : store) (target : objid) : object :=
  default (mkObject ∅ false) (heap s !! target).

(** [ob[key]] for a target object: the own property, else the inherited
    one, else [undefined]. *)
Definition field_get (ob : object) (key : string) : value :=
  match fields ob !! key with
  | Some v => v
  | None => default VUndefined (inherited key)
  end.

(** [Reflect.get(target, key, receiver)] *)
Definition Reflect_get (target : objid) (key : string) : R value := λ s,
  Returns (field_get (the_object s target) key) s.

(** [Reflect.set(target, key, value, receiver)]: the own data property is
    made or updated, and a frozen object refuses the write. *)
Definition Reflect_set (target : objid) (key : string) (v : value) : R bool :=
  λ s,
  let ob := the_object s target in
  if frozen ob then Returns false s
  else Returns true
         (with_heap (<[target := mkObject (<[key := v]> (fields ob)) false]> (heap s)) s).

(** The two traps of the proxy [reactive] returns. *)
Record Proxy : Type := mkProxy {
  get : string → R value;
  set : string → value → R bool
}.

Definition reactive_with (trigger : objid → string → R unit) (target : objid)
  : Proxy :=
  {| get := λ key, track target key;; Reflect_get target key;
     set := λ key v,
       result ← Reflect_set target key v;
       (if result : bool then trigger target key else mret ());;
       mret result |}.

(** [const effectFn = ...; effectFn()] *)
Definition effect_with (effectFn : fnid → R unit) (fn : list action) : R unit :=
  λ s,
  effectFn (length (closures s)) (with_closures (closures s ++ [fn]) s).

Fixpoint run_with (exec : action → R unit) (body : list action) : R unit :=
  match body with
  | [] => mret ()
  | a :: rest => exec a;; run_with exec rest
  end.

(** [exec] runs one statement of a callback, [effectFn] is the closure
    [effect] creates. [fuel] bounds the nesting of calls. An assignment
    through the proxy is in strict code, so a failed write throws. *)
Fixpoint exec (fuel : nat) (a : action) {struct fuel} : R unit :=
  match fuel with
  | 0 => timeout
  | S n =>
      match a with
      | Read target key =>
          _ ← get (reactive_with (trigger_with (effectFn n) n) target) key;
          mret ()
      | Write target key v =>
          result ← set (reactive_with (trigger_with (effectFn n) n) target) key v;
          if result : bool then mret () else throw_exn
      | CallEffect fn => effect_with (effectFn n) fn
      | CallTrack target key => track target key
      | CallTrigger target key => trigger_with (effectFn n) n target key
      | ThrowStmt => throw_exn
      end
  end
with effectFn (fuel : nat) (self : fnid) {struct fuel} : R unit :=
  match fuel with
  | 0 => timeout
  | S n => λ s,
      match closures s !! self with
      | None => Throws s
      | Some fn =>
          (modify (with_activeEffect (Some self));;
           modify (λ s, with_calls (calls s ++ [self]) s);;
           run_with (exec n) fn;;
           modify (with_activeEffect None)) s
      end
  end.

Definition trigger (fuel : nat) (target : objid) (key : string) : R unit :=
  trigger_with (effectFn fuel) fuel target key.

Definition effect (fuel : nat) (fn : list action) : R unit :=
  effect_with (effectFn fuel) fn.

Definition reactive (fuel : nat) (target : objid) : Proxy :=
  reactive_with (trigger fuel) target.

Definition run (fuel : nat) (body : list action) : R unit :=
  run_with (exec fuel) body.

(** ** The notions of the specification *)

(** The fully flattened sequence of an argument, with [null] and
    [undefined] removed, in order. *)
Fixpoint leaves (a : harg) : list child :=
  match a with
  | HNode v => [CNode v]
  | HText s => [CText s]
  | HNull | HUndefined => []
  | HArr items => flat_map leaves items
  end.

Definition flattened (args : list harg) : list child := flat_map leaves args.

(** No attribute value of the tree is NaN. *)
Definition is_nan (v : value) : bool :=
  match v with VNum NaN => true | _ => false end.

Definition props_nan_free (ps : option PropType) : bool :=
  forallb (λ kv, negb (is_nan (snd kv))) (default [] ps).

Fixpoint nan_free (v : VNode) : bool :=
  match v with
  | mkVNode _ ps cs =>
      props_nan_free ps
      && forallb (λ c, match c with CText _ => true | CNode v' => nan_free v' end) cs
  end.

(** A key bound as a listener: event-prefixed, with a callable value. *)
Definition is_listener (key : string) (v : value) : bool :=
  startsWith "on" key && is_function v.

(** The value a mapping holds for [key], [undefined] when it holds none. *)
Definition own_value (ps : PropType) (key : string) : value :=
  default VUndefined (own_get ps key).

(** The minimal attribute diff, read off the two mappings as they are
    written, without what they inherit. A key of the new mapping whose value
    differs from the old one is set: an event-prefixed key with a callable
    new value has the old listener removed, if the old value was bound as
    one, and the new one added; any other key has its attribute set. A key
    that only the old mapping has gets its listener, if it was bound as
    one, or else its attribute removed. Keys with equal values contribute
    nothing. *)
Definition set_ops (el : path) (new old : PropType) (key : string) : list hostop :=
  let v := own_value new key in
  let w := own_value old key in
  if is_listener key v then
    (if is_listener key w then [RemoveEventListener el (event_name key) w] else [])
    ++ [AddEventListener el (event_name key) v]
  else [SetAttribute el key v].

Definition remove_ops (el : path) (old : PropType) (key : string) : list hostop :=
  let w := own_value old key in
  if is_listener key w then [RemoveEventListener el (event_name key) w]
  else [RemoveAttribute el key].

(** The keys of the new mapping whose value differs from the old one's. *)
Definition changed_keys (new old : PropType) : list string :=
  filter (λ key, loose_eq (own_value new key) (own_value old key) = false) new.*1.

(** The keys that only the old mapping has. *)
Definition dropped_keys (new old : PropType) : list string :=
  filter (λ key, key ∉ new.*1) old.*1.

Definition minimal_ops (el : path) (new old : PropType) : list hostop :=
  (changed_keys new old ≫= set_ops el new old)
  ++ (dropped_keys new old ≫= remove_ops el old).

(** No key of the mapping is the name of a member of [Object.prototype]. *)
Definition ordinary_keys (ps : PropType) : bool :=
  forallb (λ kv, match inherited kv.1 with None => true | Some _ => false end) ps.

(** Where an event-prefixed key has a callable new value that differs from
    the old one, the old value is callable or falsy. *)
Definition old_listeners_callable (new old : PropType) : bool :=
  forallb (λ key,
             implb (is_listener key (own_value new key)
                    && loose_ne (own_value new key) (own_value old key)
                    && truthy (own_value old key))
                   (is_function (own_value old key)))
          new.*1.


(** ** Notions used in the proofs *)

(** The live node at [p] is an element. *)
Definition element_at (p : path) (s : host) : Prop :=
  ∃ n, node_at (tree s) p = Some n ∧ is_element n = true.

(** A call on the attributes or listeners of the element at [p]. *)
Definition on_element (p : path) (op : hostop) : Prop :=
  match op with
  | SetAttribute q _ _ | RemoveAttribute q _
  | AddEventListener q _ _ | RemoveEventListener q _ _ => q = p
  | _ => False
  end.

(** A call that touches attributes or listeners only, on whatever element. *)
Definition attr_op (op : hostop) : Prop :=
  match op with
  | SetAttribute _ _ _ | RemoveAttribute _ _
  | AddEventListener _ _ _ | RemoveEventListener _ _ _ => True
  | _ => False
  end.

(** The shape of a live tree: its nodes without attributes and listeners. *)
Fixpoint skeleton (n : Node) : Node :=
  match n with
  | TextNode d => TextNode d
  | Element t _ _ cs => Element t [] [] (skeleton <$> cs)
  end.

(** Attribute calls only, and no call at all when [b] holds. *)
Definition silent_ops (b : bool) (ops : list hostop) : Prop :=
  Forall attr_op ops ∧ (b = true → ops = []).

(** The calls the first loop of [updateProps] makes for one key of the new
    mapping, and the second loop for one key of the old mapping. *)
Definition issued_set (el : path) (new old : PropType) (key : string)
  : list hostop :=
  if loose_ne (prop_get new key) (prop_get old key) then
    if is_listener key (prop_get new key) then
      (if truthy (prop_get old key)
       then [RemoveEventListener el (event_name key) (prop_get old key)] else [])
      ++ [AddEventListener el (event_name key) (prop_get new key)]
    else [SetAttribute el key (prop_get new key)]
  else [].

Definition issued_drop (el : path) (new old : PropType) (key : string)
  : list hostop :=
  if negb (prop_has new key) then
    if is_listener key (prop_get old key)
    then [RemoveEventListener el (event_name key) (prop_get old key)]
    else [RemoveAttribute el key]
  else [].

Definition issued_ops (el : path) (new old : PropType) : list hostop :=
  (new.*1 ≫= issued_set el new old) ++ (old.*1 ≫= issued_drop el new old).

(** The first loop hands the host, for [key], no old value to remove as a
    listener that the host refuses. *)
Definition removable (new old : PropType) (key : string) : bool :=
  implb (loose_ne (prop_get new key) (prop_get old key)
         && is_listener key (prop_get new key) && truthy (prop_get old key))
        (is_object (prop_get old key)).

Definition removals_accepted (new old : PropType) : bool :=
  forallb (removable new old) new.*1.

(** The ways a host computation can fail. *)
Inductive failure : Type :=
| LibraryError (message : string)
| RuntimeError
| FuelExhausted.

Definition failure_of {A} (r : result A) : option failure :=
  match r with
  | Ok _ _ => None
  | Throw (Error message) _ => Some (LibraryError message)
  | Throw HostError _ => Some RuntimeError
  | OutOfFuel => Some FuelExhausted
  end.

(** A computation none of whose failures is among [F]. *)
Definition avoids (F : failure → Prop) {A} (m : M A) : Prop :=
  ∀ s f, failure_of (m s) = Some f → ¬ F f.

(** A computation that never ends in an error thrown by the library
    itself: whatever it throws was raised by the runtime or the host. *)
Definition raises_no_Error {A} (m : M A) : Prop :=
  avoids (λ f, ∃ message, f = LibraryError message) m.

(** A computation that never runs out of fuel. *)
Definition terminates {A} (m : M A) : Prop :=
  avoids (λ f, f = FuelExhausted) m.

(** Every subscriber set holds each closure at most once. *)
Definition dep_sets_nodup (s : store) : Prop :=
  ∀ target key, NoDup (subscribers s target key).

Definition is_read (a : action) : bool :=
  match a with Read _ _ => true | _ => false end.

(** The subscribers of [(target, key)] are closures whose callbacks only
    read reactive properties. *)
Definition readers (s : store) (target : objid) (key : string) : Prop :=
  ∀ e, e ∈ subscribers s target key →
       ∃ fn, closures s !! e = Some fn ∧ forallb is_read fn = true.

(** The store after the underlying write of [v] to [target[key]]. *)
Definition written (target : objid) (key : string) (v : value) (s : store) : store :=
  with_heap
    (<[target := mkObject (<[key := v]> (fields (the_object s target))) false]> (heap s))
    s.

(** A computation that keeps [dep_sets_nodup], however it ends. *)
Definition keeps_nodup {A} (m : R A) : Prop :=
  ∀ s, dep_sets_nodup s →
       match m s with
       | Returns _ s' | Throws s' => dep_sets_nodup s'
       | Timeout => True
       end.

(** A computation that, when it returns, leaves no active subscriber. *)
Definition returns_inactive (m : R unit) : Prop :=
  ∀ s s', m s = Returns () s' → activeEffect s' = None.

(** A computation that, started with no active subscriber, returns with
    none. *)
Definition keeps_inactive {A} (m : R A) : Prop :=
  ∀ s a s', activeEffect s = None → m s = Returns a s' → activeEffect s' = None.

(** ** Worked examples *)

Definition num (z : Z) : value := VNum (Int z).


Definition ex_X : VNode := mkVNode "li" (Some [("key", num 1)]) [CText "one"].
Definition ex_Y : VNode := mkVNode "li" (Some [("key", num 2)]) [CText "two"].
Definition ex_Z : VNode := mkVNode "li" (Some [("key", num 3)]) [CText "three"].

Definition ex_list2 : VNode := mkVNode "ul" None [CNode ex_X; CNode ex_Y].
Definition ex_list3 : VNode := mkVNode "ul" None [CNode ex_X; CNode ex_Y; CNode ex_Z].

(** A node with an attribute whose value is NaN. *)
Definition ex_nan : VNode := mkVNode "div" (Some [("a", VNum NaN)]) [].

(** A document whose container [#root], at position [[0]], holds the
    subtree rendered from [v]. *)
Definition ex_document (v : VNode) : host :=
  mkHost (Element "body" [] []
            [Element "div" [("id", "root")] [] [render v]]) [].


(** A document with an empty container [#root]. *)
Definition ex_empty_document : host :=
  mkHost (Element "body" [] [] [Element "div" [("id", "root")] [] []]) [].

(** A store with one target object, [{count: 0}]. *)
Definition ex_counter : store :=
  with_heap {[ 0 := mkObject {[ "count" := num 0 ]} false ]} init_store.

(** The same store after [effect(() => { state.count })]. *)
Definition ex_subscribed : store :=
  match effect 3 [Read 0 "count"] ex_counter with
  | Returns _ s => s
  | _ => ex_counter
  end.

(** The store in the middle of an outer effect, closure 0, whose callback
    is about to register a nested effect and then read [state.count]. *)
Definition ex_outer_running : store :=
  with_activeEffect (Some 0)
    (with_closures [[CallEffect []; Read 0 "count"]] ex_counter).

(** ** Further notions *)

Definition attributes_of (n : Node) : list (string * string) :=
  match n with Element _ a _ _ => a | TextNode _ => [] end.

Definition listeners_of (n : Node) : list (string * value) :=
  match n with Element _ _ l _ => l | TextNode _ => [] end.

(** The attributes a mapping asks for: its keys that are not bound as
    listeners, each in lower case with the string form of its value. *)
Definition plain_attributes (ps : PropType) : list (string * string) :=
  (λ kv, (toLowerCase kv.1, ToString kv.2))
    <$> filter (λ kv, is_listener kv.1 kv.2 = false) ps.

(** The listeners a mapping asks for: its event-prefixed keys with a
    callable value, each under its event name. *)
Definition bound_listeners (ps : PropType) : list (string * value) :=
  (λ kv, (event_name kv.1, kv.2)) <$> filter (λ kv, is_listener kv.1 kv.2 = true) ps.

(** The value the element keeps under the name [name], if any. *)
Fixpoint attribute_named (a : list (string * string)) (name : string) : option string :=
  match a with
  | [] => None
  | (k, v) :: r => if String.eqb k name then Some v else attribute_named r name
  end.

(** [el.getAttribute(name)]: the name is looked up in lower case; [None]
    is [null]. *)
Definition get_attribute (a : list (string * string)) (name : string)
  : option string :=
  attribute_named a (toLowerCase name).

(** The names of the mapping's keys are in lower case. *)
Definition lower_case_keys (ps : PropType) : bool :=
  forallb (λ kv, String.eqb (toLowerCase kv.1) kv.1) ps.

Definition string_valued (ps : PropType) : bool :=
  forallb (λ kv, is_string kv.2) ps.

(** What an attribute or listener call does to the element it is called on. *)
Definition local_op (op : hostop) : Node → Node :=
  match op with
  | SetAttribute _ name v => set_attribute name v
  | RemoveAttribute _ name => remove_attribute name
  | AddEventListener _ type f => add_listener type f
  | RemoveEventListener _ type f => remove_listener type f
  | _ => id
  end.

(** The node a mutating call is made on. *)
Definition target_of (op : hostop) : path :=
  match op with
  | SetAttribute el _ _ | RemoveAttribute el _
  | AddEventListener el _ _ | RemoveEventListener el _ _ => el
  | AppendChild parent _ | RemoveChild parent _ | ReplaceChild parent _ _ => parent
  end.

(** Calls made on [p] or on nodes below it. *)
Definition below (p : path) (ops : list hostop) : Prop :=
  Forall (λ op, p `prefix_of` target_of op) ops.

(** A reference that is to [p] or to a node below it, if it is to a node
    at all. *)
Definition ref_below (p : path) (r : ref) : Prop :=
  match r with
  | Some q => p `prefix_of` q
  | None => True
  end.

(** Whatever [m] does to the document, however it ends, it does by calls
    on [p] or below it; a value it returns satisfies [Q]. *)
Definition confined (p : path) {A} (Q : A → Prop) (m : M A) : Prop :=
  ∀ s, match m s with
       | Ok a s' => Q a ∧ ∃ ops, below p ops ∧ s' = foldl perform s ops
       | Throw _ s' => ∃ ops, below p ops ∧ s' = foldl perform s ops
       | OutOfFuel => True
       end.

(** The callback has a statement that reads [target[key]]. *)
Definition reads (fn : list action) (target : objid) (key : string) : bool :=
  existsb (λ a, match a with
                | Read t k => (t =? target)%nat && String.eqb k key
                | _ => false
                end) fn.

(** The callback reads reactive properties and then throws. *)
Definition reads_then_throws (fn : list action) : Prop :=
  ∃ before rest, fn = before ++ ThrowStmt :: rest ∧ forallb is_read before = true.

(** [m] relates the store it ends in, however it ends, to the one it
    started in. *)
Definition steps (Rel : store → store → Prop) {A} (m : R A) : Prop :=
  ∀ s, match m s with
       | Returns _ s' | Throws s' => Rel s s'
       | Timeout => True
       end.

(** The second store extends the first: every subscriber set, the list of
    closures and the history of invocations have only been added to at the
    end. *)
Definition grows (s s' : store) : Prop :=
  closures s `prefix_of` closures s'
  ∧ calls s `prefix_of` calls s'
  ∧ ∀ target key, subscribers s target key `prefix_of` subscribers s' target key.

(** The active subscriber and all recorded subscribers are closures that
    [effect] created. *)
Definition registered (s : store) : Prop :=
  (∀ e, activeEffect s = Some e → e < length (closures s))
  ∧ ∀ target key e, e ∈ subscribers s target key → e < length (closures s).

(** A store in which [(0, "count")] has two subscribers, the first of
    which throws. *)
Definition ex_throwing_first : store :=
  mkStore None {[ 0 := {[ "count" := [0; 1] ]} ]} ∅
          [[ThrowStmt]; [Read 0 "count"]] [].

(** The call by which [render] puts one entry of a mapping on an element. *)
Definition prop_op (el : path) (kv : string * value) : hostop :=
  if is_listener kv.1 kv.2 then AddEventListener el (event_name kv.1) kv.2
  else SetAttribute el kv.1 kv.2.

(** * Properties *)

(** ** The flatten law of [h] *)

Lemma flat_item_no_array (a : harg) :
  Forall (λ x, ∀ items, x ≠ HArr items) (flat_item a).
Proof.
  induction a as [v|s| | |items IH] using harg_nested_ind; simpl;
    try (by repeat constructor).
  induction IH as [|x r Hx _ IHr]; simpl; [constructor|].
  by apply Forall_app.
Qed.

Lemma leaves_flat_item (a : harg) :
  omap as_child (filter (λ c, not_nullish c = true) (flat_item a)) = leaves a.
Proof.
  induction a as [v|s| | |items IH] using harg_nested_ind; simpl; try done.
  induction IH as [|x r Hx _ IHr]; simpl; [done|].
  by rewrite filter_app, omap_app, Hx, IHr.
Qed.

Lemma leaves_flat_infinity (args : list harg) :
  omap as_child (filter (λ c, not_nullish c = true) (flat_infinity args))
  = flattened args.
Proof.
  unfold flat_infinity, flattened.
  induction args as [|a args IH]; simpl; [done|].
  by rewrite filter_app, omap_app, leaves_flat_item, IH.
Qed.

(** The typed view drops nothing: a kept entry is a node or a string. *)
Lemma kept_entries_are_children (l : list harg) :
  Forall (λ x, ∀ items, x ≠ HArr items) l →
  of_child <$> omap as_child (filter (λ c, not_nullish c = true) l)
  = filter (λ c, not_nullish c = true) l.
Proof.
  induction 1 as [|x r Hx _ IH]; simpl; [done|].
  destruct x as [v|s| | |items]; simpl.
  - rewrite filter_cons_True by done. cbn. f_equal. exact IH.
  - rewrite filter_cons_True by done. cbn. f_equal. exact IH.
  - rewrite filter_cons_False by done. exact IH.
  - rewrite filter_cons_False by done. exact IH.
  - by destruct (Hx items).
Qed.

Lemma flat_infinity_no_array (args : list harg) :
  Forall (λ x, ∀ items, x ≠ HArr items) (flat_infinity args).
Proof.
  unfold flat_infinity. induction args as [|a args IH]; simpl; [constructor|].
  apply Forall_app. split; [apply flat_item_no_array | exact IH].
Qed.

(** C3: [h type props children] is the node with the given tag and
    attributes whose [children] is the fully flattened argument sequence
    with every [null] and [undefined] removed, in order; the entries the
    code keeps after [flat(Infinity)] and the filter are exactly these. [h]
    takes and returns values only: it has no access to the host. *)
Theorem h_flatten_law (type : string) (props : option PropType) (args : list harg) :
  h type props args = mkVNode type props (flattened args)
  ∧ of_child <$> children (h type props args)
    = filter (λ c, not_nullish c = true) (flat_infinity args).
Proof.
  unfold h. split.
  - by rewrite leaves_flat_infinity.
  - simpl. apply kept_entries_are_children, flat_infinity_no_array.
Qed.

(** ** The host monad *)

Lemma bind_Ok {A B} (m : M A) (f : A → M B) (s s' : host) (a : A) :
  m s = Ok a s' → (m ≫= f) s = f a s'.
Proof. unfold mbind, M_bind. by intros ->. Qed.

Lemma node_at_app (t : Node) (p q : path) :
  node_at t (p ++ q) = node_at t p ≫= λ n, node_at n q.
Proof.
  revert t. induction p as [|i p IH]; intros t; simpl; [done|].
  destruct t as [|tag a l cs]; simpl; [done|].
  destruct (cs !! i) as [c|]; simpl; [apply IH|done].
Qed.

Lemma node_at_child (t : Node) (p : path) (i : nat) (c : Node) :
  node_at t (p ++ [i]) = Some c ↔
  ∃ n, node_at t p = Some n ∧ child_nodes n !! i = Some c.
Proof.
  rewrite node_at_app. destruct (node_at t p) as [n|]; simpl.
  - destruct n as [|tag a l cs]; simpl.
    + split; [done|]. by intros (n & [= <-] & ?).
    + destruct (cs !! i) as [c'|] eqn:E; simpl.
      * split; [intros [= <-]; eauto|]. intros (n & [= <-] & H). simpl in H. congruence.
      * split; [done|]. intros (n & [= <-] & H). simpl in H. congruence.
  - split; [done|]. by intros (n & ? & ?).
Qed.

Lemma node_at_alter_at (f : Node → Node) (t : Node) (p : path) :
  node_at (alter_at f p t) p = f <$> node_at t p.
Proof.
  revert t. induction p as [|i p IH]; intros t; simpl; [done|].
  destruct t as [|tag a l cs]; simpl; [done|].
  rewrite list_lookup_alter_eq. destruct (cs !! i) as [c|]; simpl; [apply IH|done].
Qed.

Lemma get_node_live (p : path) (s : host) (n : Node) :
  node_at (tree s) p = Some n → get_node (Some p) s = Ok n s.
Proof. unfold get_node. by intros ->. Qed.

Lemma childNodes_live (p : path) (i : nat) (s : host) (n : Node) :
  node_at (tree s) p = Some n →
  childNodes (Some p) i s
  = Ok (match child_nodes n !! i with Some _ => Some (p ++ [i]) | None => None end) s.
Proof.
  intros H. unfold childNodes.
  rewrite (bind_Ok _ _ _ _ _ (get_node_live _ _ _ H)). done.
Qed.

Lemma child_index_snoc (p : path) (i : nat) : child_index p (p ++ [i]) = Some i.
Proof.
  induction p as [|x p IH]; simpl; [done|].
  by rewrite decide_True.
Qed.

Lemma element_at_perform (p : path) (s : host) (op : hostop) :
  on_element p op → element_at p s → element_at p (perform s op).
Proof.
  intros Hop (n & Hn & He). unfold element_at, perform; simpl.
  destruct op; simpl in Hop; try done; subst; simpl;
    rewrite node_at_alter_at, Hn; simpl;
    eexists; (split; [done|]); by destruct n.
Qed.

Lemma setAttribute_live (p : path) (name : string) (v : value) (s : host) :
  element_at p s →
  setAttribute (Some p) name v s = Ok () (perform s (SetAttribute p name v)).
Proof.
  intros (n & Hn & He). unfold setAttribute.
  rewrite (bind_Ok _ _ _ _ _ (get_node_live _ _ _ Hn)). simpl.
  unfold mbind, M_bind; simpl. by rewrite He.
Qed.

Lemma removeAttribute_live (p : path) (name : string) (s : host) :
  element_at p s →
  removeAttribute (Some p) name s = Ok () (perform s (RemoveAttribute p name)).
Proof.
  intros (n & Hn & He). unfold removeAttribute.
  rewrite (bind_Ok _ _ _ _ _ (get_node_live _ _ _ Hn)). simpl.
  unfold mbind, M_bind; simpl. by rewrite He.
Qed.

Lemma is_function_object (v : value) : is_function v = true → is_object v = true.
Proof. by destruct v. Qed.

Lemma addEventListener_live (p : path) (type : string) (f : value) (s : host) :
  element_at p s → is_object f = true →
  addEventListener (Some p) type f s = Ok () (perform s (AddEventListener p type f)).
Proof.
  intros (n & Hn & He) Hf. unfold addEventListener, is_listener_argument.
  rewrite (bind_Ok _ _ _ _ _ (get_node_live _ _ _ Hn)).
  unfold mbind, M_bind; simpl. by rewrite Hf.
Qed.

Lemma removeEventListener_live (p : path) (type : string) (f : value) (s : host) :
  element_at p s → is_object f = true →
  removeEventListener (Some p) type f s
  = Ok () (perform s (RemoveEventListener p type f)).
Proof.
  intros (n & Hn & He) Hf. unfold removeEventListener, is_listener_argument.
  rewrite (bind_Ok _ _ _ _ _ (get_node_live _ _ _ Hn)).
  unfold mbind, M_bind; simpl. by rewrite Hf.
Qed.

Lemma appendChild_live (p : path) (c : Node) (s : host) :
  element_at p s →
  appendChild (Some p) c s = Ok () (perform s (AppendChild p c)).
Proof.
  intros (n & Hn & He). unfold appendChild.
  rewrite (bind_Ok _ _ _ _ _ (get_node_live _ _ _ Hn)). simpl.
  unfold mbind, M_bind; simpl. by rewrite He.
Qed.

Lemma removeChild_live (p : path) (i : nat) (s : host) (c : Node) :
  node_at (tree s) (p ++ [i]) = Some c →
  removeChild (Some p) (Some (p ++ [i])) s = Ok () (perform s (RemoveChild p i)).
Proof.
  intros Hc. destruct (proj1 (node_at_child _ _ _ _) Hc) as (n & Hn & _).
  unfold removeChild.
  rewrite (bind_Ok _ _ _ _ _ (get_node_live _ _ _ Hn)).
  rewrite (bind_Ok _ _ _ _ _ (get_node_live _ _ _ Hc)). simpl.
  unfold mbind, M_bind; simpl. by rewrite child_index_snoc.
Qed.

(** ** The calls [updateProps] issues *)

Lemma element_at_perform_all (p : path) (ops : list hostop) (s : host) :
  Forall (on_element p) ops → element_at p s → element_at p (foldl perform s ops).
Proof.
  intros H. revert s. induction H as [|op ops Hop _ IH]; intros s Hs; simpl; [done|].
  by apply IH, element_at_perform.
Qed.

Lemma for_each_ops {A} (p : path) (body : A → M unit) (ops : A → list hostop)
  (l : list A) (s : host) :
  (∀ x s, x ∈ l → element_at p s → body x s = Ok () (foldl perform s (ops x))) →
  (∀ x, Forall (on_element p) (ops x)) →
  element_at p s →
  for_each l body s = Ok () (foldl perform s (l ≫= ops)).
Proof.
  intros Hbody Hops. revert s.
  induction l as [|x l IH]; intros s Hs; simpl; [done|].
  rewrite (bind_Ok _ _ _ _ _ (Hbody x s (list_elem_of_here _ _) Hs)).
  rewrite IH.
  - by rewrite foldl_app.
  - intros y s' Hy. apply Hbody. by apply list_elem_of_further.
  - by apply element_at_perform_all.
Qed.

Lemma bind_filter {A B} (P : A → bool) (f : A → list B) (l : list A) :
  l ≫= (λ x, if P x then f x else []) = filter (λ x, P x = true) l ≫= f.
Proof.
  induction l as [|x l IH]; [done|].
  rewrite bind_cons. destruct (P x) eqn:E.
  - rewrite filter_cons_True by done. by rewrite bind_cons, IH.
  - rewrite filter_cons_False by (by rewrite E). exact IH.
Qed.

Lemma issued_set_on_element (p : path) (new old : PropType) (key : string) :
  Forall (on_element p) (issued_set p new old key).
Proof.
  unfold issued_set. destruct (loose_ne _ _); [|constructor].
  destruct (is_listener _ _); [|by repeat constructor].
  destruct (truthy _); by repeat constructor.
Qed.

Lemma issued_drop_on_element (p : path) (new old : PropType) (key : string) :
  Forall (on_element p) (issued_drop p new old key).
Proof.
  unfold issued_drop. destruct (negb _); [|constructor].
  destruct (is_listener _ _); by repeat constructor.
Qed.

Lemma set_prop_live (p : path) (new old : PropType) (key : string) (s : host) :
  element_at p s → removable new old key = true →
  set_prop (Some p) new old key s = Ok () (foldl perform s (issued_set p new old key)).
Proof.
  intros Hs Hrem. unfold set_prop, issued_set, removable, is_listener in *.
  destruct (loose_ne _ _); [|done].
  destruct (startsWith "on" key && is_function (prop_get new key)) eqn:Hl.
  - apply andb_prop in Hl as [_ Hf]. apply is_function_object in Hf.
    destruct (truthy (prop_get old key)); simpl in *.
    + rewrite (bind_Ok _ _ _ _ _ (removeEventListener_live _ _ _ _ Hs Hrem)).
      apply addEventListener_live; [|done]. by apply element_at_perform.
    + unfold mbind, M_bind, mret, M_ret. by apply addEventListener_live.
  - by apply setAttribute_live.
Qed.

Lemma drop_prop_live (p : path) (new old : PropType) (key : string) (s : host) :
  element_at p s →
  drop_prop (Some p) new old key s = Ok () (foldl perform s (issued_drop p new old key)).
Proof.
  intros Hs. unfold drop_prop, issued_drop, is_listener.
  destruct (negb _); [|done].
  destruct (startsWith "on" key && is_function (prop_get old key)) eqn:Hl.
  - apply andb_prop in Hl as [_ Hf]. apply is_function_object in Hf.
    by apply removeEventListener_live.
  - by apply removeAttribute_live.
Qed.

Lemma bind_fmap_fst {A B C} (f : A → list C) (l : list (A * B)) :
  l ≫= (λ kv, f kv.1) = l.*1 ≫= f.
Proof.
  induction l as [|x l IH]; [done|].
  rewrite fmap_cons, !bind_cons. by rewrite IH.
Qed.

Lemma bind_on_element {A} (p : path) (f : A → list hostop) (l : list A) :
  (∀ x, Forall (on_element p) (f x)) → Forall (on_element p) (l ≫= f).
Proof.
  intros Hf. induction l as [|x l IH]; [constructor|].
  rewrite bind_cons. apply Forall_app. by split.
Qed.

Lemma issued_ops_on_element (p : path) (new old : PropType) :
  Forall (on_element p) (issued_ops p new old).
Proof.
  apply Forall_app. split; apply bind_on_element; intros key;
    [apply issued_set_on_element|apply issued_drop_on_element].
Qed.

Lemma updateProps_live (p : path) (new old : option PropType) (s : host) :
  element_at p s →
  removals_accepted (default [] new) (default [] old) = true →
  updateProps (Some p) new old s
  = Ok () (foldl perform s (issued_ops p (default [] new) (default [] old))).
Proof.
  intros Hs Hrem. unfold updateProps, issued_ops.
  set (n := default [] new) in *. set (o := default [] old) in *.
  assert (for_each n (λ kv, set_prop (Some p) n o kv.1) s
          = Ok () (foldl perform s (n ≫= λ kv, issued_set p n o kv.1))) as E1.
  { apply (for_each_ops p); [| |done].
    - intros x s' Hx H. apply set_prop_live; [done|].
      unfold removals_accepted in Hrem. rewrite forallb_forall in Hrem.
      apply Hrem. apply list_elem_of_In, list_elem_of_fmap. by exists x.
    - intros x. apply issued_set_on_element. }
  rewrite (bind_Ok _ _ _ _ _ E1).
  rewrite (for_each_ops p _ (λ kv, issued_drop p n o kv.1)).
  - by rewrite foldl_app, !bind_fmap_fst.
  - intros x s' _ H. by apply drop_prop_live.
  - intros x. apply issued_drop_on_element.
  - apply element_at_perform_all; [|done].
    apply bind_on_element. intros x. apply issued_set_on_element.
Qed.

(** ** Patching a tree against itself *)

Lemma loose_eq_refl (v : value) : is_nan v = false → loose_eq v v = true.
Proof.
  destruct v as [| |b|[|z]|str|f src|name|]; simpl; try done; intros _.
  - by destruct b.
  - apply Z.eqb_refl.
  - apply String.eqb_refl.
  - apply Nat.eqb_refl.
  - apply String.eqb_refl.
Qed.

Lemma own_get_elem (ps : PropType) (key : string) (v : value) :
  own_get ps key = Some v → (key, v) ∈ ps.
Proof.
  induction ps as [|[k w] ps IH]; simpl; [done|].
  destruct (String.eqb_spec k key) as [->|_].
  - intros [= ->]. apply list_elem_of_here.
  - intros H. by apply list_elem_of_further, IH.
Qed.

Lemma own_get_key (ps : PropType) (key : string) :
  key ∈ ps.*1 ↔ is_Some (own_get ps key).
Proof.
  induction ps as [|[k w] ps IH]; simpl.
  - split; [by intros ?%elem_of_nil|by intros [? ?]].
  - destruct (String.eqb_spec k key) as [->|Hne].
    + split; [eauto|]. intros _. apply list_elem_of_here.
    + rewrite <- IH. split.
      * by intros [?|?]%elem_of_cons.
      * apply list_elem_of_further.
Qed.

Lemma inherited_not_nan (key : string) :
  is_nan (default VUndefined (inherited key)) = false.
Proof.
  assert (Forall (λ kv, is_nan kv.2 = false) Object_prototype) as H
    by (by repeat constructor).
  unfold inherited. destruct (own_get Object_prototype key) as [v|] eqn:E; [|done].
  rewrite Forall_forall in H. by apply (H (key, v)), own_get_elem.
Qed.

Lemma prop_get_nan_free (ps : PropType) (key : string) :
  forallb (λ kv, negb (is_nan kv.2)) ps = true → is_nan (prop_get ps key) = false.
Proof.
  intros H. unfold prop_get. destruct (own_get ps key) as [v|] eqn:E.
  - apply own_get_elem in E. rewrite forallb_forall in H.
    specialize (H (key, v) (proj1 (list_elem_of_In _ _) E)). simpl in H.
    by destruct (is_nan v).
  - apply inherited_not_nan.
Qed.

Lemma prop_has_key (ps : PropType) (key : string) :
  key ∈ ps.*1 → prop_has ps key = true.
Proof.
  intros [v Hv]%own_get_key. unfold prop_has. by rewrite Hv.
Qed.

Lemma filter_none {A} (P : A → Prop) `{!∀ x, Decision (P x)} (l : list A) :
  Forall (λ x, ¬ P x) l → filter P l = [].
Proof.
  induction 1 as [|x l Hx _ IH]; [done|].
  by rewrite filter_cons_False.
Qed.

Lemma bind_none {A B} (f : A → list B) (l : list A) :
  (∀ x, x ∈ l → f x = []) → l ≫= f = [].
Proof.
  induction l as [|x l IH]; intros H; [done|].
  rewrite bind_cons, (H x) by apply list_elem_of_here.
  apply IH. intros y Hy. apply H. by apply list_elem_of_further.
Qed.

Lemma loose_ne_function (v : value) : is_function v = true → loose_ne v v = false.
Proof.
  intros H. unfold loose_ne. rewrite loose_eq_refl; [done|]. by destruct v.
Qed.

Lemma removals_accepted_same (ps : PropType) : removals_accepted ps ps = true.
Proof.
  unfold removals_accepted. apply forallb_forall. intros key _.
  unfold removable, is_listener.
  destruct (is_function (prop_get ps key)) eqn:Hf.
  - by rewrite (loose_ne_function _ Hf).
  - by rewrite !andb_false_r.
Qed.

Lemma issued_ops_same (p : path) (ps : option PropType) :
  props_nan_free ps = true → issued_ops p (default [] ps) (default [] ps) = [].
Proof.
  unfold props_nan_free, issued_ops.
  set (l := default [] ps). intros H.
  rewrite !bind_none; [done| |].
  - intros key Hkey. unfold issued_drop. by rewrite prop_has_key.
  - intros key _. unfold issued_set, loose_ne.
    by rewrite loose_eq_refl by (by apply prop_get_nan_free).
Qed.

Lemma foldl_append_child (cs : list Node) (t : string) (a : list (string * string))
  (l : list (string * value)) (ks : list Node) :
  foldl (λ el c, append_child c el) (Element t a l ks) cs = Element t a l (ks ++ cs).
Proof.
  revert ks. induction cs as [|c cs IH]; intros ks; simpl.
  - by rewrite app_nil_r.
  - by rewrite IH, <- app_assoc.
Qed.

Lemma render_children (t : string) (ps : option PropType) (cs : list child) :
  child_nodes (render (mkVNode t ps cs)) = render_child <$> cs.
Proof.
  simpl.
  set (f := λ (el : Node) (kv : string * value), _).
  assert (∀ l el, child_nodes el = [] → is_element el = true →
                  child_nodes (foldl f el l) = [] ∧ is_element (foldl f el l) = true)
    as Hattrs.
  { induction l as [|kv l IH]; intros el H1 H2; simpl; [done|].
    apply IH; unfold f; destruct (_ && _); by destruct el. }
  destruct (Hattrs (default [] ps) (Element t [] [] []) eq_refl eq_refl) as [H1 H2].
  destruct (foldl f _ _) as [|t' a l ks]; [done|]. simpl in H1. subst ks.
  rewrite <- (foldl_fmap (λ el c, append_child c el) _ cs render_child).
  by rewrite foldl_append_child.
Qed.

Lemma render_is_element (v : VNode) : is_element (render v) = true.
Proof.
  destruct v as [t ps cs]. simpl.
  set (f := λ (el : Node) (kv : string * value), _).
  assert (∀ l el, is_element el = true → is_element (foldl f el l) = true) as Hattrs.
  { induction l as [|kv l IH]; intros el H; simpl; [done|].
    apply IH; unfold f; destruct (_ && _); by destruct el. }
  set (g := λ (el : Node) (c : child), _).
  assert (∀ l el, is_element el = true → is_element (foldl g el l) = true) as Hkids.
  { induction l as [|c l IH]; intros el H; simpl; [done|].
    apply IH; unfold g; by destruct el. }
  by apply Hkids, Hattrs.
Qed.

Lemma height_child (t : string) (ps : option PropType) (cs : list child)
  (i : nat) (v : VNode) :
  cs !! i = Some (CNode v) → height v < height (mkVNode t ps cs).
Proof.
  simpl. revert i. induction cs as [|c cs IH]; intros i; [done|].
  destruct i as [|i]; simpl.
  - intros [= ->]. lia.
  - intros H%IH. destruct c; lia.
Qed.

Lemma nan_free_child (t : string) (ps : option PropType) (cs : list child)
  (i : nat) (v : VNode) :
  nan_free (mkVNode t ps cs) = true → cs !! i = Some (CNode v) → nan_free v = true.
Proof.
  simpl. intros [_ H]%andb_prop Hi.
  rewrite forallb_forall in H. apply (H (CNode v)).
  apply list_elem_of_In, list_elem_of_lookup. eauto.
Qed.

Lemma for_range_app (n m start : nat) (body : nat → M unit) (s : host) :
  for_range (n + m) start body s
  = (for_range n start body;; for_range m (start + n) body) s.
Proof.
  revert start s. induction n as [|n IH]; intros start s; simpl.
  - unfold mbind, M_bind, mret, M_ret. by rewrite Nat.add_0_r.
  - unfold mbind, M_bind. destruct (body start s) as [[] s'| |]; [|done..].
    rewrite IH. unfold mbind, M_bind. by rewrite Nat.add_succ_r.
Qed.

Lemma patch_child_same (rec : ref → option VNode → option VNode → nat → M unit)
  (el : path) (news olds : list child) (i : nat) (c : child) (s : host) :
  news !! i = Some c → olds !! i = Some c →
  (∀ v, c = CNode v → rec (Some el) (Some v) (Some v) i s = Ok () s) →
  patch_child rec (Some el) news olds i s = Ok () s.
Proof.
  intros Hn Ho Hrec. unfold patch_child. rewrite Hn, Ho.
  destruct c as [str|v]; simpl.
  - by rewrite String.eqb_refl.
  - by apply Hrec.
Qed.

Lemma patch_rec_same_tag (fuel : nat) (p : path) (index : nat) (s : host)
  (t : string) (psn pso : option PropType) (csn cso : list child) (cur : Node) :
  node_at (tree s) (p ++ [index]) = Some cur →
  patch_rec (S fuel) (Some p) (Some (mkVNode t psn csn)) (Some (mkVNode t pso cso))
            index s
  = (updateProps (Some (p ++ [index])) psn pso;;
     for_range (Nat.max (length csn) (length cso)) 0
       (patch_child (patch_rec fuel) (Some (p ++ [index])) csn cso)) s.
Proof.
  intros Hcur. destruct (proj1 (node_at_child _ _ _ _) Hcur) as (n & Hn & Hi).
  simpl patch_rec.
  rewrite (bind_Ok _ _ _ _ _ (childNodes_live _ index _ _ Hn)).
  rewrite Hi. by rewrite String.eqb_refl.
Qed.


(** ** Attribute calls keep the shape of the tree *)

Lemma skeleton_alter_at (f : Node → Node) (q : path) (t : Node) :
  (∀ n, skeleton (f n) = skeleton n) → skeleton (alter_at f q t) = skeleton t.
Proof.
  intros Hf. revert t. induction q as [|i q IH]; intros t; simpl; [apply Hf|].
  destruct t as [|tag a l cs]; simpl; [done|]. f_equal.
  rewrite (list_fmap_alter skeleton _ id).
  - by apply list_alter_id.
  - apply Forall_forall. intros x _. apply IH.
Qed.

Lemma skeleton_perform (s : host) (op : hostop) :
  attr_op op → skeleton (tree (perform s op)) = skeleton (tree s).
Proof.
  destruct op; simpl; try done; intros _;
    apply skeleton_alter_at; by intros [].
Qed.

Lemma skeleton_perform_all (ops : list hostop) (s : host) :
  Forall attr_op ops → skeleton (tree (foldl perform s ops)) = skeleton (tree s).
Proof.
  intros H. revert s. induction H as [|op ops Hop _ IH]; intros s; simpl; [done|].
  by rewrite IH, skeleton_perform.
Qed.

Lemma node_at_skeleton (t : Node) (q : path) :
  node_at (skeleton t) q = skeleton <$> node_at t q.
Proof.
  revert t. induction q as [|i q IH]; intros t; simpl; [done|].
  destruct t as [|tag a l cs]; simpl; [done|].
  rewrite list_lookup_fmap. destruct (cs !! i) as [c|]; simpl; [apply IH|done].
Qed.

Lemma child_nodes_skeleton (n : Node) :
  child_nodes (skeleton n) = skeleton <$> child_nodes n.
Proof. by destruct n. Qed.

Lemma is_element_skeleton (n : Node) : is_element (skeleton n) = is_element n.
Proof. by destruct n. Qed.

Lemma on_element_attr_op (p : path) (op : hostop) : on_element p op → attr_op op.
Proof. by destruct op. Qed.

(** A live node with the shape of [render v] is an element. *)
Lemma shaped_element (s : host) (el : path) (v : VNode) :
  node_at (skeleton (tree s)) el = Some (skeleton (render v)) → element_at el s.
Proof.
  rewrite node_at_skeleton. destruct (node_at (tree s) el) as [n|] eqn:E; [|done].
  simpl. intros [= H]. exists n. split; [done|].
  by rewrite <- is_element_skeleton, H, is_element_skeleton, render_is_element.
Qed.

Lemma shaped_child (s : host) (el : path) (t : string) (ps : option PropType)
  (cs : list child) (i : nat) (c : child) :
  node_at (skeleton (tree s)) el = Some (skeleton (render (mkVNode t ps cs))) →
  cs !! i = Some c →
  node_at (skeleton (tree s)) (el ++ [i]) = Some (skeleton (render_child c)).
Proof.
  intros Hel Hc. apply node_at_child. eexists. split; [done|].
  by rewrite child_nodes_skeleton, render_children, !list_lookup_fmap, Hc.
Qed.

Lemma rendered_shape (s : host) (el : path) (n : Node) :
  node_at (tree s) el = Some n → node_at (skeleton (tree s)) el = Some (skeleton n).
Proof. intros H. by rewrite node_at_skeleton, H. Qed.

Lemma element_at_skel (s s' : host) (q : path) :
  skeleton (tree s') = skeleton (tree s) → element_at q s → element_at q s'.
Proof.
  intros Hsk (n & Hn & He).
  pose proof (node_at_skeleton (tree s') q) as H'.
  rewrite Hsk, node_at_skeleton, Hn in H'. simpl in H'.
  destruct (node_at (tree s') q) as [m|] eqn:E; simpl in H'; [|discriminate].
  injection H' as H'. exists m. split; [done|].
  by rewrite <- is_element_skeleton, <- H', is_element_skeleton.
Qed.

Lemma silent_ops_nil (b : bool) : silent_ops b [].
Proof. split; [constructor|done]. Qed.

Lemma silent_ops_app (b : bool) (ops1 ops2 : list hostop) :
  silent_ops b ops1 → silent_ops b ops2 → silent_ops b (ops1 ++ ops2).
Proof.
  intros [F1 E1] [F2 E2]. split; [by apply Forall_app|].
  intros Hb. by rewrite (E1 Hb), (E2 Hb).
Qed.

Lemma silent_ops_weaken (b b' : bool) (ops : list hostop) :
  (b = true → b' = true) → silent_ops b' ops → silent_ops b ops.
Proof. intros Hb [F E]. split; [done|]. intros H. by apply E, Hb. Qed.

Lemma issued_ops_attr (p : path) (new old : PropType) :
  Forall attr_op (issued_ops p new old).
Proof.
  eapply Forall_impl; [apply issued_ops_on_element|apply on_element_attr_op].
Qed.

Lemma issued_ops_silent (p : path) (ps : option PropType) :
  silent_ops (props_nan_free ps) (issued_ops p (default [] ps) (default [] ps)).
Proof. split; [apply issued_ops_attr|apply issued_ops_same]. Qed.

Lemma for_range_silent (b : bool) (n start : nat) (body : nat → M unit) (s : host) :
  (∀ i s', start ≤ i < start + n → skeleton (tree s') = skeleton (tree s) →
           ∃ ops, body i s' = Ok () (foldl perform s' ops) ∧ silent_ops b ops) →
  ∃ ops, for_range n start body s = Ok () (foldl perform s ops) ∧ silent_ops b ops.
Proof.
  revert start s. induction n as [|n IH]; intros start s H; simpl.
  - exists []. split; [done|apply silent_ops_nil].
  - destruct (H start s ltac:(lia) eq_refl) as (ops1 & E1 & F1).
    destruct (IH (S start) (foldl perform s ops1)) as (ops2 & E2 & F2).
    { intros i s' Hi Hs'. apply H; [lia|].
      rewrite Hs', skeleton_perform_all; [done|apply F1]. }
    exists (ops1 ++ ops2). split.
    + by rewrite (bind_Ok _ _ _ _ _ E1), E2, foldl_app.
    + by apply silent_ops_app.
Qed.

Lemma nan_free_props (t : string) (ps : option PropType) (cs : list child) :
  nan_free (mkVNode t ps cs) = true → props_nan_free ps = true.
Proof. simpl. by intros [? _]%andb_prop. Qed.

(** The rounds over a common prefix [cs] of the two child lists, when the
    live children start with the nodes rendered from [cs]. *)
Lemma common_prefix_silent (rec : ref → option VNode → option VNode → nat → M unit)
  (b : bool) (el : path) (t : string) (ps : option PropType)
  (cs lives news olds : list child) (s : host) :
  (∀ i c, cs !! i = Some c →
          news !! i = Some c ∧ olds !! i = Some c ∧ lives !! i = Some c) →
  (∀ i w s', cs !! i = Some (CNode w) →
     node_at (skeleton (tree s')) (el ++ [i]) = Some (skeleton (render w)) →
     ∃ ops, rec (Some el) (Some w) (Some w) i s' = Ok () (foldl perform s' ops)
            ∧ silent_ops b ops) →
  node_at (skeleton (tree s)) el = Some (skeleton (render (mkVNode t ps lives))) →
  ∃ ops, for_range (length cs) 0 (patch_child rec (Some el) news olds) s
         = Ok () (foldl perform s ops) ∧ silent_ops b ops.
Proof.
  intros Hsame Hrec Hshape. apply for_range_silent.
  intros i s' [_ Hi] Hs'. simpl in Hi.
  destruct (lookup_lt_is_Some_2 cs i Hi) as [c Hc].
  destruct (Hsame i c Hc) as (Hn & Ho & Hl).
  destruct c as [str|w].
  - exists []. split; [|apply silent_ops_nil].
    by apply (patch_child_same _ _ _ _ _ (CText str)).
  - unfold patch_child. rewrite Hn, Ho. simpl. apply Hrec; [done|].
    rewrite Hs'. by apply (shaped_child s _ t ps lives i (CNode w)).
Qed.

(** Patching a tree against itself issues attribute calls at most, and
    none at all when no attribute value is NaN. *)
Lemma patch_rec_self (fuel : nat) (v : VNode) (p : path) (index : nat) (s : host) :
  height v < fuel →
  node_at (skeleton (tree s)) (p ++ [index]) = Some (skeleton (render v)) →
  ∃ ops, patch_rec fuel (Some p) (Some v) (Some v) index s
         = Ok () (foldl perform s ops) ∧ silent_ops (nan_free v) ops.
Proof.
  revert v p index s.
  induction fuel as [|fuel IH]; intros v p index s Hfuel Hshape; [lia|].
  pose proof (shaped_element _ _ _ Hshape) as Hel.
  pose proof Hel as (cur & Hcur & _).
  destruct v as [t ps cs].
  rewrite (patch_rec_same_tag _ _ _ _ _ _ _ _ _ _ Hcur).
  rewrite (bind_Ok _ _ _ _ _
             (updateProps_live _ ps ps s Hel (removals_accepted_same _))).
  set (ops0 := issued_ops _ _ _).
  pose proof (issued_ops_silent (p ++ [index]) ps) as F0. fold ops0 in F0.
  rewrite Nat.max_id.
  destruct (common_prefix_silent (patch_rec fuel) (nan_free (mkVNode t ps cs))
              (p ++ [index]) t ps cs cs cs cs (foldl perform s ops0))
    as (ops1 & E1 & F1).
  { done. }
  { intros i w s' Hc Hs'.
    destruct (IH w (p ++ [index]) i s') as (ops & E & F); [|done|].
    - pose proof (height_child t ps cs i w Hc). lia.
    - exists ops. split; [done|].
      eapply silent_ops_weaken; [|exact F].
      intros H. by apply (nan_free_child t ps cs i). }
  { rewrite skeleton_perform_all; [done|apply F0]. }
  exists (ops0 ++ ops1). split; [rewrite foldl_app; exact E1|].
  apply silent_ops_app; [|done].
  eapply silent_ops_weaken; [|exact F0]. apply nan_free_props.
Qed.

(** ** Growing and shrinking a child list *)

Lemma patch_rec_append (fuel : nat) (p : path) (v : VNode) (index : nat) (s : host) :
  element_at p s →
  patch_rec (S fuel) (Some p) (Some v) None index s
  = Ok () (perform s (AppendChild p (render v))).
Proof.
  intros Hs. pose proof Hs as (n & Hn & _). simpl.
  rewrite (bind_Ok _ _ _ _ _ (childNodes_live _ index _ _ Hn)).
  unfold render_ref. rewrite (bind_Ok _ _ s s (render v)) by done.
  by apply appendChild_live.
Qed.

Lemma patch_rec_remove (fuel : nat) (p : path) (old : VNode) (index : nat)
  (s : host) (c : Node) :
  node_at (tree s) (p ++ [index]) = Some c →
  patch_rec (S fuel) (Some p) None (Some old) index s
  = Ok () (perform s (RemoveChild p index)).
Proof.
  intros Hc. destruct (proj1 (node_at_child _ _ _ _) Hc) as (n & Hn & Hi). simpl.
  rewrite (bind_Ok _ _ _ _ _ (childNodes_live _ index _ _ Hn)). rewrite Hi.
  by apply (removeChild_live _ _ _ c).
Qed.

Lemma live_of_shape (s s' : host) (q : path) (n : Node) :
  skeleton (tree s') = skeleton (tree s) →
  node_at (skeleton (tree s)) q = Some n →
  ∃ m, node_at (tree s') q = Some m.
Proof.
  intros <-. rewrite node_at_skeleton.
  destruct (node_at (tree s') q) as [m|]; [|done]. eauto.
Qed.

(** The rounds of [patch] over the common prefix of two child lists of a
    node whose live element was rendered with children starting with that
    prefix. *)
Lemma patch_prefix (fuel : nat) (el : path) (t : string) (ps : option PropType)
  (cs lives news olds : list child) (s s0 : host) :
  (∀ i c, cs !! i = Some c →
          news !! i = Some c ∧ olds !! i = Some c ∧ lives !! i = Some c) →
  (∀ i w, cs !! i = Some (CNode w) → height w < fuel) →
  node_at (tree s0) el = Some (render (mkVNode t ps lives)) →
  skeleton (tree s) = skeleton (tree s0) →
  ∃ ops, for_range (length cs) 0 (patch_child (patch_rec fuel) (Some el) news olds) s
         = Ok () (foldl perform s ops)
         ∧ silent_ops (nan_free (mkVNode t ps cs)) ops.
Proof.
  intros Hsame Hfuel Hlive Hsk.
  apply (common_prefix_silent _ _ el t ps cs lives); [done| |].
  - intros i w s' Hc Hs'.
    destruct (patch_rec_self fuel w el i s') as (ops & E & F); [by eapply Hfuel|done|].
    exists ops. split; [done|].
    eapply silent_ops_weaken; [|exact F].
    intros H. by apply (nan_free_child t ps cs i).
  - rewrite Hsk. by apply rendered_shape.
Qed.

Lemma patch_grow (p : path) (index : nat) (s : host) (t : string)
  (ps : option PropType) (cs : list child) (z : VNode) :
  node_at (tree s) (p ++ [index]) = Some (render (mkVNode t ps cs)) →
  ∃ ops, silent_ops (nan_free (mkVNode t ps cs)) ops ∧
    patch (Some p) (Some (mkVNode t ps (cs ++ [CNode z]))) (Some (mkVNode t ps cs))
          index s
    = Ok () (perform (foldl perform s ops) (AppendChild (p ++ [index]) (render z))).
Proof.
  intros Hlive. pose proof (rendered_shape _ _ _ Hlive) as Hshape.
  set (new := mkVNode t ps (cs ++ [CNode z])).
  set (ops0 := issued_ops (p ++ [index]) (default [] ps) (default [] ps)).
  pose proof (issued_ops_silent (p ++ [index]) ps) as F0. fold ops0 in F0.
  destruct (patch_prefix (S (height new)) (p ++ [index]) t ps cs cs
              (cs ++ [CNode z]) cs (foldl perform s ops0) s) as (ops1 & E1 & F1).
  { intros i c Hc. split; [|done]. by apply lookup_app_l_Some. }
  { intros i w Hc. apply Nat.lt_lt_succ_r.
    apply (height_child t ps (cs ++ [CNode z]) i w). by apply lookup_app_l_Some. }
  { done. }
  { rewrite skeleton_perform_all; [done|apply F0]. }
  exists (ops0 ++ ops1). split.
  { apply silent_ops_app; [|done].
    eapply silent_ops_weaken; [|exact F0]. apply nan_free_props. }
  unfold patch, patch_fuel. fold new.
  change (2 + height new) with (S (S (height new))).
  unfold new at 2. rewrite (patch_rec_same_tag _ _ _ _ _ _ _ _ _ _ Hlive).
  rewrite (bind_Ok _ _ _ _ _
             (updateProps_live _ ps ps s (shaped_element _ _ _ Hshape)
                (removals_accepted_same _))).
  fold ops0. rewrite length_app. simpl length.
  rewrite (Nat.max_l (length cs + 1) (length cs)) by lia.
  rewrite for_range_app.
  rewrite (bind_Ok _ _ _ _ _ E1). simpl for_range.
  unfold patch_child.
  rewrite (lookup_app_r cs) by lia. rewrite Nat.sub_diag.
  rewrite (lookup_ge_None_2 cs (length cs)) by lia. simpl.
  assert (element_at (p ++ [index]) (foldl perform (foldl perform s ops0) ops1))
    as Hel.
  { apply element_at_skel with s.
    - rewrite !skeleton_perform_all; [done|apply F0|apply F1].
    - by apply shaped_element with (mkVNode t ps cs). }
  rewrite (bind_Ok _ _ _ _ ()
             (patch_rec_append (height new) (p ++ [index]) z (length cs) _ Hel)).
  by rewrite foldl_app.
Qed.

Lemma patch_shrink (p : path) (index : nat) (s : host) (t : string)
  (ps : option PropType) (cs : list child) (z : VNode) :
  node_at (tree s) (p ++ [index]) = Some (render (mkVNode t ps (cs ++ [CNode z]))) →
  ∃ ops, silent_ops (nan_free (mkVNode t ps cs)) ops ∧
    patch (Some p) (Some (mkVNode t ps cs)) (Some (mkVNode t ps (cs ++ [CNode z])))
          index s
    = Ok () (perform (foldl perform s ops) (RemoveChild (p ++ [index]) (length cs))).
Proof.
  intros Hlive. pose proof (rendered_shape _ _ _ Hlive) as Hshape.
  set (new := mkVNode t ps cs).
  set (ops0 := issued_ops (p ++ [index]) (default [] ps) (default [] ps)).
  pose proof (issued_ops_silent (p ++ [index]) ps) as F0. fold ops0 in F0.
  destruct (patch_prefix (S (height new)) (p ++ [index]) t ps cs (cs ++ [CNode z])
              cs (cs ++ [CNode z]) (foldl perform s ops0) s) as (ops1 & E1 & F1).
  { intros i c Hc. split; [done|]. split; by apply lookup_app_l_Some. }
  { intros i w Hc. apply Nat.lt_lt_succ_r. by apply (height_child t ps cs i w). }
  { done. }
  { rewrite skeleton_perform_all; [done|apply F0]. }
  exists (ops0 ++ ops1). split.
  { apply silent_ops_app; [|done].
    eapply silent_ops_weaken; [|exact F0]. apply nan_free_props. }
  unfold patch, patch_fuel. fold new.
  change (2 + height new) with (S (S (height new))).
  unfold new at 2. rewrite (patch_rec_same_tag _ _ _ _ _ _ _ _ _ _ Hlive).
  rewrite (bind_Ok _ _ _ _ _
             (updateProps_live _ ps ps s (shaped_element _ _ _ Hshape)
                (removals_accepted_same _))).
  fold ops0. rewrite length_app. simpl length.
  rewrite (Nat.max_r (length cs) (length cs + 1)) by lia.
  rewrite for_range_app.
  rewrite (bind_Ok _ _ _ _ _ E1). simpl for_range.
  unfold patch_child.
  rewrite (lookup_app_r cs) by lia. rewrite Nat.sub_diag.
  rewrite (lookup_ge_None_2 cs (length cs)) by lia. simpl.
  destruct (live_of_shape s (foldl perform (foldl perform s ops0) ops1)
              ((p ++ [index]) ++ [length cs]) (skeleton (render z))) as [m Hm].
  { rewrite !skeleton_perform_all; [done|apply F0|apply F1]. }
  { apply (shaped_child s _ t ps (cs ++ [CNode z]) (length cs) (CNode z)); [done|].
    rewrite lookup_app_r by lia. by rewrite Nat.sub_diag. }
  rewrite (bind_Ok _ _ _ _ ()
             (patch_rec_remove (height new) (p ++ [index]) z (length cs) _ m Hm)).
  by rewrite foldl_app.
Qed.

(** ** The claims about [patch] and [updateProps] *)

(** C4, as amended: for a virtual tree none of whose attribute values is
    NaN, patching the live subtree rendered from it against the tree itself
    succeeds and leaves the host untouched: the tree is the same and no
    mutating call is recorded. *)
Theorem patch_identical_silent (v : VNode) (p : path) (index : nat) (s : host) :
  nan_free v = true →
  node_at (tree s) (p ++ [index]) = Some (render v) →
  patch (Some p) (Some v) (Some v) index s = Ok () s.
Proof.
  intros Hnan Hlive.
  destruct (patch_rec_self (patch_fuel (Some v)) v p index s) as (ops & E & [_ F]).
  - simpl. lia.
  - by apply rendered_shape.
  - unfold patch. by rewrite E, (F Hnan).
Qed.

Lemma patch_identical_silent_witness :
  nan_free ex_list3 = true
  ∧ node_at (tree (ex_document ex_list3)) ([0] ++ [0]) = Some (render ex_list3)
  ∧ patch (Some [0]) (Some ex_list3) (Some ex_list3) 0 (ex_document ex_list3)
    = Ok () (ex_document ex_list3).
Proof.
  split; [reflexivity|]. split; [reflexivity|].
  apply (patch_identical_silent ex_list3 [0] 0 (ex_document ex_list3));
    reflexivity.
Defined.

(** C4 as stated fails: an attribute whose value is NaN differs from itself
    under [!=], so patching the tree against itself sets it again. So it is
    not the case that patching a rendered tree against itself never touches
    the host. *)
Lemma patch_identical_nan_counterexample :
  node_at (tree (ex_document ex_nan)) ([0] ++ [0]) = Some (render ex_nan)
  ∧ patch (Some [0]) (Some ex_nan) (Some ex_nan) 0 (ex_document ex_nan)
    = Ok () (perform (ex_document ex_nan) (SetAttribute [0; 0] "a" (VNum NaN)))
  ∧ ¬ (∀ v p index s,
         node_at (tree s) (p ++ [index]) = Some (render v) →
         patch (Some p) (Some v) (Some v) index s = Ok () s).
Proof.
  split; [reflexivity|]. split; [reflexivity|].
  intros H. specialize (H ex_nan [0] 0 (ex_document ex_nan) eq_refl).
  vm_compute in H. discriminate.
Qed.

Lemma bind_ext_in {A B} (f g : A → list B) (l : list A) :
  (∀ x, x ∈ l → f x = g x) → l ≫= f = l ≫= g.
Proof.
  induction l as [|x l IH]; intros H; [done|].
  rewrite !bind_cons, (H x) by apply list_elem_of_here.
  f_equal. apply IH. intros y Hy. apply H. by apply list_elem_of_further.
Qed.

Lemma ordinary_key (ps : PropType) (key : string) :
  ordinary_keys ps = true → key ∈ ps.*1 → inherited key = None.
Proof.
  unfold ordinary_keys. rewrite forallb_forall.
  intros H [[k v] [-> Hkv]]%list_elem_of_fmap.
  specialize (H (k, v) (proj1 (list_elem_of_In _ _) Hkv)). simpl in *.
  by destruct (inherited k).
Qed.

Lemma prop_get_ordinary (ps : PropType) (key : string) :
  inherited key = None → prop_get ps key = own_value ps key.
Proof.
  intros H. unfold prop_get, own_value. rewrite H. by destruct (own_get ps key).
Qed.

Lemma prop_has_ordinary (ps : PropType) (key : string) :
  inherited key = None → (prop_has ps key = false ↔ key ∉ ps.*1).
Proof.
  intros H. unfold prop_has. rewrite H, own_get_key.
  destruct (own_get ps key); split; (done || by intros []).
Qed.

Lemma issued_set_ordinary (p : path) (new old : PropType) (key : string) :
  inherited key = None →
  implb (is_listener key (own_value new key)
         && loose_ne (own_value new key) (own_value old key)
         && truthy (own_value old key))
        (is_function (own_value old key)) = true →
  issued_set p new old key
  = (if negb (loose_eq (own_value new key) (own_value old key))
     then set_ops p new old key else [])
  ∧ removable new old key = true.
Proof.
  intros Hkey Hold. unfold issued_set, set_ops, removable.
  rewrite !(prop_get_ordinary _ _ Hkey). fold (loose_ne (own_value new key)
                                                 (own_value old key)).
  destruct (loose_ne _ _); [|done].
  destruct (is_listener key (own_value new key)) eqn:Hl; [|done].
  simpl in Hold. unfold is_listener in *.
  apply andb_prop in Hl as [-> _]. simpl.
  destruct (truthy (own_value old key)) eqn:Ht; simpl in *.
  - rewrite Hold. split; [done|]. by apply is_function_object.
  - split; [|done]. by destruct (own_value old key) as [| |[]|[]| | | |].
Qed.

Lemma issued_drop_ordinary (p : path) (new old : PropType) (key : string) :
  inherited key = None →
  issued_drop p new old key
  = (if bool_decide (key ∉ new.*1) then remove_ops p old key else []).
Proof.
  intros Hkey. unfold issued_drop, remove_ops.
  rewrite (prop_get_ordinary _ _ Hkey).
  pose proof (prop_has_ordinary new key Hkey) as H.
  destruct (prop_has new key); simpl.
  - rewrite bool_decide_false; [done|]. intros Hn. by apply H in Hn.
  - rewrite bool_decide_true; [done|]. by apply H.
Qed.

Lemma bind_decide_filter {A B} (P : A → Prop) `{!∀ x, Decision (P x)}
  (f : A → list B) (l : list A) :
  l ≫= (λ x, if bool_decide (P x) then f x else []) = filter P l ≫= f.
Proof.
  induction l as [|x l IH]; [done|].
  rewrite bind_cons. destruct (decide (P x)).
  - rewrite bool_decide_true, filter_cons_True by done. by rewrite bind_cons, IH.
  - rewrite bool_decide_false, filter_cons_False by done. exact IH.
Qed.

(** On mappings with ordinary keys, and the old values of listener keys
    callable or falsy, the two loops issue the minimal diff. *)
Lemma issued_ops_minimal (p : path) (new old : PropType) :
  ordinary_keys new = true → ordinary_keys old = true →
  old_listeners_callable new old = true →
  issued_ops p new old = minimal_ops p new old
  ∧ removals_accepted new old = true.
Proof.
  intros Hnew Hold Hcall. unfold old_listeners_callable in Hcall.
  rewrite forallb_forall in Hcall.
  assert (∀ key, key ∈ new.*1 →
            issued_set p new old key
            = (if negb (loose_eq (own_value new key) (own_value old key))
               then set_ops p new old key else [])
            ∧ removable new old key = true) as Hset.
  { intros key Hkey. apply issued_set_ordinary; [by apply (ordinary_key new)|].
    apply Hcall. by apply list_elem_of_In. }
  split.
  - unfold issued_ops, minimal_ops, changed_keys, dropped_keys. f_equal.
    + rewrite (bind_ext_in _ _ _ (λ key Hkey, proj1 (Hset key Hkey))).
      rewrite bind_filter. f_equal. apply list_filter_iff. intros key.
      by destruct (loose_eq _ _).
    + rewrite <- bind_decide_filter. apply bind_ext_in. intros key Hkey.
      apply issued_drop_ordinary. by apply (ordinary_key old).
  - unfold removals_accepted. apply forallb_forall. intros key Hkey.
    apply Hset. by apply list_elem_of_In.
Qed.




(** C6: under a live element, [patch] with no old node appends the freshly
    rendered new node; with no new node it removes the live child at
    [index]. Hence patching the children [[x; y]] to [[x; y; z]] appends one
    node, the one rendered from [z], to the element, and patching
    [[x; y; z]] to [[x; y]] removes its child at index 2; whatever else is
    issued is a call on attributes ([ops]), and there is none when no
    attribute value of the unchanged part is NaN. *)
Theorem patch_append_remove (p : path) (index : nat) (s : host) :
  (∀ v, element_at p s →
        patch (Some p) (Some v) None index s
        = Ok () (perform s (AppendChild p (render v))))
  ∧ (∀ old c, node_at (tree s) (p ++ [index]) = Some c →
        patch (Some p) None (Some old) index s
        = Ok () (perform s (RemoveChild p index)))
  ∧ (∀ t ps x y z,
        node_at (tree s) (p ++ [index])
        = Some (render (mkVNode t ps [CNode x; CNode y])) →
        ∃ ops, silent_ops (nan_free (mkVNode t ps [CNode x; CNode y])) ops ∧
          patch (Some p) (Some (mkVNode t ps [CNode x; CNode y; CNode z]))
                (Some (mkVNode t ps [CNode x; CNode y])) index s
          = Ok () (perform (foldl perform s ops)
                     (AppendChild (p ++ [index]) (render z))))
  ∧ (∀ t ps x y z,
        node_at (tree s) (p ++ [index])
        = Some (render (mkVNode t ps [CNode x; CNode y; CNode z])) →
        ∃ ops, silent_ops (nan_free (mkVNode t ps [CNode x; CNode y])) ops ∧
          patch (Some p) (Some (mkVNode t ps [CNode x; CNode y]))
                (Some (mkVNode t ps [CNode x; CNode y; CNode z])) index s
          = Ok () (perform (foldl perform s ops)
                     (RemoveChild (p ++ [index]) 2))).
Proof.
  split; [|split; [|split]].
  - intros v Hs. by apply patch_rec_append.
  - intros old c Hc. by apply (patch_rec_remove _ _ _ _ _ c).
  - intros t ps x y z Hlive.
    apply (patch_grow p index s t ps [CNode x; CNode y] z Hlive).
  - intros t ps x y z Hlive.
    apply (patch_shrink p index s t ps [CNode x; CNode y] z Hlive).
Qed.

Lemma patch_append_remove_witness :
  patch (Some [0]) (Some ex_list3) (Some ex_list2) 0 (ex_document ex_list2)
  = Ok () (perform (ex_document ex_list2) (AppendChild [0; 0] (render ex_Z)))
  ∧ patch (Some [0]) (Some ex_list2) (Some ex_list3) 0 (ex_document ex_list3)
    = Ok () (perform (ex_document ex_list3) (RemoveChild [0; 0] 2))
  ∧ patch (Some [0]) (Some ex_Z) None 0 ex_empty_document
    = Ok () (perform ex_empty_document (AppendChild [0] (render ex_Z)))
  ∧ patch (Some [0]) None (Some ex_Z) 0 (ex_document ex_Z)
    = Ok () (perform (ex_document ex_Z) (RemoveChild [0] 0)).
Proof.
  split; [|split; [|split]].
  - destruct (patch_append_remove [0] 0 (ex_document ex_list2))
      as (_ & _ & H & _).
    destruct (H "ul" None ex_X ex_Y ex_Z eq_refl) as (ops & [_ Hops] & E).
    rewrite (Hops eq_refl) in E. exact E.
  - destruct (patch_append_remove [0] 0 (ex_document ex_list3))
      as (_ & _ & _ & H).
    destruct (H "ul" None ex_X ex_Y ex_Z eq_refl) as (ops & [_ Hops] & E).
    rewrite (Hops eq_refl) in E. exact E.
  - destruct (patch_append_remove [0] 0 ex_empty_document) as (H & _).
    apply H. eexists. split; reflexivity.
  - destruct (patch_append_remove [0] 0 (ex_document ex_Z)) as (_ & H & _).
    apply (H ex_Z (render ex_Z)). reflexivity.
Defined.










(** ** [mount] *)

Lemma find_first_Some (f : Node → option path) (cs : list Node) (i : nat) (p : path) :
  find_first f cs i = Some p →
  ∃ j c q, cs !! j = Some c ∧ f c = Some q ∧ p = (i + j) :: q.
Proof.
  revert i. induction cs as [|c cs IH]; intros i; simpl; [done|].
  destruct (f c) as [q|] eqn:E.
  - intros [= <-]. exists 0, c, q. by rewrite Nat.add_0_r.
  - intros (j & c' & q & Hj & Hq & ->)%IH.
    exists (S j), c', q. split; [done|]. split; [done|]. f_equal. lia.
Qed.


Lemma find_id_sound (id : string) (t : Node) (p : path) :
  find_id id t = Some p →
  ∃ tag a l cs, node_at t p = Some (Element tag a l cs) ∧ has_id id a = true.
Proof.
  revert p. induction t as [d|tag a l cs IH] using Node_nested_ind; intros p;
    simpl; [done|].
  destruct (has_id id a) eqn:Hid.
  - intros [= <-]. by exists tag, a, l, cs.
  - intros (j & c & q & Hj & Hq & ->)%find_first_Some. simpl. rewrite Hj.
    rewrite Forall_forall in IH. apply IH; [|done].
    apply list_elem_of_lookup. eauto.
Qed.



(** *** Which failures the reconciler can end in *)

Section Avoids.
Variable F : failure → Prop.
Hypothesis F_runtime : ¬ F RuntimeError.

Lemma avoids_bind {A B} (m : M A) (f : A → M B) :
  avoids F m → (∀ a, avoids F (f a)) → avoids F (m ≫= f).
Proof.
  intros Hm Hf s x. unfold mbind, M_bind.
  specialize (Hm s). destruct (m s) as [a s1|e s1|]; [apply Hf|apply Hm..].
Qed.

Lemma avoids_ret {A} (a : A) : avoids F (mret a : M A).
Proof. by intros s x. Qed.

Lemma avoids_host {A} : avoids F (throw HostError : M A).
Proof. by intros s x [= <-]. Qed.

Lemma avoids_mutate (op : hostop) : avoids F (mutate op).
Proof. by intros s x. Qed.

Lemma avoids_get_node (r : ref) : avoids F (get_node r).
Proof.
  intros s x. unfold get_node. destruct r as [p|]; [|by intros [= <-]].
  destruct (node_at (tree s) p); [done|by intros [= <-]].
Qed.

Lemma avoids_the_path (r : ref) : avoids F (the_path r).
Proof. destruct r; [apply avoids_ret|apply avoids_host]. Qed.

Ltac avoids :=
  repeat first
    [ apply avoids_bind; [|intros ?]
    | apply avoids_ret
    | apply avoids_host
    | apply avoids_mutate
    | apply avoids_get_node
    | apply avoids_the_path
    | match goal with
      | |- avoids _ (if ?b then _ else _) => destruct b
      | |- avoids _ (match ?x with _ => _ end) => destruct x
      end ].

Lemma avoids_childNodes (r : ref) (i : nat) : avoids F (childNodes r i).
Proof. unfold childNodes. avoids. Qed.

Lemma avoids_setAttribute (r : ref) (k : string) (v : value) :
  avoids F (setAttribute r k v).
Proof. unfold setAttribute. avoids. Qed.

Lemma avoids_removeAttribute (r : ref) (k : string) :
  avoids F (removeAttribute r k).
Proof. unfold removeAttribute. avoids. Qed.

Lemma avoids_addEventListener (r : ref) (k : string) (v : value) :
  avoids F (addEventListener r k v).
Proof. unfold addEventListener. avoids. Qed.

Lemma avoids_removeEventListener (r : ref) (k : string) (v : value) :
  avoids F (removeEventListener r k v).
Proof. unfold removeEventListener. avoids. Qed.

Lemma avoids_appendChild (r : ref) (c : Node) : avoids F (appendChild r c).
Proof. unfold appendChild. avoids. Qed.

Lemma avoids_removeChild (r c : ref) : avoids F (removeChild r c).
Proof. unfold removeChild. avoids. Qed.

Lemma avoids_replaceChild (r : ref) (n : Node) (c : ref) :
  avoids F (replaceChild r n c).
Proof. unfold replaceChild. avoids. Qed.

Lemma avoids_render_ref (v : option VNode) : avoids F (render_ref v).
Proof. unfold render_ref. avoids. Qed.

Lemma avoids_for_each {A} (l : list A) (body : A → M unit) :
  (∀ x, avoids F (body x)) → avoids F (for_each l body).
Proof.
  intros H. induction l as [|x l IH]; simpl; [apply avoids_ret|].
  apply avoids_bind; [apply H|by intros _].
Qed.

Lemma avoids_for_range (n start : nat) (body : nat → M unit) :
  (∀ i, avoids F (body i)) → avoids F (for_range n start body).
Proof.
  intros H. revert start. induction n as [|n IH]; intros start; simpl;
    [apply avoids_ret|].
  apply avoids_bind; [apply H|intros _; apply IH].
Qed.

Lemma avoids_updateProps (el : ref) (new old : option PropType) :
  avoids F (updateProps el new old).
Proof.
  unfold updateProps. apply avoids_bind; [|intros _];
    apply avoids_for_each; intros [k v]; unfold set_prop, drop_prop.
  - destruct (loose_ne _ _); [|apply avoids_ret].
    destruct (_ && _); [|apply avoids_setAttribute].
    apply avoids_bind; [|intros _; apply avoids_addEventListener].
    destruct (truthy _); [apply avoids_removeEventListener|apply avoids_ret].
  - destruct (negb _); [|apply avoids_ret].
    destruct (_ && _); [apply avoids_removeEventListener|apply avoids_removeAttribute].
Qed.

(** With enough fuel for [new], the recursion does not run out of it. *)
Lemma avoids_patch_rec (fuel : nat) (parent : ref) (new old : option VNode)
  (index : nat) :
  (F FuelExhausted → (patch_fuel new ≤ fuel)%nat) →
  avoids F (patch_rec fuel parent new old index).
Proof.
  revert parent new old index.
  induction fuel as [|fuel IH]; intros parent new old index Hfuel.
  - intros s x [= <-] HF. specialize (Hfuel HF). destruct new; simpl in Hfuel; lia.
  - simpl. apply avoids_bind; [apply avoids_childNodes|]. intros currentEl.
    destruct old as [o|].
    2:{ apply avoids_bind; [apply avoids_render_ref|].
        intros n. apply avoids_appendChild. }
    destruct new as [n|]; [|apply avoids_removeChild].
    destruct (negb _); [apply avoids_replaceChild|].
    apply avoids_bind; [apply avoids_updateProps|]. intros _.
    apply avoids_for_range. intros i. unfold patch_child.
    destruct (_ || _).
    + destruct (negb _); [|apply avoids_ret].
      apply avoids_bind; [apply avoids_get_node|]. intros _.
      apply avoids_bind.
      * destruct (children n !! i) as [[str|w]|];
          [apply avoids_ret|apply avoids_render_ref..].
      * intros m. apply avoids_bind; [apply avoids_childNodes|].
        intros c. apply avoids_replaceChild.
    + apply IH. intros HF. specialize (Hfuel HF). simpl in Hfuel.
      destruct (children n !! i) as [[str|w]|] eqn:Hi; simpl; [lia| |lia].
      destruct n as [t ps cs]. simpl in Hi.
      pose proof (height_child t ps cs i w Hi). lia.
Qed.

End Avoids.

(** [patch] is total: the fuel it passes to its recursion suffices. *)
Lemma patch_terminates (parent : ref) (new old : option VNode) (index : nat) :
  terminates (patch parent new old index).
Proof. by apply avoids_patch_rec. Qed.

Lemma patch_raises_no_Error (parent : ref) (new old : option VNode) (index : nat) :
  raises_no_Error (patch parent new old index).
Proof.
  apply avoids_patch_rec; [by intros [? ?]|]. by intros [? ?].
Qed.





(** ** The reactivity engine *)

Lemma R_bind_Returns {A B} (m : R A) (f : A → R B) (s s' : store) (a : A) :
  m s = Returns a s' → (m ≫= f) s = f a s'.
Proof. unfold mbind, R_bind. by intros ->. Qed.

Lemma R_bind_inv {A B} (m : R A) (f : A → R B) (s s2 : store) (b : B) :
  (m ≫= f) s = Returns b s2 → ∃ a s1, m s = Returns a s1 ∧ f a s1 = Returns b s2.
Proof. unfold mbind, R_bind. destruct (m s) as [a s1| |]; [eauto|done..]. Qed.

Lemma set_add_elem (e : fnid) (l : list fnid) : e ∈ set_add e l.
Proof.
  unfold set_add. destruct (decide (e ∈ l)); [done|].
  apply elem_of_app. right. by apply list_elem_of_singleton.
Qed.

Lemma set_add_already (e : fnid) (l : list fnid) : e ∈ l → set_add e l = l.
Proof. intros H. unfold set_add. by rewrite decide_True. Qed.

Lemma set_add_NoDup (e : fnid) (l : list fnid) : NoDup l → NoDup (set_add e l).
Proof.
  intros H. unfold set_add. destruct (decide (e ∈ l)) as [|Hn]; [done|].
  apply NoDup_app. split; [done|]. split; [|apply NoDup_singleton].
  intros x Hx ->%list_elem_of_singleton. done.
Qed.

Lemma track_inactive (target : objid) (key : string) (s : store) :
  activeEffect s = None → track target key s = Returns () s.
Proof. unfold track. by intros ->. Qed.

Lemma track_active (target : objid) (key : string) (s : store) (e : fnid) :
  activeEffect s = Some e →
  ∃ s', track target key s = Returns () s'
        ∧ subscribers s' target key = set_add e (subscribers s target key)
        ∧ (∀ t k, (t, k) ≠ (target, key) → subscribers s' t k = subscribers s t k)
        ∧ activeEffect s' = Some e ∧ heap s' = heap s
        ∧ closures s' = closures s ∧ calls s' = calls s.
Proof.
  intros Ha. unfold track. rewrite Ha. eexists. split; [done|].
  split; [|split; [|done]].
  - unfold subscribers. simpl. rewrite !lookup_insert_eq. simpl.
    by destruct (typeDependencyMap s !! target).
  - intros t k Hne. unfold subscribers. simpl.
    destruct (decide (t = target)) as [->|Ht].
    + rewrite lookup_insert_eq. rewrite lookup_insert_ne by congruence.
      by destruct (typeDependencyMap s !! target).
    + by rewrite lookup_insert_ne.
Qed.

Lemma track_again (target : objid) (key : string) (s : store) (e : fnid) :
  activeEffect s = Some e → e ∈ subscribers s target key →
  track target key s = Returns () s.
Proof.
  intros Ha He. unfold track. rewrite Ha. cbv zeta. f_equal.
  unfold subscribers in He.
  destruct (typeDependencyMap s !! target) as [depMap|] eqn:Et;
    [|by apply elem_of_nil in He].
  destruct (depMap !! key) as [l|] eqn:Ek; [|by apply elem_of_nil in He].
  simpl in *. rewrite Ek. simpl. rewrite (set_add_already _ _ He).
  rewrite (insert_id depMap) by done. rewrite insert_id by done.
  by destruct s.
Qed.

Lemma exec_S (n : nat) (a : action) :
  exec (S n) a
  = match a with
    | Read target key =>
        _ ← get (reactive_with (trigger_with (effectFn n) n) target) key; mret ()
    | Write target key v =>
        result ← set (reactive_with (trigger_with (effectFn n) n) target) key v;
        if result : bool then mret () else throw_exn
    | CallEffect fn => effect_with (effectFn n) fn
    | CallTrack target key => track target key
    | CallTrigger target key => trigger_with (effectFn n) n target key
    | ThrowStmt => throw_exn
    end.
Proof. done. Qed.

Lemma effectFn_S (n : nat) (self : fnid) (s : store) :
  effectFn (S n) self s
  = match closures s !! self with
    | None => Throws s
    | Some fn =>
        (modify (with_activeEffect (Some self));;
         modify (λ s, with_calls (calls s ++ [self]) s);;
         run_with (exec n) fn;;
         modify (with_activeEffect None)) s
    end.
Proof. done. Qed.

(** *** The subscriber sets never hold a closure twice *)

Lemma nodup_same_map (s s' : store) :
  typeDependencyMap s' = typeDependencyMap s → dep_sets_nodup s → dep_sets_nodup s'.
Proof. intros H Hs t k. unfold subscribers. rewrite H. apply Hs. Qed.

Lemma keeps_nodup_bind {A B} (m : R A) (f : A → R B) :
  keeps_nodup m → (∀ a, keeps_nodup (f a)) → keeps_nodup (m ≫= f).
Proof.
  intros Hm Hf s Hs. unfold mbind, R_bind. specialize (Hm s Hs).
  destruct (m s) as [a s1|s1|]; [by apply Hf|done..].
Qed.

Lemma keeps_nodup_ret {A} (a : A) : keeps_nodup (mret a : R A).
Proof. by intros s Hs. Qed.

Lemma keeps_nodup_throw {A} : keeps_nodup (throw_exn : R A).
Proof. by intros s Hs. Qed.

Lemma keeps_nodup_timeout {A} : keeps_nodup (timeout : R A).
Proof. by intros s Hs. Qed.

Lemma keeps_nodup_modify (f : store → store) :
  (∀ s, typeDependencyMap (f s) = typeDependencyMap s) → keeps_nodup (modify f).
Proof. intros H s Hs. simpl. by apply (nodup_same_map s). Qed.

Lemma keeps_nodup_track (target : objid) (key : string) :
  keeps_nodup (track target key).
Proof.
  intros s Hs. destruct (activeEffect s) as [e|] eqn:Ha.
  - destruct (track_active target key s e Ha) as (s' & -> & Hsame & Hother & _).
    intros t k. destruct (decide ((t, k) = (target, key))) as [[= -> ->]|Hne].
    + rewrite Hsame. apply set_add_NoDup, Hs.
    + rewrite (Hother t k Hne). apply Hs.
  - by rewrite track_inactive.
Qed.

Lemma keeps_nodup_Reflect_get (target : objid) (key : string) :
  keeps_nodup (Reflect_get target key).
Proof. by intros s Hs. Qed.

Lemma keeps_nodup_Reflect_set (target : objid) (key : string) (v : value) :
  keeps_nodup (Reflect_set target key v).
Proof.
  intros s Hs. unfold Reflect_set. destruct (frozen _); [done|].
  by apply (nodup_same_map s).
Qed.

Lemma keeps_nodup_forEach (f : fnid → R unit) (n : nat) (target : objid)
  (key : string) (i : nat) :
  (∀ e, keeps_nodup (f e)) → keeps_nodup (forEach_with f n target key i).
Proof.
  intros Hf. revert i. induction n as [|n IH]; intros i; [apply keeps_nodup_timeout|].
  intros s Hs. simpl. destruct (subscribers s target key !! i) as [e|]; [|done].
  apply (keeps_nodup_bind (f e) (λ _, forEach_with f n target key (S i)));
    [apply Hf|intros _; apply IH|done].
Qed.

Lemma keeps_nodup_trigger (f : fnid → R unit) (n : nat) (target : objid)
  (key : string) :
  (∀ e, keeps_nodup (f e)) → keeps_nodup (trigger_with f n target key).
Proof.
  intros Hf s Hs. unfold trigger_with.
  destruct (typeDependencyMap s !! target) as [depMap|]; [|done].
  destruct (depMap !! key); [|done]. by apply keeps_nodup_forEach.
Qed.

Lemma keeps_nodup_effect (f : fnid → R unit) (fn : list action) :
  (∀ e, keeps_nodup (f e)) → keeps_nodup (effect_with f fn).
Proof.
  intros Hf s Hs. unfold effect_with. apply Hf. by apply (nodup_same_map s).
Qed.

Lemma keeps_nodup_run (exec : action → R unit) (body : list action) :
  (∀ a, keeps_nodup (exec a)) → keeps_nodup (run_with exec body).
Proof.
  intros He. induction body as [|a body IH]; simpl; [apply keeps_nodup_ret|].
  apply keeps_nodup_bind; [apply He|by intros _].
Qed.

Lemma keeps_nodup_reactive (trigger : objid → string → R unit) (target : objid) :
  (∀ t k, keeps_nodup (trigger t k)) →
  (∀ key, keeps_nodup (get (reactive_with trigger target) key))
  ∧ (∀ key v, keeps_nodup (set (reactive_with trigger target) key v)).
Proof.
  intros Ht. split.
  - intros key. simpl. apply keeps_nodup_bind; [apply keeps_nodup_track|].
    intros _. apply keeps_nodup_Reflect_get.
  - intros key v. simpl. apply keeps_nodup_bind; [apply keeps_nodup_Reflect_set|].
    intros result. apply keeps_nodup_bind; [|intros _; apply keeps_nodup_ret].
    destruct result; [apply Ht|apply keeps_nodup_ret].
Qed.

Lemma keeps_nodup_exec (fuel : nat) :
  (∀ a, keeps_nodup (exec fuel a)) ∧ (∀ e, keeps_nodup (effectFn fuel e)).
Proof.
  induction fuel as [|n [IHexec IHfn]].
  - split; intros; apply keeps_nodup_timeout.
  - assert (∀ t k, keeps_nodup (trigger_with (effectFn n) n t k)) as Htrig.
    { intros t k. by apply keeps_nodup_trigger. }
    split.
    + intros a. rewrite exec_S. destruct a as [t k|t k v|fn|t k|t k|].
      * apply keeps_nodup_bind; [by apply keeps_nodup_reactive|].
        intros _. apply keeps_nodup_ret.
      * apply keeps_nodup_bind; [by apply keeps_nodup_reactive|].
        intros []; [apply keeps_nodup_ret|apply keeps_nodup_throw].
      * by apply keeps_nodup_effect.
      * apply keeps_nodup_track.
      * apply Htrig.
      * apply keeps_nodup_throw.
    + intros e s Hs. rewrite effectFn_S.
      destruct (closures s !! e) as [fn|]; [|done].
      revert s Hs. change (keeps_nodup
        (modify (with_activeEffect (Some e));;
         modify (λ s, with_calls (calls s ++ [e]) s);;
         run_with (exec n) fn;;
         modify (with_activeEffect None))).
      apply keeps_nodup_bind; [by apply keeps_nodup_modify|intros _].
      apply keeps_nodup_bind; [by apply keeps_nodup_modify|intros _].
      apply keeps_nodup_bind; [by apply keeps_nodup_run|intros _].
      by apply keeps_nodup_modify.
Qed.

(** *** Subscribers that only read *)

Lemma read_active (n : nat) (target : objid) (key : string) (s : store) (e : fnid) :
  activeEffect s = Some e →
  ∃ s', exec (S n) (Read target key) s = Returns () s'
        ∧ subscribers s' target key = set_add e (subscribers s target key)
        ∧ (∀ t k, (t, k) ≠ (target, key) → subscribers s' t k = subscribers s t k)
        ∧ activeEffect s' = Some e ∧ heap s' = heap s
        ∧ closures s' = closures s ∧ calls s' = calls s.
Proof.
  intros Ha. destruct (track_active target key s e Ha) as (s' & E & H).
  exists s'. split; [|done]. rewrite exec_S. simpl.
  unfold mbind, R_bind. by rewrite E.
Qed.

Lemma read_inactive (n : nat) (target : objid) (key : string) (s : store) :
  activeEffect s = None → exec (S n) (Read target key) s = Returns () s.
Proof.
  intros Ha. rewrite exec_S. simpl. unfold mbind, R_bind.
  by rewrite track_inactive.
Qed.

Lemma run_reads (n : nat) (e : fnid) (fn : list action) (s : store) :
  forallb is_read fn = true → activeEffect s = Some e →
  ∃ s', run_with (exec (S n)) fn s = Returns () s'
        ∧ activeEffect s' = Some e ∧ heap s' = heap s
        ∧ closures s' = closures s ∧ calls s' = calls s
        ∧ (∀ t k, e ∈ subscribers s t k → subscribers s' t k = subscribers s t k).
Proof.
  revert s. induction fn as [|a fn IH]; intros s Hfn Ha; simpl.
  - by exists s.
  - simpl in Hfn. apply andb_prop in Hfn as [Hread Hfn].
    destruct a as [t k| | | | |]; try done.
    destruct (read_active n t k s e Ha)
      as (s1 & E1 & Hsame & Hother & Ha1 & Hh1 & Hc1 & Hl1).
    destruct (IH s1 Hfn Ha1) as (s2 & E2 & Ha2 & Hh2 & Hc2 & Hl2 & Hsub2).
    exists s2. rewrite (R_bind_Returns _ _ _ _ _ E1).
    split; [done|]. split; [done|]. split; [congruence|].
    split; [congruence|]. split; [congruence|].
    intros t0 k0 He.
    assert (subscribers s1 t0 k0 = subscribers s t0 k0) as Hs1.
    { destruct (decide ((t0, k0) = (t, k))) as [[= -> ->]|Hne].
      - by rewrite Hsame, set_add_already.
      - by apply Hother. }
    rewrite Hsub2; [done|]. by rewrite Hs1.
Qed.

Lemma effectFn_reader (n : nat) (e : fnid) (fn : list action) (s : store) :
  closures s !! e = Some fn → forallb is_read fn = true →
  ∃ s', effectFn (S (S n)) e s = Returns () s'
        ∧ activeEffect s' = None ∧ heap s' = heap s
        ∧ closures s' = closures s ∧ calls s' = calls s ++ [e]
        ∧ (∀ t k, e ∈ subscribers s t k → subscribers s' t k = subscribers s t k).
Proof.
  intros Hc Hfn. rewrite effectFn_S, Hc.
  destruct (run_reads n e fn
              (with_calls (calls s ++ [e]) (with_activeEffect (Some e) s)) Hfn eq_refl)
    as (s1 & E1 & Ha1 & Hh1 & Hc1 & Hl1 & Hsub1).
  exists (with_activeEffect None s1).
  unfold mbind at 1 2, R_bind, modify. rewrite (R_bind_Returns _ _ _ _ _ E1).
  split; [done|]. split; [done|]. split; [done|]. split; [done|]. split; [done|].
  intros t k He. by apply Hsub1.
Qed.

Lemma forEach_readers (n m : nat) (target : objid) (key : string) (i : nat)
  (s : store) :
  readers s target key →
  length (subscribers s target key) - i < m →
  ∃ s', forEach_with (effectFn (S (S n))) m target key i s = Returns () s'
        ∧ calls s' = calls s ++ drop i (subscribers s target key)
        ∧ subscribers s' target key = subscribers s target key
        ∧ closures s' = closures s ∧ heap s' = heap s.
Proof.
  revert i s. induction m as [|m IH]; intros i s Hr Hm; [lia|].
  simpl. destruct (subscribers s target key !! i) as [e|] eqn:Hi.
  - assert (e ∈ subscribers s target key) as He
      by (apply list_elem_of_lookup; eauto).
    destruct (Hr e He) as (fn & Hc & Hfn).
    destruct (effectFn_reader n e fn s Hc Hfn)
      as (s1 & E1 & Ha1 & Hh1 & Hc1 & Hl1 & Hsub1).
    pose proof (Hsub1 target key He) as Hsame.
    destruct (IH (S i) s1) as (s2 & E2 & Hl2 & Hsub2 & Hc2 & Hh2).
    { intros e' He'. rewrite Hsame in He'. rewrite Hc1. by apply Hr. }
    { rewrite Hsame. apply lookup_lt_Some in Hi. lia. }
    exists s2. rewrite (R_bind_Returns _ _ _ _ _ E1).
    split; [done|]. split; [|split; [congruence|split; congruence]].
    rewrite Hl2, Hl1, Hsame, <- app_assoc. simpl.
    by rewrite (drop_S _ _ _ Hi).
  - exists s. split; [done|]. split; [|done].
    apply lookup_ge_None in Hi. by rewrite drop_ge, app_nil_r.
Qed.

Lemma trigger_readers (fuel : nat) (target : objid) (key : string) (s : store) :
  readers s target key →
  (length (subscribers s target key) + 2 ≤ fuel)%nat →
  ∃ s', trigger fuel target key s = Returns () s'
        ∧ calls s' = calls s ++ subscribers s target key
        ∧ subscribers s' target key = subscribers s target key
        ∧ closures s' = closures s ∧ heap s' = heap s.
Proof.
  intros Hr Hfuel. destruct fuel as [|[|n]]; [lia..|].
  unfold trigger, trigger_with.
  destruct (typeDependencyMap s !! target) as [depMap|] eqn:Et.
  - destruct (depMap !! key) as [l|] eqn:Ek.
    + destruct (forEach_readers n (S (S n)) target key 0 s Hr) as (s' & E & H);
        [lia|].
      exists s'. by rewrite drop_0 in H.
    + exists s. unfold subscribers. rewrite Et, Ek. simpl. by rewrite app_nil_r.
  - exists s. unfold subscribers. rewrite Et. by rewrite app_nil_r.
Qed.

(** *** The active subscriber after a closure returns *)

Lemma effectFn_returns_inactive (fuel : nat) (e : fnid) :
  returns_inactive (effectFn fuel e).
Proof.
  intros s s'. destruct fuel as [|n]; [done|]. rewrite effectFn_S.
  destruct (closures s !! e) as [fn|]; [|done].
  intros (_ & s1 & _ & H)%R_bind_inv.
  apply R_bind_inv in H as (_ & s2 & _ & H).
  apply R_bind_inv in H as (_ & s3 & _ & H).
  by injection H as <-.
Qed.

Lemma keeps_inactive_bind {A B} (m : R A) (f : A → R B) :
  keeps_inactive m → (∀ a, keeps_inactive (f a)) → keeps_inactive (m ≫= f).
Proof.
  intros Hm Hf s b s' Ha (a & s1 & E1 & E2)%R_bind_inv.
  eapply Hf; [|exact E2]. by eapply Hm.
Qed.

Lemma keeps_inactive_ret {A} (a : A) : keeps_inactive (mret a : R A).
Proof. by intros s b s' Ha [= _ <-]. Qed.

Lemma keeps_inactive_of_returns (m : R unit) : returns_inactive m → keeps_inactive m.
Proof. intros H s [] s' _ E. by apply (H s). Qed.

Lemma keeps_inactive_forEach (f : fnid → R unit) (n : nat) (target : objid)
  (key : string) (i : nat) :
  (∀ e, returns_inactive (f e)) → keeps_inactive (forEach_with f n target key i).
Proof.
  intros Hf. revert i. induction n as [|n IH]; intros i s a s' Ha; [done|].
  simpl. destruct (subscribers s target key !! i) as [e|].
  - apply (keeps_inactive_bind (f e) (λ _, forEach_with f n target key (S i)));
      [by apply keeps_inactive_of_returns|intros _; apply IH|done].
  - by intros [= _ <-].
Qed.

Lemma keeps_inactive_trigger (f : fnid → R unit) (n : nat) (target : objid)
  (key : string) :
  (∀ e, returns_inactive (f e)) → keeps_inactive (trigger_with f n target key).
Proof.
  intros Hf s a s' Ha. unfold trigger_with.
  destruct (typeDependencyMap s !! target) as [depMap|]; [|by intros [= _ <-]].
  destruct (depMap !! key); [|by intros [= _ <-]].
  by apply keeps_inactive_forEach.
Qed.

Lemma keeps_inactive_exec (fuel : nat) (a : action) : keeps_inactive (exec fuel a).
Proof.
  destruct fuel as [|n]; [done|].
  pose proof (effectFn_returns_inactive n) as Hfn.
  destruct a as [t k|t k v|fn|t k|t k|]; [|rewrite exec_S..].
  - intros s [] s' Ha. rewrite read_inactive by done. by intros [= <-].
  - simpl. apply keeps_inactive_bind.
    + apply keeps_inactive_bind.
      * intros s b s' Ha. unfold Reflect_set. destruct (frozen _); by intros [= _ <-].
      * intros result. apply keeps_inactive_bind; [|intros _; apply keeps_inactive_ret].
        destruct result; [by apply keeps_inactive_trigger|apply keeps_inactive_ret].
    + intros []; [apply keeps_inactive_ret|done].
  - intros s [] s' _ E. unfold effect_with in E. by apply Hfn in E.
  - intros s [] s' Ha. rewrite track_inactive by done. by intros [= <-].
  - by apply keeps_inactive_trigger.
  - done.
Qed.

Lemma keeps_inactive_run (fuel : nat) (body : list action) :
  keeps_inactive (run_with (exec fuel) body).
Proof.
  induction body as [|a body IH]; simpl; [apply keeps_inactive_ret|].
  apply keeps_inactive_bind; [apply keeps_inactive_exec|by intros _].
Qed.

(** ** The claims about the reactivity engine *)

Lemma readers_written (target : objid) (key : string) (v : value) (s : store)
  (t : objid) (k : string) :
  readers s t k → readers (written target key v s) t k.
Proof. done. Qed.

(** C1, as amended: the wrapper calls [trigger(target, key)] after every
    write that the underlying [Reflect.set] reports as done, whatever the
    value written, and skips it only when the write is refused. So a write
    to a property whose subscribers only read, be it of the value already
    stored, returns having invoked each of them. *)
Theorem write_triggers_on_success (fuel : nat) (target : objid) (key : string)
  (v : value) (s : store) :
  (frozen (the_object s target) = false →
   set (reactive fuel target) key v s
   = (trigger fuel target key;; mret true) (written target key v s))
  ∧ (frozen (the_object s target) = true →
     set (reactive fuel target) key v s = Returns false s)
  ∧ (frozen (the_object s target) = false →
     readers s target key →
     (length (subscribers s target key) + 2 ≤ fuel)%nat →
     ∃ s', set (reactive fuel target) key v s = Returns true s'
           ∧ calls s' = calls s ++ subscribers s target key
           ∧ fields (the_object s' target) !! key = Some v).
Proof.
  assert (frozen (the_object s target) = false →
          set (reactive fuel target) key v s
          = (trigger fuel target key;; mret true) (written target key v s)) as Hok.
  { intros Hf. simpl. unfold mbind at 1, R_bind, Reflect_set. by rewrite Hf. }
  split; [exact Hok|]. split.
  - intros Hf. simpl. unfold mbind at 1, R_bind, Reflect_set. by rewrite Hf.
  - intros Hf Hr Hfuel. rewrite (Hok Hf).
    destruct (trigger_readers fuel target key (written target key v s))
      as (s' & E & Hcalls & _ & _ & Hheap); [by apply readers_written|done|].
    exists s'. rewrite (R_bind_Returns _ _ _ _ _ E).
    split; [done|]. split; [done|].
    unfold the_object. rewrite Hheap. simpl. rewrite lookup_insert_eq. simpl.
    by rewrite lookup_insert_eq.
Qed.

Lemma ex_subscribed_readers : readers ex_subscribed 0 "count".
Proof.
  intros e He.
  assert (subscribers ex_subscribed 0 "count" = [0]) as E by (by vm_compute).
  rewrite E in He. apply list_elem_of_singleton in He as ->.
  by exists [Read 0 "count"].
Qed.

Lemma write_triggers_on_success_witness :
  fields (the_object ex_subscribed 0) !! "count" = Some (num 0)
  ∧ ∃ s', set (reactive 3 0) "count" (num 0) ex_subscribed = Returns true s'
          ∧ calls s' = calls ex_subscribed ++ subscribers ex_subscribed 0 "count"
          ∧ fields (the_object s' 0) !! "count" = Some (num 0).
Proof.
  split; [by vm_compute|].
  apply (write_triggers_on_success 3 0 "count" (num 0) ex_subscribed).
  - by vm_compute.
  - exact ex_subscribed_readers.
  - vm_compute. lia.
Defined.

(** C1 as stated fails: the property holds 0, the effect that read it is
    subscribed and has run once; writing 0 again runs it a second time. So
    it is not the case that a write of the stored value invokes no
    subscriber. *)
Lemma write_same_value_counterexample :
  fields (the_object ex_subscribed 0) !! "count" = Some (num 0)
  ∧ subscribers ex_subscribed 0 "count" = [0]
  ∧ calls ex_subscribed = [0]
  ∧ (∃ s', set (reactive 3 0) "count" (num 0) ex_subscribed = Returns true s'
           ∧ fields (the_object s' 0) !! "count" = Some (num 0)
           ∧ calls s' = [0; 0])
  ∧ ¬ (∀ fuel target key v s b s',
         fields (the_object s target) !! key = Some v →
         set (reactive fuel target) key v s = Returns b s' →
         calls s' = calls s).
Proof.
  assert (fields (the_object ex_subscribed 0) !! "count" = Some (num 0)) as Hstored
    by (by vm_compute).
  assert (∃ s', set (reactive 3 0) "count" (num 0) ex_subscribed = Returns true s'
                ∧ fields (the_object s' 0) !! "count" = Some (num 0)
                ∧ calls s' = [0; 0]) as Hrun.
  { destruct (set (reactive 3 0) "count" (num 0) ex_subscribed) as [b s'| |] eqn:E;
      [|by vm_compute in E..].
    assert (b = true ∧ fields (the_object s' 0) !! "count" = Some (num 0)
            ∧ calls s' = [0; 0]) as (-> & H1 & H2).
    { vm_compute in E. injection E as <- <-. by vm_compute. }
    by exists s'. }
  split; [exact Hstored|]. split; [by vm_compute|]. split; [by vm_compute|].
  split; [exact Hrun|].
  intros H. destruct Hrun as (s' & E & _ & Hcalls).
  specialize (H 3 0 "count" (num 0) ex_subscribed true s' Hstored E).
  rewrite Hcalls in H. by vm_compute in H.
Qed.

(** C2, as amended: whenever an invocation of an effect's closure returns,
    that is whenever the callback returns normally, the active-subscriber
    pointer is cleared; this holds for the first run made by [effect] and
    for every later invocation of the closure. *)
Theorem effect_clears_on_return (fuel : nat) (fn : list action) (e : fnid)
  (s s' : store) :
  (effect fuel fn s = Returns () s' → activeEffect s' = None)
  ∧ (effectFn fuel e s = Returns () s' → activeEffect s' = None).
Proof.
  split.
  - unfold effect, effect_with. apply effectFn_returns_inactive.
  - apply effectFn_returns_inactive.
Qed.

Lemma effect_clears_on_return_witness :
  effect 3 [Read 0 "count"] ex_counter = Returns () ex_subscribed
  ∧ activeEffect ex_subscribed = None.
Proof.
  assert (effect 3 [Read 0 "count"] ex_counter = Returns () ex_subscribed) as E
    by (by vm_compute).
  split; [exact E|].
  exact (proj1 (effect_clears_on_return 3 [Read 0 "count"] 0 ex_counter
                  ex_subscribed) E).
Defined.

(** C2 as stated fails: a callback that throws ends the invocation with the
    pointer still set to the effect's closure. So it is not the case that
    the pointer is none however an invocation finishes. *)
Lemma effect_throw_counterexample :
  (∃ s', effect 3 [ThrowStmt] init_store = Throws s'
         ∧ activeEffect s' = Some 0)
  ∧ ¬ (∀ fuel fn s s',
         effect fuel fn s = Returns () s' ∨ effect fuel fn s = Throws s' →
         activeEffect s' = None).
Proof.
  assert (∃ s', effect 3 [ThrowStmt] init_store = Throws s'
                ∧ activeEffect s' = Some 0) as Hrun.
  { destruct (effect 3 [ThrowStmt] init_store) as [[] s'|s'|] eqn:E;
      [by vm_compute in E| |by vm_compute in E].
    exists s'. split; [done|].
    vm_compute in E. injection E as <-. by vm_compute. }
  split; [exact Hrun|].
  intros H. destruct Hrun as (s' & E & Ha).
  rewrite (H 3 [ThrowStmt] init_store s' (or_intror E)) in Ha. discriminate.
Qed.

(** C8: no run of callbacks, whatever they track, trigger or register and
    however it ends, puts a closure twice into a subscriber set. With an
    active subscriber [track] records it under [(target, key)], creating
    the map and the set where they are missing; with none it does nothing;
    and tracking a closure that is already recorded changes nothing. So one
    [trigger(target, key)] over subscribers that only read invokes exactly
    the recorded closures, each of them once. *)
Theorem subscriber_sets_have_no_duplicates :
  dep_sets_nodup init_store
  ∧ (∀ fuel body s s',
       dep_sets_nodup s →
       run fuel body s = Returns () s' ∨ run fuel body s = Throws s' →
       dep_sets_nodup s')
  ∧ (∀ s target key e,
       activeEffect s = Some e →
       ∃ s', track target key s = Returns () s'
             ∧ subscribers s' target key = set_add e (subscribers s target key)
             ∧ e ∈ subscribers s' target key
             ∧ (e ∈ subscribers s target key → s' = s))
  ∧ (∀ s target key,
       activeEffect s = None → track target key s = Returns () s)
  ∧ (∀ s target key fuel,
       dep_sets_nodup s → readers s target key →
       (length (subscribers s target key) + 2 ≤ fuel)%nat →
       ∃ s', trigger fuel target key s = Returns () s'
             ∧ calls s' = calls s ++ subscribers s target key
             ∧ NoDup (subscribers s target key)).
Proof.
  split; [|split; [|split; [|split]]].
  - intros t k. unfold subscribers. simpl. rewrite lookup_empty. constructor.
  - intros fuel body s s' Hs Hrun.
    pose proof (keeps_nodup_run (exec fuel) body
                  (proj1 (keeps_nodup_exec fuel)) s Hs) as H.
    unfold run in Hrun. by destruct Hrun as [E|E]; rewrite E in H.
  - intros s target key e Ha.
    destruct (track_active target key s e Ha) as (s' & E & Hsame & _).
    exists s'. split; [done|]. split; [done|]. split.
    + rewrite Hsame. apply set_add_elem.
    + intros He. rewrite (track_again target key s e Ha He) in E. congruence.
  - intros s target key Ha. by apply track_inactive.
  - intros s target key fuel Hs Hr Hfuel.
    destruct (trigger_readers fuel target key s Hr Hfuel) as (s' & E & Hcalls & _).
    exists s'. split; [done|]. split; [done|]. apply Hs.
Qed.

Lemma subscriber_sets_have_no_duplicates_witness :
  dep_sets_nodup ex_subscribed
  ∧ (∃ s', trigger 3 0 "count" ex_subscribed = Returns () s'
           ∧ calls s' = calls ex_subscribed ++ subscribers ex_subscribed 0 "count"
           ∧ NoDup (subscribers ex_subscribed 0 "count"))
  ∧ (∃ s', track 0 "count" (with_activeEffect (Some 0) ex_subscribed)
           = Returns () s'
           ∧ s' = with_activeEffect (Some 0) ex_subscribed).
Proof.
  destruct subscriber_sets_have_no_duplicates as (H0 & Hrun & Htrack & _ & Htrig).
  assert (dep_sets_nodup ex_subscribed) as Hnodup.
  { apply (Hrun 4 [CallEffect [Read 0 "count"]] ex_counter ex_subscribed).
    - intros t k. unfold subscribers. simpl. rewrite lookup_empty. constructor.
    - left. by vm_compute. }
  split; [exact Hnodup|]. split.
  - apply (Htrig ex_subscribed 0 "count" 3 Hnodup ex_subscribed_readers).
    vm_compute. lia.
  - destruct (Htrack (with_activeEffect (Some 0) ex_subscribed) 0 "count" 0 eq_refl)
      as (s' & E & _ & _ & Hsame).
    exists s'. split; [done|]. apply Hsame. vm_compute.
    apply list_elem_of_singleton. reflexivity.
Defined.

(** C9: when the callback of an outer effect registers a nested effect and
    that registration returns, the active-subscriber pointer is none, not
    the outer closure, and it is still none after whatever the callback
    does next; a property read made then leaves the store as it is, so it
    is not recorded for the outer effect, whereas the same read made before
    the nested registration is recorded for it. *)
Theorem nested_effect_clears_outer (n : nat) (g rest : list action) (e : fnid)
  (s s1 : store) :
  activeEffect s = Some e →
  run_with (exec n) (CallEffect g :: rest) s = Returns () s1 →
  activeEffect s1 = None
  ∧ (∀ m target key, exec (S m) (Read target key) s1 = Returns () s1)
  ∧ (∀ m target key,
       ∃ s2, exec (S m) (Read target key) s = Returns () s2
             ∧ e ∈ subscribers s2 target key).
Proof.
  intros Ha Hrun. simpl in Hrun.
  apply R_bind_inv in Hrun as ([] & s0 & E0 & Erest).
  assert (activeEffect s0 = None) as Ha0.
  { destruct n as [|n]; [done|]. rewrite exec_S in E0.
    unfold effect_with in E0. by apply effectFn_returns_inactive in E0. }
  assert (activeEffect s1 = None) as Ha1
    by (by apply (keeps_inactive_run n rest s0 () s1)).
  split; [done|]. split.
  - intros m target key. by apply read_inactive.
  - intros m target key.
    destruct (read_active m target key s e Ha) as (s2 & E2 & Hsame & _).
    exists s2. split; [done|]. rewrite Hsame. apply set_add_elem.
Qed.

Lemma nested_effect_clears_outer_witness :
  activeEffect ex_outer_running = Some 0
  ∧ ∃ s1, run_with (exec 3) [CallEffect []] ex_outer_running = Returns () s1
          ∧ activeEffect s1 = None
          ∧ exec 1 (Read 0 "count") s1 = Returns () s1
          ∧ subscribers s1 0 "count" = [].
Proof.
  split; [reflexivity|].
  destruct (run_with (exec 3) [CallEffect []] ex_outer_running) as [[] s1| |] eqn:E;
    [|by vm_compute in E..].
  exists s1. split; [done|].
  destruct (nested_effect_clears_outer 3 [] [] 0 ex_outer_running s1 eq_refl E)
    as (Ha & Hread & _).
  split; [exact Ha|]. split; [apply Hread|].
  vm_compute in E. injection E as <-. by vm_compute.
Defined.

(** * Further properties *)

(** ** [h] *)

Lemma flat_infinity_app (a b : list harg) :
  flat_infinity (a ++ b) = flat_infinity a ++ flat_infinity b.
Proof. unfold flat_infinity. apply flat_map_app. Qed.

Lemma flat_infinity_array (m : list harg) : flat_infinity [HArr m] = flat_infinity m.
Proof. unfold flat_infinity. simpl. apply app_nil_r. Qed.

Lemma flattened_children (cs : list child) : flattened (of_child <$> cs) = cs.
Proof.
  unfold flattened. induction cs as [|c cs IH]; [done|].
  rewrite fmap_cons. simpl. rewrite IH. by destruct c.
Qed.

Lemma h_children (type : string) (props : option PropType) (args : list harg) :
  h type props args = mkVNode type props (flattened args).
Proof. unfold h. by rewrite leaves_flat_infinity. Qed.

Lemma flattened_app (a b : list harg) : flattened (a ++ b) = flattened a ++ flattened b.
Proof. unfold flattened. apply flat_map_app. Qed.

(** X1: handing [h] an array of children is the same as spreading it, at
    any position among the arguments, and the children of a call are the
    children of its leading arguments followed by those of the rest. *)
Theorem h_array_is_spread (type : string) (props : option PropType)
  (before items after : list harg) :
  h type props (before ++ HArr items :: after)
  = h type props (before ++ items ++ after)
  ∧ children (h type props (before ++ after))
    = children (h type props before) ++ children (h type props after).
Proof.
  rewrite !h_children. split.
  - assert (flattened [HArr items] = flattened items) as Harr
      by (unfold flattened; simpl; apply app_nil_r).
    change (HArr items :: after) with ([HArr items] ++ after).
    by rewrite !flattened_app, Harr.
  - simpl. apply flattened_app.
Qed.

(** X2: arguments that are already nodes and strings are kept as they are,
    so building a node again from the children of a node built by [h]
    gives the same node. *)
Theorem h_keeps_children (type : string) (props : option PropType)
  (cs : list child) (args : list harg) :
  h type props (of_child <$> cs) = mkVNode type props cs
  ∧ h type props (of_child <$> children (h type props args)) = h type props args.
Proof.
  rewrite !h_children. split.
  - by rewrite flattened_children.
  - simpl. by rewrite flattened_children.
Qed.

(** ** [render] *)

Lemma set_assoc_fresh (k v : string) (l : list (string * string)) :
  k ∉ l.*1 → set_assoc k v l = l ++ [(k, v)].
Proof.
  induction l as [|[k' v'] l IH]; simpl; [done|].
  intros H. apply not_elem_of_cons in H as [Hne Hl].
  destruct (String.eqb_spec k' k) as [->|_]; [done|]. by rewrite IH.
Qed.

Lemma render_props_fold (ps : PropType) (t : string) (a : list (string * string))
  (l : list (string * value)) (cs : list Node) :
  NoDup (a ++ plain_attributes ps).*1 → NoDup (l ++ bound_listeners ps) →
  foldl (λ el kv,
           if startsWith "on" kv.1 && is_function kv.2
           then add_listener (event_name kv.1) kv.2 el
           else set_attribute kv.1 kv.2 el)
        (Element t a l cs) ps
  = Element t (a ++ plain_attributes ps) (l ++ bound_listeners ps) cs.
Proof.
  revert a l. induction ps as [|[k v] ps IH]; intros a l Has Hls.
  - unfold plain_attributes, bound_listeners. simpl. by rewrite !app_nil_r.
  - unfold plain_attributes, bound_listeners in *. cbn [foldl fst snd].
    change (startsWith "on" k && is_function v) with (is_listener k v).
    destruct (is_listener k v) eqn:E.
    + rewrite (filter_cons_True (λ kv, is_listener kv.1 kv.2 = true)) in * by done.
      rewrite (filter_cons_False (λ kv, is_listener kv.1 kv.2 = false)) in *
        by (simpl; congruence).
      rewrite fmap_cons in *. cbn [fst snd] in *.
      assert ((event_name k, v) ∉ l) as Hnew.
      { apply NoDup_app in Hls as (_ & Hdis & _). intros Hin.
        apply (Hdis _ Hin). left. }
      assert (is_object v = true) as Hobj.
      { apply is_function_object. unfold is_listener in E.
        by apply andb_prop in E as [_ ?]. }
      cbn [add_listener]. rewrite decide_False, Hobj by done.
      rewrite IH; [by rewrite <- app_assoc|done|by rewrite <- app_assoc].
    + rewrite (filter_cons_False (λ kv, is_listener kv.1 kv.2 = true)) in *
        by (simpl; congruence).
      rewrite (filter_cons_True (λ kv, is_listener kv.1 kv.2 = false)) in * by done.
      rewrite fmap_cons in *. cbn [fst snd set_attribute] in *.
      rewrite set_assoc_fresh.
      2:{ rewrite fmap_app, fmap_cons in Has.
          apply NoDup_app in Has as (_ & Hdis & _). intros Hin.
          apply (Hdis _ Hin). left. }
      rewrite IH; [by rewrite <- app_assoc|by rewrite <- app_assoc|done].
Qed.

(** X3: [render] builds one element with the node's tag; its attributes
    are the keys of the mapping that are not listener bindings, in the
    mapping's order, each under its name in lower case and with the string
    form of its value; its listeners are the listener bindings under their
    event names; its children are the rendered children in order, a string
    as a text node. This holds when no two attribute keys of the mapping
    agree up to case (the host keeps the later value under the one name),
    and no two keys bind the same function to the same event (the host
    keeps it once). *)
Theorem render_element (t : string) (ps : option PropType) (cs : list child) :
  NoDup (plain_attributes (default [] ps)).*1 →
  NoDup (bound_listeners (default [] ps)) →
  render (mkVNode t ps cs)
  = Element t (plain_attributes (default [] ps)) (bound_listeners (default [] ps))
            (render_child <$> cs).
Proof.
  intros Hkeys Hls. simpl.
  rewrite render_props_fold; [|done..].
  simpl. rewrite <- (foldl_fmap (λ el c, append_child c el) _ cs render_child).
  by rewrite foldl_append_child.
Qed.

Lemma render_element_witness :
  render (mkVNode "button" (Some [("tabIndex", num 0); ("onClick", VFun 7 "f")])
                  [CText "go"])
  = Element "button" [("tabindex", "0")] [("click", VFun 7 "f")] [TextNode "go"].
Proof.
  apply (render_element "button" (Some [("tabIndex", num 0); ("onClick", VFun 7 "f")])
           [CText "go"]); apply NoDup_singleton.
Defined.

(** ** [patch]: what the live tree is afterwards *)

Lemma node_at_alter_at_below (f : Node → Node) (t : Node) (p q : path) :
  node_at (alter_at f p t) (p ++ q) = node_at t p ≫= λ n, node_at (f n) q.
Proof.
  rewrite node_at_app, node_at_alter_at. by destruct (node_at t p).
Qed.

Lemma replaceChild_live (p : path) (i : nat) (new : Node) (s : host) (c : Node) :
  node_at (tree s) (p ++ [i]) = Some c →
  replaceChild (Some p) new (Some (p ++ [i])) s
  = Ok () (perform s (ReplaceChild p i new)).
Proof.
  intros Hc. destruct (proj1 (node_at_child _ _ _ _) Hc) as (n & Hn & _).
  unfold replaceChild.
  rewrite (bind_Ok _ _ _ _ _ (get_node_live _ _ _ Hn)).
  rewrite (bind_Ok _ _ _ _ _ (get_node_live _ _ _ Hc)). simpl.
  unfold mbind, M_bind; simpl. by rewrite child_index_snoc.
Qed.

(** [render] makes an element whose attributes and listeners depend on the
    tag and the mapping only. *)
Lemma render_as_element (t : string) (ps : option PropType) :
  ∃ a l, ∀ cs, render (mkVNode t ps cs) = Element t a l (render_child <$> cs).
Proof.
  assert (∀ l a0 l0,
            ∃ a1 l1,
              foldl (λ el kv,
                       if startsWith "on" kv.1 && is_function kv.2
                       then add_listener (event_name kv.1) kv.2 el
                       else set_attribute kv.1 kv.2 el)
                    (Element t a0 l0 []) l
              = Element t a1 l1 []) as Hattrs.
  { induction l as [|kv l IH]; intros a0 l0; simpl; [eauto|].
    destruct (_ && _); simpl; apply IH. }
  destruct (Hattrs (default [] ps) [] []) as (a & l & E).
  exists a, l. intros cs. simpl. rewrite E.
  rewrite <- (foldl_fmap (λ el c, append_child c el) _ cs render_child).
  by rewrite foldl_append_child.
Qed.

(** X4: a new node with another tag replaces the live child at [index]
    with its freshly rendered subtree, in one host call, whatever the two
    nodes otherwise share; the live child is then exactly what [render]
    builds from the new node. *)
Theorem patch_replaces_on_tag_change (p : path) (index : nat) (s : host)
  (new old : VNode) (c : Node) :
  type new ≠ type old →
  node_at (tree s) (p ++ [index]) = Some c →
  patch (Some p) (Some new) (Some old) index s
  = Ok () (perform s (ReplaceChild p index (render new)))
  ∧ node_at (tree (perform s (ReplaceChild p index (render new)))) (p ++ [index])
    = Some (render new).
Proof.
  intros Htag Hc. destruct (proj1 (node_at_child _ _ _ _) Hc) as (n & Hn & Hi).
  split.
  - unfold patch, patch_fuel. change (2 + ?k) with (S (S k)). simpl patch_rec.
    rewrite (bind_Ok _ _ _ _ _ (childNodes_live _ index _ _ Hn)). rewrite Hi.
    destruct (String.eqb_spec (type new) (type old)) as [|_]; [done|]. simpl.
    by apply (replaceChild_live _ _ _ _ c).
  - simpl. rewrite node_at_alter_at_below, Hn. simpl.
    destruct n as [|tag a l cs]; [done|]. simpl in *.
    rewrite list_lookup_insert_eq; [done|]. by apply lookup_lt_Some in Hi.
Qed.

Lemma patch_replaces_on_tag_change_witness :
  patch (Some [0]) (Some ex_list2) (Some ex_X) 0 (ex_document ex_X)
  = Ok () (perform (ex_document ex_X) (ReplaceChild [0] 0 (render ex_list2)))
  ∧ tree (perform (ex_document ex_X) (ReplaceChild [0] 0 (render ex_list2)))
    = tree (ex_document ex_list2).
Proof.
  split; [|reflexivity].
  apply (patch_replaces_on_tag_change [0] 0 (ex_document ex_X) ex_list2 ex_X
           (render ex_X)); [discriminate|reflexivity].
Defined.

(** The rounds of [patch] over a common prefix [cs] of the two child lists
    of nodes with the same tag and mapping: attribute calls at most, after
    which the rounds over the two tails remain. *)
Lemma patch_after_prefix (p : path) (index : nat) (s : host) (t : string)
  (ps : option PropType) (cs tn to : list child) :
  node_at (tree s) (p ++ [index]) = Some (render (mkVNode t ps (cs ++ to))) →
  ∃ ops, silent_ops (nan_free (mkVNode t ps cs)) ops ∧
    patch (Some p) (Some (mkVNode t ps (cs ++ tn))) (Some (mkVNode t ps (cs ++ to)))
          index s
    = for_range (Nat.max (length tn) (length to)) (length cs)
        (patch_child (patch_rec (S (height (mkVNode t ps (cs ++ tn)))))
           (Some (p ++ [index])) (cs ++ tn) (cs ++ to))
        (foldl perform s ops).
Proof.
  intros Hlive. pose proof (rendered_shape _ _ _ Hlive) as Hshape.
  set (new := mkVNode t ps (cs ++ tn)).
  set (ops0 := issued_ops (p ++ [index]) (default [] ps) (default [] ps)).
  pose proof (issued_ops_silent (p ++ [index]) ps) as F0. fold ops0 in F0.
  destruct (patch_prefix (S (height new)) (p ++ [index]) t ps cs (cs ++ to)
              (cs ++ tn) (cs ++ to) (foldl perform s ops0) s) as (ops1 & E1 & F1).
  { intros i c Hc. split; [|split]; by apply lookup_app_l_Some. }
  { intros i w Hc. apply Nat.lt_lt_succ_r.
    apply (height_child t ps (cs ++ tn) i w). by apply lookup_app_l_Some. }
  { done. }
  { rewrite skeleton_perform_all; [done|apply F0]. }
  exists (ops0 ++ ops1). split.
  { apply silent_ops_app; [|done].
    eapply silent_ops_weaken; [|exact F0]. apply nan_free_props. }
  unfold patch, patch_fuel. fold new.
  change (2 + height new) with (S (S (height new))).
  unfold new at 2. rewrite (patch_rec_same_tag _ _ _ _ _ _ _ _ _ _ Hlive).
  rewrite (bind_Ok _ _ _ _ _
             (updateProps_live _ ps ps s (shaped_element _ _ _ Hshape)
                (removals_accepted_same _))).
  fold ops0. rewrite !length_app, Nat.add_max_distr_l.
  rewrite for_range_app.
  rewrite (bind_Ok _ _ _ _ _ E1). by rewrite foldl_app.
Qed.

(** The live element a run of attribute calls leaves where a subtree was
    rendered: an element with as many children. *)
Lemma live_after_attr_ops (s : host) (ops : list hostop) (el : path) (t : string)
  (ps : option PropType) (cs : list child) :
  Forall attr_op ops →
  node_at (tree s) el = Some (render (mkVNode t ps cs)) →
  ∃ m, node_at (tree (foldl perform s ops)) el = Some m
       ∧ is_element m = true
       ∧ length (child_nodes m) = length cs.
Proof.
  intros Hops Hlive.
  pose proof (node_at_skeleton (tree (foldl perform s ops)) el) as H.
  rewrite skeleton_perform_all, node_at_skeleton, Hlive in H by done.
  destruct (node_at (tree (foldl perform s ops)) el) as [m|] eqn:E; [|done].
  assert (skeleton m = skeleton (render (mkVNode t ps cs))) as Hm
    by (by injection H).
  clear H. exists m. split; [done|]. split.
  - by rewrite <- is_element_skeleton, Hm, is_element_skeleton, render_is_element.
  - rewrite <- (length_fmap skeleton), <- child_nodes_skeleton, Hm.
    by rewrite child_nodes_skeleton, render_children, !length_fmap.
Qed.

Lemma bind_Throws {A B} (m : M A) (f : A → M B) (s s' : host) (e : error) :
  m s = Throw e s' → (m ≫= f) s = Throw e s'.
Proof. unfold mbind, M_bind. by intros ->. Qed.

Lemma replaceChild_undefined (p : path) (new n : Node) (s : host) :
  node_at (tree s) p = Some n →
  replaceChild (Some p) new None s = Throw HostError s.
Proof.
  intros Hn. unfold replaceChild.
  by rewrite (bind_Ok _ _ _ _ _ (get_node_live _ _ _ Hn)).
Qed.

Lemma removeChild_undefined (p : path) (n : Node) (s : host) :
  node_at (tree s) p = Some n →
  removeChild (Some p) None s = Throw HostError s.
Proof.
  intros Hn. unfold removeChild.
  by rewrite (bind_Ok _ _ _ _ _ (get_node_live _ _ _ Hn)).
Qed.

Lemma append_rendered (t : string) (ps : option PropType) (cs : list child)
  (c : child) :
  append_child (render_child c) (render (mkVNode t ps cs))
  = render (mkVNode t ps (cs ++ [c])).
Proof.
  destruct (render_as_element t ps) as (a & l & E).
  by rewrite !E, fmap_app.
Qed.

Lemma remove_last_rendered (t : string) (ps : option PropType) (cs : list child)
  (c : child) :
  remove_child (length cs) (render (mkVNode t ps (cs ++ [c])))
  = render (mkVNode t ps cs).
Proof.
  destruct (render_as_element t ps) as (a & l & E).
  rewrite !E, fmap_app. simpl. f_equal.
  rewrite <- (length_fmap render_child cs).
  rewrite delete_middle. apply app_nil_r.
Qed.

Lemma replace_last_rendered (t : string) (ps : option PropType) (cs : list child)
  (c d : child) :
  replace_child (length cs) (render_child d) (render (mkVNode t ps (cs ++ [c])))
  = render (mkVNode t ps (cs ++ [d])).
Proof.
  destruct (render_as_element t ps) as (a & l & E).
  rewrite !E, !fmap_app. simpl. f_equal.
  rewrite <- (length_fmap render_child cs).
  by rewrite insert_app_r_alt, Nat.sub_diag by lia.
Qed.

Lemma node_at_perform_here (s : host) (el : path) (n : Node) (op : hostop)
  (f : Node → Node) :
  apply_op op = alter_at f el →
  node_at (tree s) el = Some n →
  node_at (tree (perform s op)) el = Some (f n).
Proof. intros Hop Hn. simpl. by rewrite Hop, node_at_alter_at, Hn. Qed.

Lemma patch_grow_live (p : path) (index : nat) (s : host) (t : string)
  (ps : option PropType) (cs : list child) (z : VNode) :
  nan_free (mkVNode t ps cs) = true →
  node_at (tree s) (p ++ [index]) = Some (render (mkVNode t ps cs)) →
  patch (Some p) (Some (mkVNode t ps (cs ++ [CNode z]))) (Some (mkVNode t ps cs))
        index s
  = Ok () (perform s (AppendChild (p ++ [index]) (render z)))
  ∧ node_at (tree (perform s (AppendChild (p ++ [index]) (render z)))) (p ++ [index])
    = Some (render (mkVNode t ps (cs ++ [CNode z]))).
Proof.
  intros Hnan Hlive.
  destruct (patch_grow p index s t ps cs z Hlive) as (ops & [_ Hops] & E).
  rewrite (Hops Hnan) in E. split; [exact E|].
  rewrite (node_at_perform_here _ _ _ (AppendChild _ _) _ eq_refl Hlive).
  f_equal. apply (append_rendered t ps cs (CNode z)).
Qed.

(** X5: when a child list grows or shrinks by one node at its end, and no
    attribute value of the part both trees share is NaN, the live subtree
    is afterwards exactly what [render] builds from the new tree. *)
Theorem patch_by_one_matches_render (p : path) (index : nat) (s : host)
  (t : string) (ps : option PropType) (cs : list child) (z : VNode) :
  nan_free (mkVNode t ps cs) = true →
  (node_at (tree s) (p ++ [index]) = Some (render (mkVNode t ps cs)) →
   ∃ s', patch (Some p) (Some (mkVNode t ps (cs ++ [CNode z])))
               (Some (mkVNode t ps cs)) index s = Ok () s'
         ∧ node_at (tree s') (p ++ [index])
           = Some (render (mkVNode t ps (cs ++ [CNode z]))))
  ∧ (node_at (tree s) (p ++ [index])
     = Some (render (mkVNode t ps (cs ++ [CNode z]))) →
     ∃ s', patch (Some p) (Some (mkVNode t ps cs))
                 (Some (mkVNode t ps (cs ++ [CNode z]))) index s = Ok () s'
           ∧ node_at (tree s') (p ++ [index]) = Some (render (mkVNode t ps cs))).
Proof.
  intros Hnan. split; intros Hlive.
  - eexists. by apply patch_grow_live.
  - destruct (patch_shrink p index s t ps cs z Hlive) as (ops & [_ Hops] & E).
    rewrite (Hops Hnan) in E. eexists. split; [exact E|].
    rewrite (node_at_perform_here _ _ _ (RemoveChild _ _) _ eq_refl Hlive).
    f_equal. apply remove_last_rendered.
Qed.

Lemma patch_by_one_matches_render_witness :
  (∃ s', patch (Some [0]) (Some ex_list3) (Some ex_list2) 0 (ex_document ex_list2)
         = Ok () s'
         ∧ node_at (tree s') ([0] ++ [0]) = Some (render ex_list3))
  ∧ (∃ s', patch (Some [0]) (Some ex_list2) (Some ex_list3) 0 (ex_document ex_list3)
           = Ok () s'
           ∧ node_at (tree s') ([0] ++ [0]) = Some (render ex_list2)).
Proof.
  destruct (patch_by_one_matches_render [0] 0 (ex_document ex_list2) "ul" None
              [CNode ex_X; CNode ex_Y] ex_Z eq_refl) as [H _].
  destruct (patch_by_one_matches_render [0] 0 (ex_document ex_list3) "ul" None
              [CNode ex_X; CNode ex_Y] ex_Z eq_refl) as [_ H'].
  split; [exact (H eq_refl)|exact (H' eq_refl)].
Defined.

(** X6: when the last child of both trees is a string and the two strings
    differ, [patch] replaces that child by a text node with the new string;
    whatever else it issues is an attribute call on the unchanged part, and
    when there is none the live subtree is afterwards what [render] builds
    from the new tree. *)
Theorem patch_replaces_changed_text (p : path) (index : nat) (s : host)
  (t : string) (ps : option PropType) (cs : list child) (a b : string) :
  a ≠ b →
  node_at (tree s) (p ++ [index]) = Some (render (mkVNode t ps (cs ++ [CText a]))) →
  ∃ ops, silent_ops (nan_free (mkVNode t ps cs)) ops ∧
    patch (Some p) (Some (mkVNode t ps (cs ++ [CText b])))
          (Some (mkVNode t ps (cs ++ [CText a]))) index s
    = Ok () (perform (foldl perform s ops)
               (ReplaceChild (p ++ [index]) (length cs) (TextNode b)))
    ∧ (ops = [] →
       node_at (tree (perform s (ReplaceChild (p ++ [index]) (length cs) (TextNode b))))
               (p ++ [index])
       = Some (render (mkVNode t ps (cs ++ [CText b])))).
Proof.
  intros Hab Hlive.
  destruct (patch_after_prefix p index s t ps cs [CText b] [CText a] Hlive)
    as (ops & Hsilent & E).
  exists ops. split; [done|]. split.
  - rewrite E. simpl for_range.
    destruct (live_after_attr_ops s ops (p ++ [index]) t ps (cs ++ [CText a])
                (proj1 Hsilent) Hlive) as (m & Hm & Hel & Hlen).
    rewrite length_app in Hlen. simpl in Hlen.
    unfold patch_child.
    rewrite !(lookup_app_r cs) by lia. rewrite Nat.sub_diag. simpl.
    destruct (String.eqb_spec b a) as [->|_]; [done|]. simpl.
    destruct (lookup_lt_is_Some_2 (child_nodes m) (length cs)) as [c Hc]; [lia|].
    erewrite bind_Ok; [done|].
    rewrite (bind_Ok _ _ _ _ _ (get_node_live _ _ _ Hm)).
    rewrite (bind_Ok _ _ _ _ (TextNode b)) by done.
    rewrite (bind_Ok _ _ _ _ _ (childNodes_live _ (length cs) _ _ Hm)).
    rewrite Hc.
    apply (replaceChild_live _ _ _ _ c). apply node_at_child. eauto.
  - intros _.
    rewrite (node_at_perform_here _ _ _ (ReplaceChild _ _ _) _ eq_refl Hlive).
    f_equal. apply (replace_last_rendered t ps cs (CText a) (CText b)).
Qed.

Lemma patch_replaces_changed_text_witness :
  patch (Some [0]) (Some (mkVNode "li" (Some [("key", num 2)]) [CText "deux"]))
        (Some ex_Y) 0 (ex_document ex_Y)
  = Ok () (perform (ex_document ex_Y) (ReplaceChild [0; 0] 0 (TextNode "deux"))).
Proof.
  destruct (patch_replaces_changed_text [0] 0 (ex_document ex_Y) "li"
              (Some [("key", num 2)]) [] "two" "deux")
    as (ops & [_ Hops] & E & _); [discriminate|reflexivity|].
  rewrite (Hops eq_refl) in E. exact E.
Defined.

(** X7: the branch for string children does not go through the append and
    remove cases. Growing a child list by a string at its end throws, and
    so does shrinking it by a string, in both cases after attribute calls on
    the unchanged part at most: no child is appended or removed. *)
Theorem patch_text_growth_and_shrink_throw (p : path) (index : nat) (s : host)
  (t : string) (ps : option PropType) (cs : list child) (a : string) :
  (node_at (tree s) (p ++ [index]) = Some (render (mkVNode t ps cs)) →
   ∃ ops, silent_ops (nan_free (mkVNode t ps cs)) ops ∧
     patch (Some p) (Some (mkVNode t ps (cs ++ [CText a])))
           (Some (mkVNode t ps cs)) index s
     = Throw HostError (foldl perform s ops))
  ∧ (node_at (tree s) (p ++ [index])
     = Some (render (mkVNode t ps (cs ++ [CText a]))) →
     ∃ ops, silent_ops (nan_free (mkVNode t ps cs)) ops ∧
       patch (Some p) (Some (mkVNode t ps cs))
             (Some (mkVNode t ps (cs ++ [CText a]))) index s
       = Throw HostError (foldl perform s ops)).
Proof.
  split; intros Hlive.
  - rewrite <- (app_nil_r cs) in Hlive at 1.
    destruct (patch_after_prefix p index s t ps cs [CText a] [] Hlive)
      as (ops & Hsilent & E).
    rewrite app_nil_r in E, Hlive.
    exists ops. split; [done|]. rewrite E. simpl for_range.
    destruct (live_after_attr_ops s ops (p ++ [index]) t ps cs
                (proj1 Hsilent) Hlive) as (m & Hm & Hel & Hlen).
    unfold patch_child.
    rewrite (lookup_app_r cs) by lia. rewrite Nat.sub_diag.
    rewrite (lookup_ge_None_2 cs (length cs)) by lia. simpl.
    apply bind_Throws.
    rewrite (bind_Ok _ _ _ _ _ (get_node_live _ _ _ Hm)).
    rewrite (bind_Ok _ _ _ _ (TextNode a)) by done.
    rewrite (bind_Ok _ _ _ _ _ (childNodes_live _ (length cs) _ _ Hm)).
    rewrite (lookup_ge_None_2 (child_nodes m)) by lia.
    by apply (replaceChild_undefined _ _ m).
  - pose proof Hlive as Hlive'. rewrite <- (app_nil_r cs) in Hlive'.
    destruct (patch_after_prefix p index s t ps cs [] [CText a] Hlive)
      as (ops & Hsilent & E).
    rewrite app_nil_r in E.
    exists ops. split; [done|]. rewrite E. simpl for_range.
    destruct (live_after_attr_ops s ops (p ++ [index]) t ps (cs ++ [CText a])
                (proj1 Hsilent) Hlive) as (m & Hm & Hel & Hlen).
    unfold patch_child.
    rewrite (lookup_app_r cs) by lia. rewrite Nat.sub_diag.
    rewrite (lookup_ge_None_2 cs (length cs)) by lia. simpl.
    apply bind_Throws.
    by rewrite (bind_Ok _ _ _ _ _ (get_node_live _ _ _ Hm)).
Qed.

Lemma patch_text_growth_and_shrink_throw_witness :
  patch (Some [0]) (Some (mkVNode "li" None [CText "one"; CText "two"]))
        (Some (mkVNode "li" None [CText "one"])) 0
        (ex_document (mkVNode "li" None [CText "one"]))
  = Throw HostError (ex_document (mkVNode "li" None [CText "one"]))
  ∧ patch (Some [0]) (Some (mkVNode "li" None [CText "one"]))
          (Some (mkVNode "li" None [CText "one"; CText "two"])) 0
          (ex_document (mkVNode "li" None [CText "one"; CText "two"]))
    = Throw HostError (ex_document (mkVNode "li" None [CText "one"; CText "two"])).
Proof.
  split.
  - destruct (patch_text_growth_and_shrink_throw [0] 0
                (ex_document (mkVNode "li" None [CText "one"])) "li" None
                [CText "one"] "two") as [H _].
    destruct (H eq_refl) as (ops & [_ Hops] & E).
    rewrite (Hops eq_refl) in E. exact E.
  - destruct (patch_text_growth_and_shrink_throw [0] 0
                (ex_document (mkVNode "li" None [CText "one"; CText "two"])) "li"
                None [CText "one"] "two") as [_ H].
    destruct (H eq_refl) as (ops & [_ Hops] & E).
    rewrite (Hops eq_refl) in E. exact E.
Defined.

Lemma child_nodes_remove_child (i : nat) (n : Node) :
  child_nodes (remove_child i n) = delete i (child_nodes n).
Proof. by destruct n. Qed.

Lemma patch_rec_remove_missing (fuel : nat) (p : path) (old : VNode) (index : nat)
  (s : host) (n : Node) :
  node_at (tree s) p = Some n → child_nodes n !! index = None →
  patch_rec (S fuel) (Some p) None (Some old) index s = Throw HostError s.
Proof.
  intros Hn Hi. simpl.
  rewrite (bind_Ok _ _ _ _ _ (childNodes_live _ index _ _ Hn)). rewrite Hi.
  by apply (removeChild_undefined _ n).
Qed.

(** X8: removal shifts the live children while the loop index goes on.
    When the old tree has two more nodes at the end of its child list than
    the new one, [patch] removes the first of them and throws at the
    second, whose position no longer exists: the child that stays in the
    document is the last one. *)
Theorem patch_shrink_by_two_throws (p : path) (index : nat) (s : host)
  (t : string) (ps : option PropType) (cs : list child) (z w : VNode) :
  node_at (tree s) (p ++ [index])
  = Some (render (mkVNode t ps (cs ++ [CNode z; CNode w]))) →
  ∃ ops, silent_ops (nan_free (mkVNode t ps cs)) ops ∧
    patch (Some p) (Some (mkVNode t ps cs))
          (Some (mkVNode t ps (cs ++ [CNode z; CNode w]))) index s
    = Throw HostError (perform (foldl perform s ops)
                         (RemoveChild (p ++ [index]) (length cs)))
    ∧ (ops = [] →
       node_at (tree (perform s (RemoveChild (p ++ [index]) (length cs))))
               (p ++ [index])
       = Some (render (mkVNode t ps (cs ++ [CNode w])))).
Proof.
  intros Hlive.
  destruct (patch_after_prefix p index s t ps cs [] [CNode z; CNode w] Hlive)
    as (ops & Hsilent & E).
  rewrite app_nil_r in E.
  exists ops. split; [done|]. split.
  - rewrite E. simpl for_range.
    destruct (live_after_attr_ops s ops (p ++ [index]) t ps
                (cs ++ [CNode z; CNode w]) (proj1 Hsilent) Hlive)
      as (m & Hm & Hel & Hlen).
    rewrite length_app in Hlen. simpl in Hlen.
    destruct (lookup_lt_is_Some_2 (child_nodes m) (length cs)) as [c Hc]; [lia|].
    assert (node_at (tree (foldl perform s ops)) ((p ++ [index]) ++ [length cs])
            = Some c) as Hchild by (apply node_at_child; eauto).
    erewrite bind_Ok; cycle 1.
    { unfold patch_child.
      rewrite (lookup_app_r cs) by lia. rewrite Nat.sub_diag.
      rewrite (lookup_ge_None_2 cs (length cs)) by lia. simpl is_text. simpl orb.
      cbv iota. simpl as_vnode. by apply (patch_rec_remove _ _ _ _ _ c). }
    apply bind_Throws.
    unfold patch_child.
    rewrite (lookup_app_r cs) by lia.
    replace (S (length cs) - length cs) with 1 by lia.
    rewrite (lookup_ge_None_2 cs (S (length cs))) by lia. simpl is_text. simpl orb.
    cbv iota. simpl as_vnode.
    pose proof (node_at_perform_here _ _ _ (RemoveChild (p ++ [index]) (length cs))
                  _ eq_refl Hm) as Hm'.
    apply (patch_rec_remove_missing _ _ _ _ _ _ Hm').
    rewrite child_nodes_remove_child.
    apply lookup_ge_None_2. rewrite length_delete by eauto. lia.
  - intros _.
    rewrite (node_at_perform_here _ _ _ (RemoveChild _ _) _ eq_refl Hlive).
    f_equal. destruct (render_as_element t ps) as (a & l & Er).
    rewrite !Er, !fmap_app. simpl. f_equal.
    rewrite <- (length_fmap render_child cs). by rewrite delete_middle.
Qed.

Lemma patch_shrink_by_two_throws_witness :
  patch (Some [0]) (Some (mkVNode "ul" None [CNode ex_X])) (Some ex_list3) 0
        (ex_document ex_list3)
  = Throw HostError (perform (ex_document ex_list3) (RemoveChild [0; 0] 1))
  ∧ node_at (tree (perform (ex_document ex_list3) (RemoveChild [0; 0] 1))) [0; 0]
    = Some (render (mkVNode "ul" None [CNode ex_X; CNode ex_Z])).
Proof.
  destruct (patch_shrink_by_two_throws [0] 0 (ex_document ex_list3) "ul" None
              [CNode ex_X] ex_Y ex_Z eq_refl) as (ops & [_ Hops] & E & Hl).
  rewrite (Hops eq_refl) in E. split; [exact E|exact (Hl (Hops eq_refl))].
Defined.

(** ** [updateProps]: the attributes afterwards *)

Lemma node_at_perform_all_here (p : path) (ops : list hostop) (s : host) (n : Node) :
  Forall (on_element p) ops → node_at (tree s) p = Some n →
  node_at (tree (foldl perform s ops)) p
  = Some (foldl (λ n op, local_op op n) n ops).
Proof.
  intros H. revert s n.
  induction H as [|op ops Hop _ IH]; intros s n Hn; simpl; [done|].
  apply IH.
  destruct op; simpl in Hop; try done; subst; simpl;
    by rewrite node_at_alter_at, Hn.
Qed.

Lemma attribute_named_set (a : list (string * string)) (k name v : string) :
  attribute_named (set_assoc k v a) name
  = if String.eqb k name then Some v else attribute_named a name.
Proof.
  induction a as [|[k' v'] a IH]; simpl; [done|].
  destruct (String.eqb_spec k' k) as [->|Hk]; simpl.
  - by destruct (String.eqb k name).
  - rewrite IH. destruct (String.eqb_spec k' name) as [->|_]; [|done].
    by destruct (String.eqb_spec k name).
Qed.

Lemma attribute_named_remove (a : list (string * string)) (k name : string) :
  attribute_named (filter (λ kv, negb (String.eqb kv.1 k) = true) a) name
  = if String.eqb k name then None else attribute_named a name.
Proof.
  induction a as [|[k' v'] a IH]; simpl.
  - by destruct (String.eqb k name).
  - destruct (String.eqb_spec k' k) as [->|Hk].
    + rewrite filter_cons_False by (simpl; by rewrite String.eqb_refl).
      rewrite IH. by destruct (String.eqb k name).
    + rewrite filter_cons_True
        by (simpl; by destruct (String.eqb_spec k' k)).
      simpl. rewrite IH.
      destruct (String.eqb_spec k' name) as [->|_]; [|done].
      by destruct (String.eqb_spec k name).
Qed.

Lemma string_valued_get (ps : PropType) (key : string) (v : value) :
  string_valued ps = true → own_get ps key = Some v → ∃ x, v = VStr x.
Proof.
  intros H Hv%own_get_elem. unfold string_valued in H. rewrite forallb_forall in H.
  specialize (H (key, v) (proj1 (list_elem_of_In _ _) Hv)). simpl in H.
  destruct v; try done. by eexists.
Qed.

Lemma string_valued_plain (ps : PropType) (key : string) :
  string_valued ps = true → is_listener key (own_value ps key) = false.
Proof.
  intros H. unfold is_listener, own_value.
  destruct (own_get ps key) as [v|] eqn:E; [|apply andb_false_r].
  destruct (string_valued_get ps key v H E) as [x ->]. apply andb_false_r.
Qed.

Lemma lower_case_key (ps : PropType) (key : string) :
  lower_case_keys ps = true → key ∈ ps.*1 → toLowerCase key = key.
Proof.
  unfold lower_case_keys. rewrite forallb_forall.
  intros H [[k v] [-> Hkv]]%list_elem_of_fmap.
  specialize (H (k, v) (proj1 (list_elem_of_In _ _) Hkv)). simpl in *.
  by apply String.eqb_eq.
Qed.

Lemma set_ops_plain (el : path) (new old : PropType) (k : string) :
  is_listener k (own_value new k) = false →
  set_ops el new old k = [SetAttribute el k (own_value new k)].
Proof. unfold set_ops. by intros ->. Qed.

Lemma remove_ops_plain (el : path) (old : PropType) (k : string) :
  is_listener k (own_value old k) = false →
  remove_ops el old k = [RemoveAttribute el k].
Proof. unfold remove_ops. by intros ->. Qed.

Lemma attributes_after_sets (el : path) (new old : PropType) (ks : list string)
  (n : Node) (name : string) :
  is_element n = true →
  (∀ k, k ∈ ks → is_listener k (own_value new k) = false ∧ toLowerCase k = k) →
  attribute_named
    (attributes_of (foldl (λ n op, local_op op n) n (ks ≫= set_ops el new old))) name
  = if decide (name ∈ ks) then Some (ToString (own_value new name))
    else attribute_named (attributes_of n) name.
Proof.
  intros Hel Hplain. revert n Hel.
  induction ks as [|k ks IH]; intros n Hel.
  - by destruct (decide (name ∈ [])) as [?%elem_of_nil|_].
  - destruct (Hplain k (list_elem_of_here _ _)) as [Hk Hlow].
    rewrite bind_cons, foldl_app, (set_ops_plain _ _ _ _ Hk).
    cbn [foldl local_op]. rewrite IH;
      [|intros k' Hk'; apply Hplain; by apply list_elem_of_further|by destruct n].
    destruct n as [|t a l cs]; [done|]. cbn [set_attribute attributes_of].
    rewrite attribute_named_set, Hlow.
    destruct (decide (name ∈ ks)) as [Hin|Hin].
    + rewrite decide_True; [done|]. by apply list_elem_of_further.
    + destruct (String.eqb_spec k name) as [->|Hne].
      * rewrite decide_True; [done|]. apply list_elem_of_here.
      * rewrite decide_False; [done|]. by intros [?|?]%elem_of_cons.
Qed.

Lemma attributes_after_removes (el : path) (old : PropType) (ks : list string)
  (n : Node) (name : string) :
  is_element n = true →
  (∀ k, k ∈ ks → is_listener k (own_value old k) = false ∧ toLowerCase k = k) →
  attribute_named
    (attributes_of (foldl (λ n op, local_op op n) n (ks ≫= remove_ops el old))) name
  = if decide (name ∈ ks) then None else attribute_named (attributes_of n) name.
Proof.
  intros Hel Hplain. revert n Hel.
  induction ks as [|k ks IH]; intros n Hel.
  - by destruct (decide (name ∈ [])) as [?%elem_of_nil|_].
  - destruct (Hplain k (list_elem_of_here _ _)) as [Hk Hlow].
    rewrite bind_cons, foldl_app, (remove_ops_plain _ _ _ Hk).
    cbn [foldl local_op]. rewrite IH;
      [|intros k' Hk'; apply Hplain; by apply list_elem_of_further|by destruct n].
    destruct n as [|t a l cs]; [done|]. cbn [remove_attribute attributes_of].
    rewrite attribute_named_remove, Hlow.
    destruct (decide (name ∈ ks)) as [Hin|Hin].
    + rewrite decide_True; [done|]. by apply list_elem_of_further.
    + destruct (String.eqb_spec k name) as [->|Hne].
      * rewrite decide_True; [done|]. apply list_elem_of_here.
      * rewrite decide_False; [done|]. by intros [?|?]%elem_of_cons.
Qed.

Lemma is_element_local_ops (ops : list hostop) (n : Node) :
  is_element n = true → is_element (foldl (λ n op, local_op op n) n ops) = true.
Proof.
  revert n. induction ops as [|op ops IH]; intros n Hn; simpl; [done|].
  apply IH. destruct op, n; done.
Qed.

Lemma string_valued_callable (new old : PropType) :
  string_valued new = true → old_listeners_callable new old = true.
Proof.
  intros H. unfold old_listeners_callable. apply forallb_forall. intros key _.
  by rewrite string_valued_plain.
Qed.

Lemma string_attribute_after_update (p : path) (s : host) (n : Node)
  (new old : PropType) (k : string) :
  node_at (tree s) p = Some n → is_element n = true →
  string_valued new = true → string_valued old = true →
  ordinary_keys new = true → ordinary_keys old = true →
  lower_case_keys new = true → lower_case_keys old = true →
  attribute_named (attributes_of n) k = ToString <$> own_get old k →
  attribute_named
    (attributes_of (foldl (λ n op, local_op op n) n (issued_ops p new old))) k
  = ToString <$> own_get new k.
Proof.
  intros Hn Hel Hnew Hold Hnord Hoord Hnlow Holow Hlive.
  destruct (issued_ops_minimal p new old Hnord Hoord
              (string_valued_callable new old Hnew)) as [-> _].
  unfold minimal_ops. rewrite foldl_app.
  rewrite attributes_after_removes; [|by apply is_element_local_ops|].
  2:{ intros k' [_ Hk']%list_elem_of_filter. split;
        [by apply string_valued_plain|by apply (lower_case_key old)]. }
  rewrite attributes_after_sets; [|done|].
  2:{ intros k' [_ Hk']%list_elem_of_filter. split;
        [by apply string_valued_plain|by apply (lower_case_key new)]. }
  rewrite Hlive. unfold dropped_keys, changed_keys.
  destruct (own_get new k) as [v|] eqn:Hk.
  - destruct (string_valued_get new k v Hnew Hk) as [x ->].
    assert (k ∈ new.*1) as Hin by (apply own_get_key; eauto).
    rewrite decide_False by (by intros [? _]%list_elem_of_filter).
    destruct (decide (k ∈ _)) as [_|Hnot].
    { unfold own_value. by rewrite Hk. }
    destruct (loose_eq (own_value new k) (own_value old k)) eqn:Heq.
    + unfold own_value in Heq. rewrite Hk in Heq.
      destruct (own_get old k) as [w|] eqn:Hk'; [|done].
      destruct (string_valued_get old k w Hold Hk') as [y ->]. simpl in Heq.
      simpl. by apply String.eqb_eq in Heq as ->.
    + destruct Hnot. by apply list_elem_of_filter.
  - assert (k ∉ new.*1) as Hout.
    { intros [v Hv]%own_get_key. congruence. }
    rewrite (decide_False (P := k ∈ filter _ new.*1))
      by (by intros [_ ?]%list_elem_of_filter).
    destruct (own_get old k) as [w|] eqn:Hk'; simpl.
    + rewrite decide_True; [done|]. apply list_elem_of_filter. split; [done|].
      apply own_get_key. eauto.
    + by destruct (decide _).
Qed.

(** X9: for two mappings whose values are all strings and whose keys are in
    lower case and do not name members of [Object.prototype], [updateProps]
    brings the attributes of the live element from the old mapping to the
    new one: if [getAttribute] gave for every name what the old mapping
    holds under it, then afterwards it gives for every name what the new
    mapping holds under it, and [null] for a name the new mapping does not
    hold. *)
Theorem updateProps_string_attributes (p : path) (s : host) (n : Node)
  (new old : PropType) :
  node_at (tree s) p = Some n → is_element n = true →
  string_valued new = true → string_valued old = true →
  ordinary_keys new = true → ordinary_keys old = true →
  lower_case_keys new = true → lower_case_keys old = true →
  (∀ k, get_attribute (attributes_of n) k = ToString <$> own_get old (toLowerCase k)) →
  ∃ s' n', updateProps (Some p) (Some new) (Some old) s = Ok () s'
    ∧ node_at (tree s') p = Some n'
    ∧ ∀ k, get_attribute (attributes_of n') k
           = ToString <$> own_get new (toLowerCase k).
Proof.
  intros Hn Hel Hnew Hold Hnord Hoord Hnlow Holow Hlive.
  assert (element_at p s) as Hs by (by exists n).
  destruct (issued_ops_minimal p new old Hnord Hoord
              (string_valued_callable new old Hnew)) as [_ Hrem].
  eexists _, _. split; [by apply updateProps_live|]. simpl default.
  split.
  { apply node_at_perform_all_here; [apply issued_ops_on_element|done]. }
  intros k. unfold get_attribute.
  apply (string_attribute_after_update p s); try done. apply Hlive.
Qed.

Lemma updateProps_string_attributes_witness :
  ∃ s' n', updateProps (Some [0]) (Some [("class", VStr "done"); ("id", VStr "a")])
             (Some [("id", VStr "a"); ("title", VStr "t")])
             (mkHost (Element "body" [] []
                        [Element "li" [("id", "a"); ("title", "t")] [] []]) [])
           = Ok () s'
    ∧ node_at (tree s') [0] = Some n'
    ∧ ∀ k, get_attribute (attributes_of n') k
           = ToString <$> own_get [("class", VStr "done"); ("id", VStr "a")]
                                  (toLowerCase k).
Proof.
  apply (updateProps_string_attributes [0] _
           (Element "li" [("id", "a"); ("title", "t")] [] []));
    try reflexivity.
  intros k. unfold get_attribute. cbn [attributes_of attribute_named own_get].
  destruct (String.eqb "id" (toLowerCase k)); [reflexivity|].
  destruct (String.eqb "title" (toLowerCase k)); reflexivity.
Defined.

(** ** [mount] and what follows it *)

Lemma find_first_alter (f : Node → option path) (g : Node → Node) (cs : list Node)
  (i k : nat) (q : path) :
  find_first f cs i = Some (k :: q) →
  (∀ c, c ∈ cs → f c = Some q → f (g c) = Some q) →
  find_first f (alter g (k - i) cs) i = Some (k :: q).
Proof.
  revert i. induction cs as [|c cs IH]; intros i; simpl; [done|].
  destruct (f c) as [q'|] eqn:E.
  - intros [= <- <-] Hg. rewrite Nat.sub_diag. simpl.
    rewrite (Hg c); [done|apply list_elem_of_here|done].
  - intros Hfind Hg.
    destruct (find_first_Some _ _ _ _ Hfind) as (j & _ & _ & _ & _ & [= -> _]).
    replace (S (i + j) - i) with (S (S (i + j) - S i)) by lia.
    cbn [alter list_alter find_first]. rewrite E.
    apply IH; [done|]. intros c' Hc'. apply Hg. by apply list_elem_of_further.
Qed.

Lemma find_id_alter_at (id : string) (g : Node → Node) (t : Node) (p : path) :
  (∀ n, find_id id n = Some [] → find_id id (g n) = Some []) →
  find_id id t = Some p → find_id id (alter_at g p t) = Some p.
Proof.
  intros Hg. revert p.
  induction t as [d|tag a l cs IH] using Node_nested_ind; intros p; [done|].
  intros Hfind. pose proof Hfind as Hfind'. simpl in Hfind.
  destruct (has_id id a) eqn:Hid.
  - injection Hfind as <-. simpl. by apply Hg.
  - destruct (find_first_Some _ _ _ _ Hfind) as (j & c & q & Hj & Hq & ->).
    simpl. rewrite Hid.
    pose proof (find_first_alter (find_id id) (alter_at g q) cs 0 j q Hfind) as H.
    rewrite Nat.sub_0_r in H. apply H.
    intros c' Hc'. rewrite Forall_forall in IH. by apply IH.
Qed.

Lemma find_id_append_child (id : string) (c : Node) (t : Node) (p : path) :
  find_id id t = Some p → find_id id (alter_at (append_child c) p t) = Some p.
Proof.
  apply find_id_alter_at. intros [d|tag a l cs]; simpl; [done|].
  destruct (has_id id a); [done|].
  by intros (? & ? & ? & _ & _ & ?)%find_first_Some.
Qed.

Lemma getElementById_found (id : string) (s : host) (p : path) :
  getElementById id s = Ok (Some p) s →
  id ≠ "" ∧ find_id id (tree s) = Some p
  ∧ ∃ tag a l cs, node_at (tree s) p = Some (Element tag a l cs).
Proof.
  unfold getElementById. destruct (String.eqb_spec id "") as [->|Hne]; [done|].
  intros [= Hfind]. split; [done|]. split; [done|].
  destruct (find_id_sound _ _ _ Hfind) as (tag & a & l & cs & Hp & _). eauto.
Qed.

Lemma mount_found (vnode : VNode) (container : string) (s : host) (p : path) :
  getElementById container s = Ok (Some p) s →
  ∃ n, node_at (tree s) p = Some n
    ∧ mount vnode container s = Ok () (perform s (AppendChild p (render vnode)))
    ∧ node_at (tree (perform s (AppendChild p (render vnode))))
              (p ++ [length (child_nodes n)])
      = Some (render vnode)
    ∧ getElementById container (perform s (AppendChild p (render vnode)))
      = Ok (Some p) (perform s (AppendChild p (render vnode))).
Proof.
  intros Hget.
  destruct (getElementById_found _ _ _ Hget) as (Hne & Hfind & tag & a & l & cs & Hp).
  exists (Element tag a l cs). split; [done|]. split; [|split].
  - unfold mount. rewrite (bind_Ok _ _ _ _ _ Hget).
    apply appendChild_live. by eexists.
  - apply node_at_child. exists (Element tag a l (cs ++ [render vnode])). split.
    + by apply (node_at_perform_here _ _ _ (AppendChild _ _) _ eq_refl Hp).
    + simpl. by rewrite lookup_app_r, Nat.sub_diag.
  - unfold getElementById. destruct (String.eqb_spec container "") as [|_]; [done|].
    f_equal. simpl. by apply find_id_append_child.
Qed.

(** X10: when the document has an element with the identifier, [mount]
    appends the rendered tree to the first such element as its last child,
    after the children the container already has, and the container is
    still the element the identifier finds afterwards. *)
Theorem mount_appends_last (vnode : VNode) (container : string) (s : host)
  (p : path) :
  getElementById container s = Ok (Some p) s →
  ∃ n, node_at (tree s) p = Some n
    ∧ mount vnode container s = Ok () (perform s (AppendChild p (render vnode)))
    ∧ node_at (tree (perform s (AppendChild p (render vnode))))
              (p ++ [length (child_nodes n)])
      = Some (render vnode)
    ∧ getElementById container (perform s (AppendChild p (render vnode)))
      = Ok (Some p) (perform s (AppendChild p (render vnode))).
Proof. apply mount_found. Qed.

Lemma mount_appends_last_witness :
  ∃ n, node_at (tree (ex_document ex_X)) [0] = Some n
    ∧ mount ex_Y "root" (ex_document ex_X)
      = Ok () (perform (ex_document ex_X) (AppendChild [0] (render ex_Y)))
    ∧ node_at (tree (perform (ex_document ex_X) (AppendChild [0] (render ex_Y))))
              ([0] ++ [length (child_nodes n)])
      = Some (render ex_Y)
    ∧ getElementById "root" (perform (ex_document ex_X) (AppendChild [0] (render ex_Y)))
      = Ok (Some [0]) (perform (ex_document ex_X) (AppendChild [0] (render ex_Y))).
Proof. exact (mount_appends_last ex_Y "root" (ex_document ex_X) [0] eq_refl). Defined.



(** ** [patch] stays below the parent it is given *)

Section Confined.
Variable p : path.

Lemma confined_bind {A B} (Q : A → Prop) (Q' : B → Prop) (m : M A) (f : A → M B) :
  confined p Q m → (∀ a, Q a → confined p Q' (f a)) → confined p Q' (m ≫= f).
Proof.
  intros Hm Hf s. specialize (Hm s). unfold mbind, M_bind.
  destruct (m s) as [a s1|e s1|]; [|done..].
  destruct Hm as (Ha & ops & Hops & ->).
  specialize (Hf a Ha (foldl perform s ops)).
  destruct (f a (foldl perform s ops)) as [b s2|e s2|]; [| |done].
  - destruct Hf as (Hb & ops' & Hops' & ->). split; [done|].
    exists (ops ++ ops'). split; [by apply Forall_app|by rewrite foldl_app].
  - destruct Hf as (ops' & Hops' & ->).
    exists (ops ++ ops'). split; [by apply Forall_app|by rewrite foldl_app].
Qed.

Lemma confined_ret {A} (Q : A → Prop) (a : A) : Q a → confined p Q (mret a : M A).
Proof. intros Ha s. split; [done|]. exists []. by split; [constructor|]. Qed.

Lemma confined_throw {A} (Q : A → Prop) (e : error) : confined p Q (throw e : M A).
Proof. intros s. exists []. by split; [constructor|]. Qed.

Lemma confined_mutate (op : hostop) :
  p `prefix_of` target_of op → confined p (λ _, True) (mutate op).
Proof.
  intros Hop s. split; [done|]. exists [op]. split; [|done].
  by repeat constructor.
Qed.

Lemma confined_get_node (r : ref) : confined p (λ _, True) (get_node r).
Proof.
  intros s. unfold get_node. destruct r as [q|].
  - destruct (node_at (tree s) q); [split; [done|]|]; exists [];
      by split; [constructor|].
  - exists []. by split; [constructor|].
Qed.

Lemma confined_the_path (r : ref) :
  ref_below p r → confined p (λ q, p `prefix_of` q) (the_path r).
Proof.
  intros Hr. destruct r as [q|]; [by apply confined_ret|apply confined_throw].
Qed.

Lemma confined_childNodes (r : ref) (i : nat) :
  ref_below p r → confined p (ref_below p) (childNodes r i).
Proof.
  intros Hr. unfold childNodes.
  eapply confined_bind; [apply confined_get_node|]. intros n _.
  eapply confined_bind; [by apply confined_the_path|]. intros q Hq.
  apply confined_ret. destruct (child_nodes n !! i); [|done].
  by apply prefix_app_r.
Qed.

Lemma confined_setAttribute (r : ref) (k : string) (v : value) :
  ref_below p r → confined p (λ _, True) (setAttribute r k v).
Proof.
  intros Hr. unfold setAttribute.
  eapply confined_bind; [apply confined_get_node|]. intros n _.
  eapply confined_bind; [by apply confined_the_path|]. intros q Hq.
  destruct (is_element n); [by apply confined_mutate|apply confined_throw].
Qed.

Lemma confined_removeAttribute (r : ref) (k : string) :
  ref_below p r → confined p (λ _, True) (removeAttribute r k).
Proof.
  intros Hr. unfold removeAttribute.
  eapply confined_bind; [apply confined_get_node|]. intros n _.
  eapply confined_bind; [by apply confined_the_path|]. intros q Hq.
  destruct (is_element n); [by apply confined_mutate|apply confined_throw].
Qed.

Lemma confined_addEventListener (r : ref) (k : string) (v : value) :
  ref_below p r → confined p (λ _, True) (addEventListener r k v).
Proof.
  intros Hr. unfold addEventListener.
  eapply confined_bind; [apply confined_get_node|]. intros n _.
  eapply confined_bind; [by apply confined_the_path|]. intros q Hq.
  destruct (is_listener_argument v); [by apply confined_mutate|apply confined_throw].
Qed.

Lemma confined_removeEventListener (r : ref) (k : string) (v : value) :
  ref_below p r → confined p (λ _, True) (removeEventListener r k v).
Proof.
  intros Hr. unfold removeEventListener.
  eapply confined_bind; [apply confined_get_node|]. intros n _.
  eapply confined_bind; [by apply confined_the_path|]. intros q Hq.
  destruct (is_listener_argument v); [by apply confined_mutate|apply confined_throw].
Qed.

Lemma confined_appendChild (r : ref) (c : Node) :
  ref_below p r → confined p (λ _, True) (appendChild r c).
Proof.
  intros Hr. unfold appendChild.
  eapply confined_bind; [apply confined_get_node|]. intros n _.
  eapply confined_bind; [by apply confined_the_path|]. intros q Hq.
  destruct (is_element n); [by apply confined_mutate|apply confined_throw].
Qed.

Lemma confined_removeChild (r c : ref) :
  ref_below p r → confined p (λ _, True) (removeChild r c).
Proof.
  intros Hr. unfold removeChild.
  eapply confined_bind; [apply confined_get_node|]. intros _ _.
  eapply confined_bind; [apply confined_get_node|]. intros _ _.
  eapply confined_bind; [by apply confined_the_path|]. intros q Hq.
  destruct c as [cp|]; simpl.
  - eapply confined_bind; [by apply (confined_ret (λ _, True))|]. intros cq _.
    destruct (child_index q cq); [by apply confined_mutate|apply confined_throw].
  - eapply confined_bind; [apply (confined_throw (λ _, False))|]. by intros ? [].
Qed.

Lemma confined_replaceChild (r : ref) (new : Node) (c : ref) :
  ref_below p r → confined p (λ _, True) (replaceChild r new c).
Proof.
  intros Hr. unfold replaceChild.
  eapply confined_bind; [apply confined_get_node|]. intros _ _.
  eapply confined_bind; [apply confined_get_node|]. intros _ _.
  eapply confined_bind; [by apply confined_the_path|]. intros q Hq.
  destruct c as [cp|]; simpl.
  - eapply confined_bind; [by apply (confined_ret (λ _, True))|]. intros cq _.
    destruct (child_index q cq); [by apply confined_mutate|apply confined_throw].
  - eapply confined_bind; [apply (confined_throw (λ _, False))|]. by intros ? [].
Qed.

Lemma confined_render_ref (v : option VNode) : confined p (λ _, True) (render_ref v).
Proof. destruct v; [by apply confined_ret|apply confined_throw]. Qed.

Lemma confined_for_each {A} (l : list A) (body : A → M unit) :
  (∀ x, confined p (λ _, True) (body x)) →
  confined p (λ _, True) (for_each l body).
Proof.
  intros Hbody. induction l as [|x l IH]; simpl; [by apply confined_ret|].
  eapply confined_bind; [apply Hbody|]. by intros.
Qed.

Lemma confined_for_range (n start : nat) (body : nat → M unit) :
  (∀ i, confined p (λ _, True) (body i)) →
  confined p (λ _, True) (for_range n start body).
Proof.
  intros Hbody. revert start.
  induction n as [|n IH]; intros start; simpl; [by apply confined_ret|].
  eapply confined_bind; [apply Hbody|]. by intros.
Qed.

Lemma confined_updateProps (el : ref) (new old : option PropType) :
  ref_below p el → confined p (λ _, True) (updateProps el new old).
Proof.
  intros Hel. unfold updateProps.
  eapply confined_bind; [|intros _ _]; apply confined_for_each; intros [k v].
  - unfold set_prop. destruct (loose_ne _ _); [|by apply confined_ret].
    destruct (_ && _); [|by apply confined_setAttribute].
    eapply confined_bind; [|intros _ _; by apply confined_addEventListener].
    destruct (truthy _); [by apply confined_removeEventListener|].
    by apply confined_ret.
  - unfold drop_prop. destruct (negb _); [|by apply confined_ret].
    destruct (_ && _);
      [by apply confined_removeEventListener|by apply confined_removeAttribute].
Qed.

Lemma confined_patch_rec (fuel : nat) (parent : ref) (new old : option VNode)
  (index : nat) :
  ref_below p parent → confined p (λ _, True) (patch_rec fuel parent new old index).
Proof.
  revert parent new old index.
  induction fuel as [|fuel IH]; intros parent new old index Hparent; [done|].
  simpl. eapply confined_bind; [by apply confined_childNodes|].
  intros currentEl Hcur.
  destruct old as [old|].
  2:{ eapply confined_bind; [apply confined_render_ref|].
      intros n _. by apply confined_appendChild. }
  destruct new as [new|]; [|by apply confined_removeChild].
  destruct (negb _); [by apply confined_replaceChild|].
  eapply confined_bind; [by apply confined_updateProps|]. intros _ _.
  apply confined_for_range. intros i. unfold patch_child.
  destruct (_ || _); [|by apply IH].
  destruct (negb _); [|by apply confined_ret].
  eapply confined_bind; [apply confined_get_node|]. intros _ _.
  eapply (confined_bind (λ _, True)).
  { destruct (children new !! i) as [[str|v]|];
      [by apply confined_ret|apply confined_render_ref..]. }
  intros n _.
  eapply confined_bind; [by apply confined_childNodes|]. intros c _.
  by apply confined_replaceChild.
Qed.

End Confined.

Lemma node_at_alter_at_apart (f : Node → Node) (p q : path) (t : Node) :
  ¬ p `prefix_of` q → ¬ q `prefix_of` p →
  node_at (alter_at f p t) q = node_at t q.
Proof.
  revert q t. induction p as [|i p IH]; intros q t Hpq Hqp.
  { destruct Hpq. apply prefix_nil. }
  destruct q as [|j q]; [destruct Hqp; apply prefix_nil|].
  destruct t as [d|tag a l cs]; simpl; [done|].
  destruct (decide (i = j)) as [->|Hij].
  - rewrite list_lookup_alter_eq. destruct (cs !! j) as [c|]; simpl; [|done].
    apply IH; intros H; [apply Hpq|apply Hqp]; by apply prefix_cons.
  - by rewrite list_lookup_alter_ne.
Qed.

Lemma node_at_below_apart (p q : path) (ops : list hostop) (s : host) :
  below p ops → ¬ p `prefix_of` q → ¬ q `prefix_of` p →
  node_at (tree (foldl perform s ops)) q = node_at (tree s) q.
Proof.
  intros Hops Hpq Hqp. revert s.
  induction Hops as [|op ops Hop _ IH]; intros s; simpl; [done|].
  rewrite IH. simpl.
  assert (∀ g, node_at (alter_at g (target_of op) (tree s)) q = node_at (tree s) q)
    as H.
  { intros g. apply node_at_alter_at_apart.
    - intros H. apply Hpq. by etrans.
    - intros H. destruct (prefix_weak_total _ _ _ Hop H); done. }
  destruct op; apply H.
Qed.

Lemma trace_perform_all (s : host) (ops : list hostop) :
  trace (foldl perform s ops) = trace s ++ ops.
Proof.
  revert s. induction ops as [|op ops IH]; intros s; simpl.
  - by rewrite app_nil_r.
  - rewrite IH. simpl. by rewrite <- app_assoc.
Qed.

(** X12: [patch] works on the parent it is given and on nodes below it only.
    It ends, either normally or in an exception of the host, and every call
    it has made by then is on the parent or a node below it; a node that is
    neither above nor below the parent is afterwards what it was. *)
Theorem patch_stays_below_parent (p : path) (new old : option VNode) (index : nat)
  (s : host) :
  ∃ ops, below p ops
    ∧ (patch (Some p) new old index s = Ok () (foldl perform s ops)
       ∨ patch (Some p) new old index s = Throw HostError (foldl perform s ops))
    ∧ trace (foldl perform s ops) = trace s ++ ops
    ∧ ∀ q, ¬ p `prefix_of` q → ¬ q `prefix_of` p →
           node_at (tree (foldl perform s ops)) q = node_at (tree s) q.
Proof.
  pose proof (confined_patch_rec p (patch_fuel new) (Some p) new old index
                (reflexivity p) s) as H.
  pose proof (patch_terminates (Some p) new old index s) as Hfuel.
  pose proof (patch_raises_no_Error (Some p) new old index s) as Herr.
  fold (patch (Some p) new old index) in H.
  pose proof (trace_perform_all s) as Htrace.
  destruct (patch (Some p) new old index s) as [[] s'|e s'|].
  - destruct H as (_ & ops & Hops & ->). exists ops.
    split; [done|]. split; [by left|]. split; [done|].
    intros q. by apply node_at_below_apart.
  - destruct H as (ops & Hops & ->). exists ops.
    split; [done|]. split; [|split; [done|]].
    + right. destruct e as [message|]; [|done].
      destruct (Herr _ eq_refl). by eexists.
    + intros q. by apply node_at_below_apart.
  - by destruct (Hfuel _ eq_refl).
Qed.

Lemma patch_stays_below_parent_witness :
  ∃ ops, below [0] ops
    ∧ (patch (Some [0]) (Some ex_list3) (Some ex_list2) 0 (ex_document ex_list2)
       = Ok () (foldl perform (ex_document ex_list2) ops)
       ∨ patch (Some [0]) (Some ex_list3) (Some ex_list2) 0 (ex_document ex_list2)
         = Throw HostError (foldl perform (ex_document ex_list2) ops))
    ∧ node_at (tree (foldl perform (ex_document ex_list2) ops)) [1]
      = node_at (tree (ex_document ex_list2)) [1].
Proof.
  destruct (patch_stays_below_parent [0] (Some ex_list3) (Some ex_list2) 0
              (ex_document ex_list2)) as (ops & Hops & Hrun & _ & Hrest).
  exists ops. split; [exact Hops|]. split; [exact Hrun|].
  apply Hrest; intros [k Hk]; discriminate Hk.
Defined.

(** ** The reactivity engine: what an effect subscribes to *)

Lemma set_add_idemp (e : fnid) (l : list fnid) :
  set_add e (set_add e l) = set_add e l.
Proof. apply set_add_already, set_add_elem. Qed.

Lemma reads_cons (t : objid) (k : string) (fn : list action) (t0 : objid)
  (k0 : string) :
  reads (Read t k :: fn) t0 k0
  = (t =? t0)%nat && String.eqb k k0 || reads fn t0 k0.
Proof. done. Qed.

Lemma set_add_inv (e x : fnid) (l : list fnid) : x ∈ set_add e l → x = e ∨ x ∈ l.
Proof.
  unfold set_add. destruct (decide (e ∈ l)); [by right|].
  intros [?| ->%list_elem_of_singleton]%elem_of_app; [by right|by left].
Qed.

Lemma set_add_prefix (e : fnid) (l : list fnid) : l `prefix_of` set_add e l.
Proof. unfold set_add. destruct (decide (e ∈ l)); [done|by apply prefix_app_r]. Qed.

Lemma run_reads_exact (n : nat) (e : fnid) (fn : list action) (s : store) :
  forallb is_read fn = true → activeEffect s = Some e →
  ∃ s', run_with (exec (S n)) fn s = Returns () s'
        ∧ activeEffect s' = Some e ∧ heap s' = heap s
        ∧ closures s' = closures s ∧ calls s' = calls s
        ∧ ∀ t k, subscribers s' t k
                 = if reads fn t k then set_add e (subscribers s t k)
                   else subscribers s t k.
Proof.
  revert s. induction fn as [|a fn IH]; intros s Hfn Ha.
  - by exists s.
  - simpl in Hfn. apply andb_prop in Hfn as [Hread Hfn].
    destruct a as [t k| | | | |]; try done.
    destruct (read_active n t k s e Ha)
      as (s1 & E1 & Hsame & Hother & Ha1 & Hh1 & Hc1 & Hl1).
    destruct (IH s1 Hfn Ha1) as (s2 & E2 & Ha2 & Hh2 & Hc2 & Hl2 & Hsub2).
    exists s2. cbn [run_with]. rewrite (R_bind_Returns _ _ _ _ _ E1).
    split; [done|]. split; [done|]. split; [congruence|].
    split; [congruence|]. split; [congruence|].
    intros t0 k0. rewrite Hsub2, reads_cons.
    destruct (decide ((t0, k0) = (t, k))) as [[= -> ->]|Hne].
    + rewrite Nat.eqb_refl, String.eqb_refl, Hsame, set_add_idemp.
      by destruct (reads fn t k).
    + rewrite (Hother t0 k0 Hne).
      destruct (Nat.eqb_spec t t0) as [->|_]; [|done].
      by destruct (String.eqb_spec k k0) as [->|_].
Qed.

Lemma effect_reader (n : nat) (fn : list action) (s : store) :
  forallb is_read fn = true →
  ∃ s', effect (S (S n)) fn s = Returns () s'
    ∧ closures s' = closures s ++ [fn]
    ∧ calls s' = calls s ++ [length (closures s)]
    ∧ activeEffect s' = None ∧ heap s' = heap s
    ∧ ∀ t k, subscribers s' t k
             = if reads fn t k then set_add (length (closures s)) (subscribers s t k)
               else subscribers s t k.
Proof.
  intros Hfn. unfold effect, effect_with. rewrite effectFn_S. cbn [closures with_closures].
  rewrite lookup_app_r, Nat.sub_diag by lia. cbn [lookup list_lookup].
  set (e := length (closures s)).
  destruct (run_reads_exact n e fn
              (with_calls (calls s ++ [e])
                 (with_activeEffect (Some e) (with_closures (closures s ++ [fn]) s)))
              Hfn eq_refl)
    as (s1 & E1 & Ha1 & Hh1 & Hc1 & Hl1 & Hsub1).
  exists (with_activeEffect None s1).
  unfold mbind at 1 2, R_bind, modify. rewrite (R_bind_Returns _ _ _ _ _ E1).
  done.
Qed.

(** X13: an effect whose callback only reads reactive properties returns,
    having registered one new closure and run it once, and subscribes that
    closure to exactly the properties the callback reads: their subscriber
    sets gain the closure, every other set is as before. *)
Theorem effect_subscribes_what_it_reads (n : nat) (fn : list action) (s : store) :
  forallb is_read fn = true →
  ∃ s', effect (S (S n)) fn s = Returns () s'
    ∧ closures s' = closures s ++ [fn]
    ∧ calls s' = calls s ++ [length (closures s)]
    ∧ activeEffect s' = None ∧ heap s' = heap s
    ∧ ∀ t k, subscribers s' t k
             = if reads fn t k then set_add (length (closures s)) (subscribers s t k)
               else subscribers s t k.
Proof. apply effect_reader. Qed.

Lemma effect_subscribes_what_it_reads_witness :
  ∃ s', effect 2 [Read 0 "count"; Read 0 "step"] ex_subscribed = Returns () s'
    ∧ subscribers s' 0 "count" = [0; 1]
    ∧ subscribers s' 0 "step" = [1]
    ∧ subscribers s' 0 "other" = [].
Proof.
  destruct (effect_subscribes_what_it_reads 0 [Read 0 "count"; Read 0 "step"]
              ex_subscribed eq_refl) as (s' & E & _ & _ & _ & _ & Hsub).
  exists s'. split; [exact E|].
  split; [|split]; rewrite Hsub; reflexivity.
Defined.

Lemma readers_after_effect (fn : list action) (s s' : store) (t : objid)
  (k : string) :
  forallb is_read fn = true → readers s t k →
  closures s' = closures s ++ [fn] →
  subscribers s' t k = set_add (length (closures s)) (subscribers s t k) →
  readers s' t k.
Proof.
  intros Hfn Hr Hc Hsub e. rewrite Hsub, Hc.
  intros [->|He]%set_add_inv.
  - exists fn. split; [|done]. by rewrite lookup_app_r, Nat.sub_diag by lia.
  - destruct (Hr e He) as (fn' & Hfn' & Hread).
    exists fn'. split; [|done]. by apply lookup_app_l_Some.
Qed.

(** X14: registration and write compose into a re-run. Take a target
    object that is not frozen and a property of it whose subscribers so
    far are closures with callbacks that only read. After an effect whose
    callback only reads, among others [target[key]], a write to that
    property through the proxy returns true, stores the value, and invokes
    each subscriber the property already had once, in order, and the new
    closure once again (the nesting of calls allowed being larger than the
    number of subscribers by three). *)
Theorem write_reruns_effect (fuel n : nat) (fn : list action) (target : objid)
  (key : string) (v : value) (s : store) :
  forallb is_read fn = true → reads fn target key = true →
  readers s target key → frozen (the_object s target) = false →
  (length (subscribers s target key) + 3 ≤ fuel)%nat →
  ∃ s', (effect (S (S n)) fn;; set (reactive fuel target) key v) s = Returns true s'
    ∧ calls s' = calls s ++ [length (closures s)]
                 ++ set_add (length (closures s)) (subscribers s target key)
    ∧ fields (the_object s' target) !! key = Some v.
Proof.
  intros Hfn Hreads Hr Hf Hfuel.
  destruct (effect_reader n fn s Hfn) as (s1 & E1 & Hc1 & Hl1 & Ha1 & Hh1 & Hsub1).
  rewrite (R_bind_Returns _ _ _ _ _ E1).
  specialize (Hsub1 target key). rewrite Hreads in Hsub1.
  pose proof (readers_after_effect fn s s1 target key Hfn Hr Hc1 Hsub1) as Hr1.
  assert (frozen (the_object s1 target) = false) as Hf1
    by (unfold the_object; by rewrite Hh1).
  assert (length (subscribers s1 target key) + 2 ≤ fuel)%nat as Hfuel1.
  { rewrite Hsub1. unfold set_add. destruct (decide _); [lia|].
    rewrite length_app. simpl. lia. }
  destruct (trigger_readers fuel target key (written target key v s1))
    as (s2 & E2 & Hcalls & _ & _ & Hheap); [by apply readers_written|done|].
  exists s2. simpl. unfold mbind at 1, R_bind, Reflect_set. rewrite Hf1.
  fold (written target key v s1).
  change (trigger_with (effectFn fuel) fuel target key) with (trigger fuel target key).
  rewrite (R_bind_Returns _ _ _ _ _ E2).
  split; [done|]. split.
  - rewrite Hcalls. simpl. rewrite Hl1. fold (subscribers s1 target key).
    change (subscribers (written target key v s1) target key)
      with (subscribers s1 target key).
    by rewrite Hsub1, <- app_assoc.
  - unfold the_object. rewrite Hheap. simpl. rewrite lookup_insert_eq. simpl.
    by rewrite lookup_insert_eq.
Qed.

Lemma write_reruns_effect_witness :
  ∃ s', (effect 2 [Read 0 "count"];; set (reactive 4 0) "count" (num 1)) ex_subscribed
        = Returns true s'
    ∧ calls s' = calls ex_subscribed ++ [1] ++ [0; 1]
    ∧ fields (the_object s' 0) !! "count" = Some (num 1).
Proof.
  apply (write_reruns_effect 4 0 [Read 0 "count"] 0 "count" (num 1) ex_subscribed);
    [reflexivity|reflexivity| |reflexivity|vm_compute; lia].
  intros e He. exists [Read 0 "count"].
  assert (e = 0) as ->
    by (vm_compute in He; by apply list_elem_of_singleton in He).
  split; reflexivity.
Defined.

(** ** The reactivity engine: effects that write what they read, or throw *)

Lemma trigger_with_subscribed (f : fnid → R unit) (n : nat) (target : objid)
  (key : string) (s : store) :
  subscribers s target key ≠ [] →
  trigger_with f n target key s = forEach_with f n target key 0 s.
Proof.
  unfold trigger_with, subscribers.
  destruct (typeDependencyMap s !! target) as [depMap|]; [|done].
  by destruct (depMap !! key).
Qed.

Lemma R_bind_Timeout {A B} (m : R A) (f : A → R B) (s : store) :
  m s = Timeout → (m ≫= f) s = Timeout.
Proof. unfold mbind, R_bind. by intros ->. Qed.

Lemma R_bind_Throws {A B} (m : R A) (f : A → R B) (s s' : store) :
  m s = Throws s' → (m ≫= f) s = Throws s'.
Proof. unfold mbind, R_bind. by intros ->. Qed.

Lemma effectFn_self_dependent (fuel : nat) (e : fnid) (target : objid)
  (key : string) (v : value) (s : store) :
  closures s !! e = Some [Read target key; Write target key v] →
  frozen (the_object s target) = false →
  (∀ e', subscribers s target key !! 0 = Some e' → e' = e) →
  effectFn fuel e s = Timeout.
Proof.
  revert s. induction fuel as [fuel IH] using lt_wf_ind. intros s Hc Hf Hhead.
  destruct fuel as [|[|n]]; [done| |].
  { rewrite effectFn_S, Hc. done. }
  set (s1 := with_calls (calls s ++ [e]) (with_activeEffect (Some e) s)).
  destruct (read_active n target key s1 e eq_refl)
    as (s2 & E2 & Hsame & _ & _ & Hh2 & Hc2 & _).
  assert (subscribers s2 target key !! 0 = Some e) as Hhead2.
  { rewrite Hsame. change (subscribers s1 target key) with (subscribers s target key).
    unfold set_add. destruct (subscribers s target key) as [|e' l] eqn:El.
    - by rewrite decide_False by (by intros ?%elem_of_nil).
    - rewrite (Hhead e' eq_refl). by destruct (decide _). }
  assert (frozen (the_object s2 target) = false) as Hf2
    by (unfold the_object; by rewrite Hh2).
  assert (trigger_with (effectFn n) n target key (written target key v s2) = Timeout)
    as Et.
  { rewrite trigger_with_subscribed.
    2:{ change (subscribers (written target key v s2) target key)
          with (subscribers s2 target key).
        intros H. by rewrite H in Hhead2. }
    destruct n as [|n]; [done|]. cbn [forEach_with].
    change (subscribers (written target key v s2) target key)
      with (subscribers s2 target key).
    rewrite Hhead2. unfold mbind, R_bind.
    rewrite (IH (S n)); [done|lia| | |].
    - change (closures s2 !! e = Some [Read target key; Write target key v]).
      by rewrite Hc2.
    - unfold the_object, written. simpl. by rewrite lookup_insert_eq.
    - change (subscribers (written target key v s2) target key)
        with (subscribers s2 target key). rewrite Hhead2. congruence. }
  assert (exec (S n) (Write target key v) s2 = Timeout) as Ew.
  { rewrite exec_S. cbn [set reactive_with].
    unfold mbind, R_bind, Reflect_set. rewrite Hf2.
    fold (written target key v s2). by rewrite Et. }
  assert (run_with (exec (S n)) [Read target key; Write target key v] s1 = Timeout)
    as Erun.
  { cbn [run_with]. rewrite (R_bind_Returns _ _ _ _ _ E2).
    unfold mbind, R_bind. by rewrite Ew. }
  rewrite effectFn_S, Hc. unfold mbind at 1 2, R_bind, modify.
  apply R_bind_Timeout. exact Erun.
Qed.

(** X15: on an object that is not frozen, an effect whose callback reads a
    property without subscribers and then writes it does not return. The
    read subscribes the closure to the property, the write triggers the
    property's subscribers, and the first of them is the closure itself,
    which reads and writes again: whatever the bound on the nesting of
    calls, the run exceeds it, so [effect] never returns normally (a
    JavaScript engine ends the recursion by throwing its stack overflow
    error out of [effect]). This holds whatever value is written, also the
    one already stored. *)
Theorem self_dependent_effect_never_returns (target : objid) (key : string)
  (v : value) (s : store) :
  frozen (the_object s target) = false →
  subscribers s target key = [] →
  ∀ fuel s', effect fuel [Read target key; Write target key v] s ≠ Returns () s'.
Proof.
  intros Hf Hsub fuel s'. unfold effect, effect_with.
  rewrite (effectFn_self_dependent _ _ target key v); [done| |done|].
  - simpl. by rewrite lookup_app_r, Nat.sub_diag by lia.
  - change (subscribers (with_closures _ s) target key)
      with (subscribers s target key). by rewrite Hsub.
Qed.

Lemma self_dependent_effect_never_returns_witness :
  frozen (the_object ex_counter 0) = false
  ∧ subscribers ex_counter 0 "count" = []
  ∧ effect 1000 [Read 0 "count"; Write 0 "count" (num 0)] ex_counter
    ≠ Returns () ex_counter.
Proof.
  split; [reflexivity|]. split; [reflexivity|].
  exact (self_dependent_effect_never_returns 0 "count" (num 0) ex_counter
           eq_refl eq_refl 1000 ex_counter).
Defined.

Lemma run_with_app (exec : action → R unit) (fn rest : list action) (s s1 : store) :
  run_with exec fn s = Returns () s1 →
  run_with exec (fn ++ rest) s = run_with exec rest s1.
Proof.
  revert s. induction fn as [|a fn IH]; intros s; simpl.
  - by intros [= ->].
  - unfold mbind, R_bind. destruct (exec a s) as [[] s'| |]; [apply IH|done..].
Qed.

Lemma effectFn_thrower (n : nat) (e : fnid) (fn : list action) (s : store) :
  closures s !! e = Some fn → reads_then_throws fn →
  ∃ s', effectFn (S (S n)) e s = Throws s'
        ∧ activeEffect s' = Some e ∧ heap s' = heap s
        ∧ closures s' = closures s ∧ calls s' = calls s ++ [e].
Proof.
  intros Hc (before & rest & -> & Hreads). rewrite effectFn_S, Hc.
  destruct (run_reads n e before
              (with_calls (calls s ++ [e]) (with_activeEffect (Some e) s))
              Hreads eq_refl)
    as (s1 & E1 & Ha1 & Hh1 & Hc1 & Hl1 & _).
  exists s1. unfold mbind at 1 2, R_bind, modify.
  unfold mbind, R_bind. by rewrite (run_with_app _ _ _ _ _ E1).
Qed.

(** X16: when the callback of an effect reads some properties and then
    throws, [effect] throws with the closure left as the active
    subscriber, and a property read through a proxy made afterwards,
    outside any effect, subscribes that closure to the property read. *)
Theorem throwing_effect_captures_later_reads (n : nat) (fn : list action)
  (s : store) :
  reads_then_throws fn →
  ∃ s', effect (S (S n)) fn s = Throws s'
    ∧ activeEffect s' = Some (length (closures s))
    ∧ ∀ fuel target key,
        ∃ s'', get (reactive fuel target) key s'
               = Returns (field_get (the_object s' target) key) s''
          ∧ length (closures s) ∈ subscribers s'' target key.
Proof.
  intros Hfn. unfold effect, effect_with.
  destruct (effectFn_thrower n (length (closures s)) fn
              (with_closures (closures s ++ [fn]) s))
    as (s' & E & Ha & _); [|done|].
  { simpl. by rewrite lookup_app_r, Nat.sub_diag by lia. }
  exists s'. split; [done|]. split; [done|].
  intros fuel target key.
  destruct (track_active target key s' _ Ha) as (s'' & Et & Hsame & _ & _ & Hh & _).
  exists s''. simpl. rewrite (R_bind_Returns _ _ _ _ _ Et). split.
  - unfold Reflect_get, the_object. by rewrite Hh.
  - rewrite Hsame. apply set_add_elem.
Qed.

Lemma throwing_effect_captures_later_reads_witness :
  ∃ s', effect 2 [Read 0 "count"; ThrowStmt] ex_counter = Throws s'
    ∧ activeEffect s' = Some 0
    ∧ ∃ s'', get (reactive 0 0) "step" s' = Returns VUndefined s''
             ∧ 0 ∈ subscribers s'' 0 "step".
Proof.
  destruct (throwing_effect_captures_later_reads 0 [Read 0 "count"; ThrowStmt]
              ex_counter) as (s' & E & Ha & Hread).
  { exists [Read 0 "count"], []. split; reflexivity. }
  exists s'. split; [exact E|]. split; [exact Ha|].
  destruct (Hread 0 0 "step") as (s'' & Eg & Hin).
  exists s''. split; [|exact Hin].
  rewrite Eg. f_equal.
  assert (s' = match effect 2 [Read 0 "count"; ThrowStmt] ex_counter with
               | Throws s => s | _ => ex_counter end) as -> by (by rewrite E).
  reflexivity.
Defined.

(** X17: [trigger] stops at a first subscriber that reads and throws.
    When the callback of the first closure recorded for a property does
    nothing but read some properties and then throw, the trigger throws
    after that one invocation: no other subscriber of the property is
    invoked, and the closure is left as the active subscriber. *)
Theorem trigger_stops_at_throwing_subscriber (n : nat) (target : objid)
  (key : string) (e : fnid) (others : list fnid) (fn : list action) (s : store) :
  subscribers s target key = e :: others →
  closures s !! e = Some fn → reads_then_throws fn →
  ∃ s', trigger (S (S (S n))) target key s = Throws s'
    ∧ calls s' = calls s ++ [e]
    ∧ activeEffect s' = Some e.
Proof.
  intros Hsub Hc Hfn. unfold trigger.
  rewrite trigger_with_subscribed by (by rewrite Hsub).
  cbn [forEach_with]. rewrite Hsub. cbn [lookup list_lookup].
  destruct (effectFn_thrower (S n) e fn s Hc Hfn) as (s' & E & Ha & _ & _ & Hl).
  exists s'. unfold mbind, R_bind. by rewrite E.
Qed.

Lemma trigger_stops_at_throwing_subscriber_witness :
  ∃ s', trigger 3 0 "count" ex_throwing_first = Throws s'
    ∧ calls s' = calls ex_throwing_first ++ [0]
    ∧ activeEffect s' = Some 0.
Proof.
  apply (trigger_stops_at_throwing_subscriber 0 0 "count" 0 [1] [ThrowStmt]
           ex_throwing_first); [reflexivity|reflexivity|].
  exists [], []. split; reflexivity.
Defined.

Lemma trigger_with_unsubscribed (f : fnid → R unit) (n : nat) (target : objid)
  (key : string) (s : store) :
  subscribers s target key = [] →
  trigger_with f (S n) target key s = Returns () s.
Proof.
  intros Hsub. unfold trigger_with.
  destruct (typeDependencyMap s !! target) as [depMap|]; [|done].
  destruct (depMap !! key); [|done].
  cbn [forEach_with]. by rewrite Hsub.
Qed.

(** X18: through the proxy, a value written is the value read. On an
    object that is not frozen and whose property has no subscriber, the
    write returns true, a read of the property that follows returns the
    value written, and the other properties of the object are as they
    were; with no active subscriber the read leaves the store as it is. *)
Theorem proxy_set_then_get (fuel : nat) (target : objid) (key : string)
  (v : value) (s : store) :
  frozen (the_object s target) = false →
  subscribers s target key = [] →
  ∃ s1 s2, set (reactive (S fuel) target) key v s = Returns true s1
    ∧ get (reactive (S fuel) target) key s1 = Returns v s2
    ∧ (activeEffect s = None → s2 = s1)
    ∧ ∀ key', key' ≠ key →
        fields (the_object s1 target) !! key' = fields (the_object s target) !! key'.
Proof.
  intros Hf Hsub.
  assert (trigger (S fuel) target key (written target key v s)
          = Returns () (written target key v s)) as Et.
  { apply trigger_with_unsubscribed. exact Hsub. }
  exists (written target key v s).
  assert (set (reactive (S fuel) target) key v s = Returns true (written target key v s))
    as Es.
  { simpl. unfold mbind at 1, R_bind, Reflect_set. rewrite Hf.
    fold (written target key v s).
    change (trigger_with (effectFn (S fuel)) (S fuel) target key)
      with (trigger (S fuel) target key).
    by rewrite (R_bind_Returns _ _ _ _ _ Et). }
  assert (fields (the_object (written target key v s) target) !! key = Some v) as Hv.
  { unfold the_object, written. simpl. rewrite lookup_insert_eq. simpl.
    by rewrite lookup_insert_eq. }
  destruct (activeEffect s) as [e|] eqn:Ha.
  - destruct (track_active target key (written target key v s) e Ha)
      as (s2 & E2 & _ & _ & _ & Hh2 & _).
    exists s2. split; [done|]. split; [|split; [done|]].
    + simpl. rewrite (R_bind_Returns _ _ _ _ _ E2).
      unfold Reflect_get, field_get, the_object. rewrite Hh2.
      unfold the_object in Hv. by rewrite Hv.
    + intros key' Hne. unfold the_object, written. simpl.
      rewrite lookup_insert_eq. simpl. by rewrite lookup_insert_ne.
  - exists (written target key v s). split; [done|]. split; [|split; [done|]].
    + simpl. rewrite (R_bind_Returns _ _ _ _ _
               (track_inactive target key (written target key v s) Ha)).
      unfold Reflect_get, field_get. by rewrite Hv.
    + intros key' Hne. unfold the_object, written. simpl.
      rewrite lookup_insert_eq. simpl. by rewrite lookup_insert_ne.
Qed.

Lemma proxy_set_then_get_witness :
  ∃ s1 s2, set (reactive 1 0) "count" (num 5) ex_counter = Returns true s1
    ∧ get (reactive 1 0) "count" s1 = Returns (num 5) s2
    ∧ s2 = s1.
Proof.
  destruct (proxy_set_then_get 0 0 "count" (num 5) ex_counter eq_refl eq_refl)
    as (s1 & s2 & Es & Eg & Hsame & _).
  exists s1, s2. split; [exact Es|]. split; [exact Eg|exact (Hsame eq_refl)].
Defined.

(** ** The reactivity engine: what every run preserves *)

Section Steps.
Variable Rel : store → store → Prop.
Hypothesis Rel_refl : ∀ s, Rel s s.
Hypothesis Rel_trans : ∀ s1 s2 s3, Rel s1 s2 → Rel s2 s3 → Rel s1 s3.
Hypothesis Rel_activate :
  ∀ s e, is_Some (closures s !! e) → Rel s (with_activeEffect (Some e) s).
Hypothesis Rel_deactivate : ∀ s, Rel s (with_activeEffect None s).
Hypothesis Rel_call : ∀ s e, Rel s (with_calls (calls s ++ [e]) s).
Hypothesis Rel_closure : ∀ s fn, Rel s (with_closures (closures s ++ [fn]) s).
Hypothesis Rel_heap : ∀ s hp, Rel s (with_heap hp s).
Hypothesis Rel_track : ∀ s target key s', track target key s = Returns () s' → Rel s s'.

Lemma steps_bind {A B} (m : R A) (f : A → R B) :
  steps Rel m → (∀ a, steps Rel (f a)) → steps Rel (m ≫= f).
Proof.
  intros Hm Hf s. unfold mbind, R_bind. specialize (Hm s).
  destruct (m s) as [a s1|s1|]; [|done..].
  specialize (Hf a s1). destruct (f a s1) as [b s2|s2|]; [| |done];
    by apply (Rel_trans _ s1).
Qed.

Lemma steps_ret {A} (a : A) : steps Rel (mret a : R A).
Proof. intros s. apply Rel_refl. Qed.

Lemma steps_throw {A} : steps Rel (throw_exn : R A).
Proof. intros s. apply Rel_refl. Qed.

Lemma steps_track (target : objid) (key : string) : steps Rel (track target key).
Proof.
  intros s. destruct (track target key s) as [[] s'|s'|] eqn:E; [by eapply Rel_track| |done].
  unfold track in E. by destruct (activeEffect s).
Qed.

Lemma steps_Reflect_set (target : objid) (key : string) (v : value) :
  steps Rel (Reflect_set target key v).
Proof.
  intros s. unfold Reflect_set. destruct (frozen _); [apply Rel_refl|apply Rel_heap].
Qed.

Lemma steps_forEach (f : fnid → R unit) (n : nat) (target : objid) (key : string)
  (i : nat) :
  (∀ e, steps Rel (f e)) → steps Rel (forEach_with f n target key i).
Proof.
  intros Hf. revert i. induction n as [|n IH]; intros i; [done|].
  intros s. simpl. destruct (subscribers s target key !! i) as [e|]; [|apply Rel_refl].
  apply (steps_bind (f e) (λ _, forEach_with f n target key (S i)));
    [apply Hf|intros _; apply IH].
Qed.

Lemma steps_trigger (f : fnid → R unit) (n : nat) (target : objid) (key : string) :
  (∀ e, steps Rel (f e)) → steps Rel (trigger_with f n target key).
Proof.
  intros Hf s. unfold trigger_with.
  destruct (typeDependencyMap s !! target) as [depMap|]; [|apply Rel_refl].
  destruct (depMap !! key); [|apply Rel_refl]. by apply steps_forEach.
Qed.

Lemma steps_effect (f : fnid → R unit) (fn : list action) :
  (∀ e, steps Rel (f e)) → steps Rel (effect_with f fn).
Proof.
  intros Hf s. unfold effect_with.
  specialize (Hf (length (closures s)) (with_closures (closures s ++ [fn]) s)).
  destruct (f _ _) as [[] s'|s'|]; [| |done];
    (eapply Rel_trans; [apply Rel_closure|exact Hf]).
Qed.

Lemma steps_run (exec : action → R unit) (body : list action) :
  (∀ a, steps Rel (exec a)) → steps Rel (run_with exec body).
Proof.
  intros He. induction body as [|a body IH]; simpl; [apply steps_ret|].
  apply steps_bind; [apply He|by intros _].
Qed.

Lemma steps_reactive (trigger : objid → string → R unit) (target : objid) :
  (∀ t k, steps Rel (trigger t k)) →
  (∀ key, steps Rel (get (reactive_with trigger target) key))
  ∧ (∀ key v, steps Rel (set (reactive_with trigger target) key v)).
Proof.
  intros Ht. split.
  - intros key. simpl. apply steps_bind; [apply steps_track|].
    intros _ s. apply Rel_refl.
  - intros key v. simpl. apply steps_bind; [apply steps_Reflect_set|].
    intros result. apply steps_bind; [|intros _; apply steps_ret].
    destruct result; [apply Ht|apply steps_ret].
Qed.

Lemma steps_exec (fuel : nat) :
  (∀ a, steps Rel (exec fuel a)) ∧ (∀ e, steps Rel (effectFn fuel e)).
Proof.
  induction fuel as [|n [IHexec IHfn]]; [by split|].
  assert (∀ t k, steps Rel (trigger_with (effectFn n) n t k)) as Htrig.
  { intros t k. by apply steps_trigger. }
  split.
  - intros a. rewrite exec_S. destruct a as [t k|t k v|fn|t k|t k|].
    + apply steps_bind; [by apply steps_reactive|]. intros _. apply steps_ret.
    + apply steps_bind; [by apply steps_reactive|].
      intros []; [apply steps_ret|apply steps_throw].
    + by apply steps_effect.
    + apply steps_track.
    + apply Htrig.
    + apply steps_throw.
  - intros e s. rewrite effectFn_S.
    destruct (closures s !! e) as [fn|] eqn:Hc; [|apply Rel_refl].
    set (rest := modify (λ s, with_calls (calls s ++ [e]) s);;
                 run_with (exec n) fn;;
                 modify (with_activeEffect None)).
    assert (steps Rel rest) as Hrest.
    { apply steps_bind; [intros s0; apply Rel_call|intros _].
      apply steps_bind; [by apply steps_run|intros _].
      intros s0. apply Rel_deactivate. }
    change (match rest (with_activeEffect (Some e) s) with
            | Returns _ s' | Throws s' => Rel s s'
            | Timeout => True
            end).
    specialize (Hrest (with_activeEffect (Some e) s)).
    destruct (rest (with_activeEffect (Some e) s)) as [[] s'|s'|]; [| |done];
      (eapply Rel_trans; [apply Rel_activate; by rewrite Hc|exact Hrest]).
Qed.

Lemma steps_engine (fuel : nat) :
  (∀ body, steps Rel (run fuel body))
  ∧ (∀ fn, steps Rel (effect fuel fn))
  ∧ (∀ target key, steps Rel (trigger fuel target key))
  ∧ (∀ target key, steps Rel (get (reactive fuel target) key))
  ∧ (∀ target key v, steps Rel (set (reactive fuel target) key v)).
Proof.
  destruct (steps_exec fuel) as [Hexec Hfn].
  assert (∀ t k, steps Rel (trigger fuel t k)) as Htrig
    by (intros t k; by apply steps_trigger).
  split; [intros body; by apply steps_run|].
  split; [intros fn; by apply steps_effect|].
  split; [done|].
  split; [intros t k|intros t k v]; by apply steps_reactive.
Qed.

End Steps.

Lemma grows_refl (s : store) : grows s s.
Proof. by split; [|split]. Qed.

Lemma grows_trans (s1 s2 s3 : store) : grows s1 s2 → grows s2 s3 → grows s1 s3.
Proof.
  intros (H1 & H2 & H3) (H1' & H2' & H3').
  split; [by etrans|]. split; [by etrans|]. intros t k.
  etrans; [apply H3|apply H3'].
Qed.

Lemma grows_track (s : store) (target : objid) (key : string) (s' : store) :
  track target key s = Returns () s' → grows s s'.
Proof.
  intros E. destruct (activeEffect s) as [e|] eqn:Ha.
  - destruct (track_active target key s e Ha)
      as (s1 & E1 & Hsame & Hother & _ & _ & Hc & Hl).
    assert (s1 = s') as -> by congruence.
    split; [by rewrite Hc|]. split; [by rewrite Hl|]. intros t k.
    destruct (decide ((t, k) = (target, key))) as [[= -> ->]|Hne].
    + rewrite Hsame. apply set_add_prefix.
    + by rewrite (Hother t k Hne).
  - rewrite track_inactive in E by done. injection E as <-. apply grows_refl.
Qed.

(** X19: the engine only ever adds. Whatever callbacks do, and however a
    run of them, an effect, a trigger or an access through a proxy ends,
    every subscriber set, the list of closures and the history of
    invocations afterwards extend what they were: no subscription is
    removed or reordered, also not when the effect that made it runs
    again without reading the property. *)
Theorem engine_only_adds (fuel : nat) :
  (∀ body, steps grows (run fuel body))
  ∧ (∀ fn, steps grows (effect fuel fn))
  ∧ (∀ target key, steps grows (trigger fuel target key))
  ∧ (∀ target key, steps grows (get (reactive fuel target) key))
  ∧ (∀ target key v, steps grows (set (reactive fuel target) key v)).
Proof.
  apply steps_engine.
  - apply grows_refl.
  - apply grows_trans.
  - intros s e _. by split; [|split].
  - intros s. by split; [|split].
  - intros s e. split; [done|]. split; [by apply prefix_app_r|done].
  - intros s fn. split; [by apply prefix_app_r|]. by split.
  - intros s hp. by split; [|split].
  - apply grows_track.
Qed.

Lemma registered_track (s : store) (target : objid) (key : string) (s' : store) :
  track target key s = Returns () s' → registered s → registered s'.
Proof.
  intros E [Ha Hs]. destruct (activeEffect s) as [e|] eqn:Hact.
  - destruct (track_active target key s e Hact)
      as (s1 & E1 & Hsame & Hother & Ha1 & _ & Hc & _).
    assert (s1 = s') as -> by congruence.
    split; rewrite Hc.
    + intros e' He'. apply Ha. congruence.
    + intros t k e'. destruct (decide ((t, k) = (target, key))) as [[= -> ->]|Hne].
      * rewrite Hsame. intros [->|Hin]%set_add_inv; [by apply Ha|by apply (Hs target key)].
      * rewrite (Hother t k Hne). apply Hs.
  - rewrite track_inactive in E by done. injection E as <-.
    split; [|done]. intros e. by rewrite Hact.
Qed.

(** X20: every subscriber is a closure that [effect] created. Starting
    from the initial store, or from any store in which the active
    subscriber and the recorded subscribers are registered closures, every
    run of callbacks, however it ends, leaves them so, so that [trigger]
    never finds anything else in a subscriber set. *)
Theorem subscribers_are_effect_closures (fuel : nat) (body : list action)
  (s s' : store) :
  registered s →
  run fuel body s = Returns () s' ∨ run fuel body s = Throws s' →
  registered s'
  ∧ ∀ target key e, e ∈ subscribers s' target key → is_Some (closures s' !! e).
Proof.
  intros Hs Hrun.
  assert (registered s') as Hs'.
  { pose proof (proj1 (steps_engine (λ s s', registered s → registered s')
                 (λ _ H, H) (λ _ _ _ H1 H2 H, H2 (H1 H))
                 ltac:(intros s0 e He [_ H]; split; [|done];
                       intros e' [= <-]; by apply lookup_lt_is_Some)
                 ltac:(by intros s0 [_ H])
                 ltac:(by intros s0 e H)
                 ltac:(intros s0 fn [H1 H2]; split;
                       [intros e He; specialize (H1 e He)
                       |intros t k e He; specialize (H2 t k e He)];
                       simpl; rewrite length_app; simpl; lia)
                 ltac:(by intros s0 hp H)
                 registered_track fuel) body s) as H.
    by destruct Hrun as [E|E]; rewrite E in H; apply H. }
  split; [done|]. intros t k e He. apply lookup_lt_is_Some. by apply (proj2 Hs' t k).
Qed.

Lemma subscribers_are_effect_closures_witness :
  registered ex_subscribed
  ∧ ∀ target key e, e ∈ subscribers ex_subscribed target key →
                    is_Some (closures ex_subscribed !! e).
Proof.
  apply (subscribers_are_effect_closures 4 [CallEffect [Read 0 "count"]]
           ex_counter ex_subscribed).
  - split; [done|]. intros t k e. unfold subscribers. simpl.
    rewrite lookup_empty. by intros ?%elem_of_nil.
  - left. by vm_compute.
Defined.

(** ** [updateProps] and [render] *)

Lemma own_get_NoDup (ps : PropType) (k : string) (v : value) :
  NoDup ps.*1 → (k, v) ∈ ps → own_get ps k = Some v.
Proof.
  induction ps as [|[k' v'] ps IH]; simpl; [by intros _ ?%elem_of_nil|].
  intros [Hk' Hps]%NoDup_cons [[= -> ->]|Hin]%elem_of_cons.
  - by rewrite String.eqb_refl.
  - destruct (String.eqb_spec k' k) as [->|_]; [|by apply IH].
    destruct Hk'. apply list_elem_of_fmap. by exists (k, v).
Qed.

Lemma prop_get_NoDup (ps : PropType) (k : string) (v : value) :
  NoDup ps.*1 → (k, v) ∈ ps → prop_get ps k = v.
Proof. intros Hps Hin. unfold prop_get. by rewrite (own_get_NoDup ps k v). Qed.

Lemma inherited_not_on (k : string) :
  startsWith "on" k = true → inherited k = None.
Proof.
  intros Hon. destruct (inherited k) as [v|] eqn:E; [|done].
  assert (k ∈ Object_prototype.*1) as Hin by (apply own_get_key; eauto).
  assert (Forall (λ name, startsWith "on" name = false) Object_prototype.*1) as Hall
    by (by repeat constructor).
  rewrite Forall_forall in Hall. specialize (Hall k Hin). congruence.
Qed.

Lemma prop_get_nothing_on (k : string) :
  startsWith "on" k = true → prop_get [] k = VUndefined.
Proof. intros Hon. unfold prop_get. simpl. by rewrite inherited_not_on. Qed.

Lemma removals_accepted_nothing (ps : PropType) : removals_accepted ps [] = true.
Proof.
  unfold removals_accepted. apply forallb_forall. intros k _.
  unfold removable, is_listener. destruct (startsWith "on" k) eqn:Hon.
  - rewrite prop_get_nothing_on by done. simpl. by rewrite andb_false_r.
  - simpl. by rewrite andb_false_r.
Qed.

Lemma ops_from_nothing (el : path) (ps l : PropType) :
  NoDup ps.*1 → l ⊆ ps →
  forallb (λ kv, loose_ne kv.2 (prop_get [] kv.1)) l = true →
  l.*1 ≫= issued_set el ps [] = prop_op el <$> l.
Proof.
  intros Hps. induction l as [|[k v] l IH]; intros Hsub Hl; [done|].
  simpl in Hl. apply andb_prop in Hl as [Hv Hl].
  assert (prop_get ps k = v) as Hk.
  { apply prop_get_NoDup; [done|]. apply Hsub. apply list_elem_of_here. }
  rewrite fmap_cons. cbn [fst].
  rewrite bind_cons, fmap_cons, IH; [|by intros x Hx; apply Hsub; right|done].
  f_equal. unfold issued_set, prop_op. rewrite Hk, Hv. cbn [fst snd].
  destruct (is_listener k v) eqn:Hlis; [|done].
  unfold is_listener in Hlis. apply andb_prop in Hlis as [Hon _].
  by rewrite prop_get_nothing_on.
Qed.

Lemma local_ops_as_render (el : path) (ps : PropType) (n : Node) :
  foldl (λ n op, local_op op n) n (prop_op el <$> ps)
  = foldl (λ el kv,
             if startsWith "on" kv.1 && is_function kv.2
             then add_listener (event_name kv.1) kv.2 el
             else set_attribute kv.1 kv.2 el) n ps.
Proof.
  revert n. induction ps as [|[k v] ps IH]; intros n; [done|].
  rewrite fmap_cons. cbn [foldl]. rewrite IH. f_equal.
  unfold prop_op, is_listener. simpl. by destruct (_ && _).
Qed.

Lemma render_props_any_children (t : string) (ps : PropType)
  (a : list (string * string)) (l : list (string * value)) :
  ∃ a' l', ∀ cs,
    foldl (λ el kv,
             if startsWith "on" kv.1 && is_function kv.2
             then add_listener (event_name kv.1) kv.2 el
             else set_attribute kv.1 kv.2 el) (Element t a l cs) ps
    = Element t a' l' cs.
Proof.
  revert a l. induction ps as [|kv ps IH]; intros a l; [by exists a, l|].
  cbn [foldl]. destruct (_ && _); simpl; apply IH.
Qed.

(** X21: [updateProps] from no old mapping does what [render] does with
    the mapping. The old mapping then is an empty object, which gives
    [undefined] under a key, or the member of [Object.prototype] of that
    name. On an element without attributes and listeners, and for a
    mapping with distinct keys none of whose values is loosely equal to
    what the empty object gives under its key, [updateProps] issues one
    call per entry and leaves the element with the attributes and
    listeners that [render] gives a new element for the same mapping, and
    with the children it had. *)
Theorem updateProps_from_nothing_matches_render (p : path) (s : host) (t : string)
  (ps : PropType) (cs : list Node) :
  node_at (tree s) p = Some (Element t [] [] cs) →
  NoDup ps.*1 →
  forallb (λ kv, loose_ne kv.2 (prop_get [] kv.1)) ps = true →
  ∃ s' a l, updateProps (Some p) (Some ps) None s = Ok () s'
    ∧ render (mkVNode t (Some ps) []) = Element t a l []
    ∧ node_at (tree s') p = Some (Element t a l cs)
    ∧ trace s' = trace s ++ (prop_op p <$> ps).
Proof.
  intros Hn Hkeys Hvals.
  assert (element_at p s) as Hs by (by eexists).
  destruct (render_props_any_children t ps [] []) as (a & l & Hfold).
  assert (issued_ops p ps [] = prop_op p <$> ps) as Hops.
  { unfold issued_ops. rewrite (ops_from_nothing p ps ps) by done. apply app_nil_r. }
  exists (foldl perform s (prop_op p <$> ps)), a, l.
  split; [|split; [|split]].
  - rewrite updateProps_live; [|done|apply removals_accepted_nothing].
    simpl. by rewrite Hops.
  - simpl. apply Hfold.
  - rewrite (node_at_perform_all_here p _ s (Element t [] [] cs)); [|clear|exact Hn].
    + by rewrite local_ops_as_render, Hfold.
    + apply Forall_fmap, Forall_forall. intros [k v] _. unfold prop_op. simpl.
      by destruct (is_listener k v).
  - apply trace_perform_all.
Qed.

Lemma updateProps_from_nothing_matches_render_witness :
  ∃ s' a l,
    updateProps (Some [0]) (Some [("key", num 2); ("onClick", VFun 7 "f")]) None
      (mkHost (Element "body" [] [] [Element "li" [] [] [TextNode "two"]]) [])
    = Ok () s'
    ∧ render (mkVNode "li" (Some [("key", num 2); ("onClick", VFun 7 "f")]) [])
      = Element "li" a l []
    ∧ node_at (tree s') [0] = Some (Element "li" a l [TextNode "two"])
    ∧ trace s' = [SetAttribute [0] "key" (num 2);
                  AddEventListener [0] "click" (VFun 7 "f")].
Proof.
  apply (updateProps_from_nothing_matches_render [0]
           (mkHost (Element "body" [] [] [Element "li" [] [] [TextNode "two"]]) [])
           "li" [("key", num 2); ("onClick", VFun 7 "f")] [TextNode "two"]);
    [reflexivity| |reflexivity].
  apply NoDup_cons. split; [by intros [=]%list_elem_of_singleton|].
  apply NoDup_singleton.
Defined.
